(** * Feature and label generation for valuing on-the-ball actions

    A shallow embedding of the feature and label cells of
    [notebooks/tutorial2-generate-features.ipynb]: the pandas frames the
    notebook manipulates are finite maps from column names to columns, the
    notebook's functions are Rocq functions over such frames, and a Python
    exception ([KeyError], [ValueError]) is the result [None].

    Numbers are exact rationals extended with the IEEE specials [NaN] and
    the two infinities; rounding and signed zeros are not modelled.  [NaN]
    is also the pandas marker of a missing value, whatever the column holds. *)

From Stdlib Require Import QArith Qabs Qround Lqa Ascii.
From stdpp Require Import gmap strings list fin_maps pretty.

(** ** Cells *)

Inductive cell : Type :=
| NaN
| Inf (neg : bool)
| Num (q : Q)
| Boolean (b : bool)
| Str (s : string).

Definition Int (z : Z) : cell := Num (inject_Z z).

(** Python's numeric view of an operand: [True] is 1 and [False] is 0.  A
    string has no numeric view (arithmetic on it raises [TypeError]); frames
    built from an action table never send one to arithmetic, and the model
    maps it to [NaN]. *)
Definition as_number (c : cell) : cell :=
  match c with
  | Boolean b => Num (if b then 1 else 0)
  | Str _ => NaN
  | _ => c
  end.

Definition sign_neg (q : Q) : bool := Qle_bool q 0 && negb (Qeq_bool q 0).

Definition cell_add (a b : cell) : cell :=
  match as_number a, as_number b with
  | Num x, Num y => Num (x + y)
  | Inf s, Inf t => if Bool.eqb s t then Inf s else NaN
  | Inf s, Num _ => Inf s
  | Num _, Inf t => Inf t
  | _, _ => NaN
  end.

Definition cell_neg (a : cell) : cell :=
  match as_number a with
  | Num x => Num (- x)
  | Inf s => Inf (negb s)
  | _ => NaN
  end.

Definition cell_sub (a b : cell) : cell :=
  match as_number a, as_number b with
  | Num x, Num y => Num (x - y)
  | Inf s, Inf t => if Bool.eqb s t then NaN else Inf s
  | Inf s, Num _ => Inf s
  | Num _, Inf t => Inf (negb t)
  | _, _ => NaN
  end.

Definition cell_mul (a b : cell) : cell :=
  match as_number a, as_number b with
  | Num x, Num y => Num (x * y)
  | Inf s, Inf t => Inf (xorb s t)
  | Inf s, Num y | Num y, Inf s =>
      if Qeq_bool y 0 then NaN else Inf (xorb s (sign_neg y))
  | _, _ => NaN
  end.

(** IEEE division, as [np.divide] computes it on floats: a finite nonzero
    number over zero is an infinity, zero over zero is [NaN]. *)
Definition cell_div (a b : cell) : cell :=
  match as_number a, as_number b with
  | Num x, Num y =>
      if Qeq_bool y 0
      then (if Qeq_bool x 0 then NaN else Inf (sign_neg x))
      else Num (x / y)
  | Inf s, Num y => Inf (xorb s (sign_neg y))
  | Num _, Inf _ => Num 0
  | _, _ => NaN
  end.

Definition cell_abs (a : cell) : cell :=
  match as_number a with
  | Num x => Num (Qabs x)
  | Inf _ => Inf false
  | _ => NaN
  end.

(** [==]: [NaN] equals nothing, itself included; a string equals only an
    equal string. *)
Definition cell_eqb (a b : cell) : bool :=
  match a, b with
  | Str s, Str t => String.eqb s t
  | Str _, _ | _, Str _ => false
  | _, _ =>
      match as_number a, as_number b with
      | Num x, Num y => Qeq_bool x y
      | Inf s, Inf t => Bool.eqb s t
      | _, _ => false
      end
  end.

(** [>=] on numbers; false as soon as one side is [NaN]. *)
Definition cell_geb (a b : cell) : bool :=
  match as_number a, as_number b with
  | Num x, Num y => Qle_bool y x
  | Inf s, Inf t => negb s || t
  | Inf s, Num _ => negb s
  | Num _, Inf t => t
  | _, _ => false
  end.

(** [>] on numbers; false as soon as one side is [NaN]. *)
Definition cell_gtb (a b : cell) : bool :=
  match as_number a, as_number b with
  | Num x, Num y => negb (Qle_bool x y)
  | Inf s, Inf t => negb s && t
  | Inf s, Num _ => negb s
  | Num _, Inf t => t
  | _, _ => false
  end.

(** [&] and [|] on boolean cells.  On a column of objects pandas replaces a
    missing operand by [False]; a missing left operand of [|] makes the
    whole result [False]. *)
Definition cell_and (a b : cell) : cell :=
  match a, b with
  | Boolean x, Boolean y => Boolean (x && y)
  | _, _ => Boolean false
  end.

Definition cell_or (a b : cell) : cell :=
  match a, b with
  | Boolean x, Boolean y => Boolean (x || y)
  | Boolean x, _ => Boolean x
  | _, _ => Boolean false
  end.

Definition cell_not (a : cell) : cell :=
  match a with
  | Boolean x => Boolean (negb x)
  | _ => NaN
  end.

Definition is_finite (c : cell) : bool :=
  match c with Num _ => true | _ => false end.

Definition is_true (c : cell) : bool :=
  match c with Boolean true => true | _ => false end.

(** ** Columns and frames

    A column is the list of its cells in row order; every frame of the
    notebook carries the default index [0 .. n-1], so a row label is a
    position.  A frame maps a column name to its column. *)

Abbreviation column := (list cell).
Abbreviation DataFrame := (gmap string column).

(** [s.shift(periods)]: rows move down for a positive [periods], up for a
    negative one; the rows left without a value are missing. *)
Definition shift (periods : Z) (s : column) : column :=
  if (0 <=? periods)%Z
  then take (length s) (replicate (Z.to_nat periods) NaN ++ s)
  else drop (Z.to_nat (- periods)) s
         ++ replicate (Z.to_nat (- periods) `min` length s) NaN.

(** [s[-i:] = v]: the slice starts [i] rows before the end, at the first
    row when the column is shorter, and [-0] is the first row. *)
Definition set_from_end (i : nat) (v : cell) (s : column) : column :=
  let start := match i with O => O | _ => length s - i end in
  take start s ++ replicate (length s - start) v.

(** [s.str.contains(pat)] for a pattern without regular-expression
    operators: a substring test; a cell that is not a string gives a
    missing value. *)
Fixpoint substring_of (pat s : string) : bool :=
  String.prefix pat s
  || match s with
     | EmptyString => false
     | String _ s' => substring_of pat s'
     end.

Definition str_contains (pat : string) (c : cell) : cell :=
  match c with
  | Str s => Boolean (substring_of pat s)
  | _ => NaN
  end.

(** The f-string [f'{col}{sep}{i}']. *)
Definition fname (col : string) (sep : Ascii.ascii) (i : nat) : string :=
  col +:+ String sep (pretty i).

(** Loops of statements that may raise. *)
Fixpoint for_each {S A : Type} (l : list A) (st : S)
    (body : S → A → option S) : option S :=
  match l with
  | [] => Some st
  | x :: l' => st' ← body st x; for_each l' st' body
  end.

(** [range(a, b)] *)
Definition range (a b : nat) : list nat := seq a (b - a).

(** ** Series with a name

    A [Series] taken out of a frame carries the column's name, and the
    [DataFrame] constructor looks at it.  A binary operator keeps the name
    when both operands have the same one and drops it otherwise. *)

Record Series : Type := mkSeries { name : option string; values : column }.

Definition getitem (df : DataFrame) (c : string) : option Series :=
  v ← df !! c; Some (mkSeries (Some c) v).

Definition binop (f : cell → cell → cell) (a b : Series) : Series :=
  mkSeries (if decide (name a = name b) then name a else None)
           (zip_with f (values a) (values b)).

Definition series_eq : Series → Series → Series :=
  binop (λ x y, Boolean (cell_eqb x y)).
Definition series_ne : Series → Series → Series :=
  binop (λ x y, Boolean (negb (cell_eqb x y))).
Definition series_and : Series → Series → Series := binop cell_and.
Definition series_or : Series → Series → Series := binop cell_or.

(** [pd.DataFrame(s, columns=cols)].  An unnamed series is the data of the
    single requested column.  A named series is the dictionary
    [{s.name: s}] restricted to [cols]: a requested column of another name
    finds no data, and when no requested column finds any, the frame has
    the requested columns and no rows. *)
Definition DataFrame_of_series (s : Series) (cols : list string)
  : option DataFrame :=
  match name s with
  | None =>
      match cols with
      | [c] => Some {[ c := values s ]}
      | _ => None
      end
  | Some nm =>
      if bool_decide (nm ∈ cols)
      then Some (list_to_map
                   ((λ c, (c, if decide (c = nm) then values s
                              else replicate (length (values s)) NaN)) <$> cols))
      else Some (list_to_map ((λ c, (c, [])) <$> cols))
  end.

(** ** Labels *)

(** The first half of [label_scores] and of [label_concedes], which is the
    same text in both: the frame [y] with the columns [goal], [owngoal] and
    [team_id] and, for [i] in [range(1, nr_actions)], their copies [i] rows
    ahead, where the rows shifted in past the end take the last row's
    value. *)
Definition add_future_column (i : nat) (y : DataFrame) (col : string)
  : option DataFrame :=
  c ← y !! col;
  last_value ← c !! (length c - 1);
  let shifted := shift (- Z.of_nat i) c in
  Some (<[fname col "+" i := set_from_end i last_value shifted]> y).

Definition future_results (df_actions : DataFrame) (nr_actions : nat)
  : option DataFrame :=
  type_name ← df_actions !! "type_name";
  result_id ← df_actions !! "result_id";
  team_id ← df_actions !! "team_id";
  let shot := str_contains "shot" <$> type_name in
  let goals :=
    zip_with cell_and shot ((λ r, Boolean (cell_eqb r (Int 1))) <$> result_id) in
  let owngoals :=
    zip_with cell_and shot ((λ r, Boolean (cell_eqb r (Int 2))) <$> result_id) in
  let y : DataFrame :=
    <["team_id" := team_id]> (<["owngoal" := owngoals]> (<["goal" := goals]> ∅)) in
  for_each (range 1 nr_actions) y (λ y i,
    for_each ["team_id"; "goal"; "owngoal"] y (add_future_column i)).

Definition scores_step (y : DataFrame) (team scores : Series) (i : nat)
  : option Series :=
  goal_i ← getitem y (fname "goal" "+" i);
  owngoal_i ← getitem y (fname "owngoal" "+" i);
  team_i ← getitem y (fname "team_id" "+" i);
  let goal_scored := series_and goal_i (series_eq team_i team) in
  let own_goal_opponent := series_and owngoal_i (series_ne team_i team) in
  Some (series_or (series_or scores goal_scored) own_goal_opponent).

Definition label_scores (df_actions : DataFrame) (nr_actions : nat)
  : option DataFrame :=
  y ← future_results df_actions nr_actions;
  scores ← getitem y "goal";
  team ← getitem y "team_id";
  scores ← for_each (range 1 nr_actions) scores (scores_step y team);
  DataFrame_of_series scores ["scores"].

Definition concedes_step (y : DataFrame) (team concedes : Series) (i : nat)
  : option Series :=
  goal_i ← getitem y (fname "goal" "+" i);
  owngoal_i ← getitem y (fname "owngoal" "+" i);
  team_i ← getitem y (fname "team_id" "+" i);
  let goal_opponent := series_and goal_i (series_ne team_i team) in
  let own_goal_team := series_and owngoal_i (series_eq team_i team) in
  Some (series_or (series_or concedes goal_opponent) own_goal_team).

Definition label_concedes (df_actions : DataFrame) (nr_actions : nat)
  : option DataFrame :=
  y ← future_results df_actions nr_actions;
  concedes ← getitem y "owngoal";
  team ← getitem y "team_id";
  concedes ← for_each (range 1 nr_actions) concedes (concedes_step y team);
  DataFrame_of_series concedes ["concedes"].

(** ** Action tables *)

(** One row of a match's action table, with the columns the notebook lists
    for the SPADL representation and the three name columns merged in from
    the look-up tables. *)
Record Action : Type := mkAction {
  game_id : Z;
  period_id : Z;
  time_seconds : Q;
  team_id : Z;
  player_id : Z;
  start_x : Q;
  start_y : Q;
  end_x : Q;
  end_y : Q;
  bodypart_id : Z;
  type_id : Z;
  result_id : Z;
  type_name : string;
  result_name : string;
  bodypart_name : string
}.

Definition actions_frame (acts : list Action) : DataFrame :=
  list_to_map [
    ("game_id", Int ∘ game_id <$> acts);
    ("period_id", Int ∘ period_id <$> acts);
    ("time_seconds", Num ∘ time_seconds <$> acts);
    ("team_id", Int ∘ team_id <$> acts);
    ("player_id", Int ∘ player_id <$> acts);
    ("start_x", Num ∘ start_x <$> acts);
    ("start_y", Num ∘ start_y <$> acts);
    ("end_x", Num ∘ end_x <$> acts);
    ("end_y", Num ∘ end_y <$> acts);
    ("bodypart_id", Int ∘ bodypart_id <$> acts);
    ("type_id", Int ∘ type_id <$> acts);
    ("result_id", Int ∘ result_id <$> acts);
    ("type_name", Str ∘ type_name <$> acts);
    ("result_name", Str ∘ result_name <$> acts);
    ("bodypart_name", Str ∘ bodypart_name <$> acts) ].

Definition pass_ (team : Z) : Action :=
  mkAction 1 1 10 team 7 50 30 60 34 0 0 1 "pass" "success" "foot".
Definition goal_ (team : Z) : Action :=
  mkAction 1 1 12 team 9 95 34 105 34 0 11 1 "shot" "success" "foot".
Definition owngoal_ (team : Z) : Action :=
  mkAction 1 1 12 team 9 95 34 105 34 0 11 2 "shot" "owngoal" "foot".


(** ** Features *)

Definition PITCH_LENGTH : cell := Int 105.
Definition PITCH_WIDTH : cell := Int 68.
Definition GOAL_X : cell := PITCH_LENGTH.
Definition GOAL_Y : cell := cell_div PITCH_WIDTH (Int 2).

Definition delays : nat := 3.
Definition features_to_delay : list string :=
  ["game_id"; "period_id"; "time_seconds"; "team_id";
   "player_id"; "start_x"; "start_y"; "end_x"; "end_y"; "bodypart_id";
   "type_id"; "result_id"; "type_name"; "result_name"; "bodypart_name";
   "time_played"].

(** [pd.get_dummies(s)] on a column of strings: one indicator column for
    each value that occurs in [s], named by the value; a missing cell is no
    value and has 0 everywhere. *)
Definition categories (s : column) : list string :=
  omap (λ c, match c with Str v => Some v | _ => None end) s.

Definition get_dummies (s : column) : DataFrame :=
  list_to_map
    ((λ v, (v, (λ c, Int (if cell_eqb c (Str v) then 1 else 0)) <$> s))
       <$> categories s).

Definition add_suffix (suffix : string) (df : DataFrame) : DataFrame :=
  kmap (λ c, c +:+ suffix) df.

(** [left.merge(right, how='left', left_index=True, right_index=True)] of
    two frames over the same index: the columns of both, where a name the
    two frames share is renamed to [name_x] on the left and [name_y] on the
    right. *)
Definition merge_on_index (left right : DataFrame) : DataFrame :=
  filter (λ kv, ¬ is_Some (right !! kv.1)) left
  ∪ add_suffix "_x" (filter (λ kv, is_Some (right !! kv.1)) left)
  ∪ add_suffix "_y" (filter (λ kv, is_Some (left !! kv.1)) right)
  ∪ filter (λ kv, ¬ is_Some (left !! kv.1)) right.

Definition add_action_type_dummies (df_actions : DataFrame)
  : option DataFrame :=
  type_name ← df_actions !! "type_name";
  Some (merge_on_index df_actions (get_dummies type_name)).

Definition add_time_played (df_actions : DataFrame) : option DataFrame :=
  time_seconds ← df_actions !! "time_seconds";
  period_id ← df_actions !! "period_id";
  Some (<["time_played" :=
            zip_with (λ t p,
              cell_add
                (cell_add
                   (cell_add t
                      (cell_mul (Boolean (cell_geb p (Int 2))) (Int (45 * 60))))
                   (cell_mul (Boolean (cell_geb p (Int 3))) (Int (15 * 60))))
                (cell_mul (Boolean (cell_eqb p (Int 4))) (Int (15 * 60))))
              time_seconds period_id]> df_actions).

(** [df[cols]] *)
Definition select_columns (df : DataFrame) (cols : list string)
  : option DataFrame :=
  list_to_map <$> mapM (λ c, pair c <$> df !! c) cols.

(** [pd.concat(dfs, axis=1)] of frames over the same index whose column
    names differ from frame to frame; an empty list raises. *)
Definition concat_columns (dfs : list DataFrame) : option DataFrame :=
  match dfs with
  | [] => None
  | _ => Some (⋃ dfs)
  end.

Definition create_delayed_features (df_actions : DataFrame)
    (features_to_delay : list string) (delays : nat) : option DataFrame :=
  df_delays ← mapM (λ step,
    selected ← select_columns df_actions features_to_delay;
    Some (add_suffix (String "-" (pretty step))
            (shift (Z.of_nat step) <$> selected))) (range 0 delays);
  concat_columns df_delays.

Definition add_same_team (df_features : DataFrame) (delays : nat)
  : option DataFrame :=
  for_each (range 1 delays) df_features (λ df step,
    team_0 ← df !! "team_id-0";
    team_step ← df !! fname "team_id" "-" step;
    Some (<[fname "team" "-" step :=
              zip_with (λ x y, Boolean (cell_eqb x y)) team_0 team_step]> df)).

(** [df.loc[mask, col] = new], the column [col] being [old]. *)
Definition loc_assign (mask new old : column) : column :=
  zip_with (λ m vo, if is_true m then vo.1 else vo.2) mask (zip new old).

Definition invert_column (pitch : cell) (df : DataFrame) (team col : string)
  : option DataFrame :=
  old ← df !! col;
  same_team ← df !! team;
  Some (<[col := loc_assign (cell_not <$> same_team)
                            (cell_sub pitch <$> old) old]> df).

Definition invert_coordinates (df_features : DataFrame) (delays : nat)
  : option DataFrame :=
  for_each (range 1 delays) df_features (λ df step,
    for_each ["start"; "end"] df (λ df side,
      df ← invert_column PITCH_LENGTH df
             (fname "team" "-" step) (fname (side +:+ "_x") "-" step);
      invert_column PITCH_WIDTH df
        (fname "team" "-" step) (fname (side +:+ "_y") "-" step))).

(** [np.divide(a, b, out=np.zeros_like(a), where=(b != 0))] *)
Definition divide_where_nonzero (a b : column) : column :=
  zip_with (λ x y, if negb (cell_eqb y (Int 0)) then cell_div x y else Int 0)
           a b.

(** ** Clock, names and plots of the actions

    The functions with which the notebook looks at the actions of a match
    before it computes features. *)

(** A row of a frame, as [df.apply(f, axis=1)] hands it to [f]: the cell of
    every column. *)
Abbreviation FrameRow := (gmap string cell).

(** An operand of arithmetic or of an ordering: a string raises
    [TypeError]. *)
Definition number (c : cell) : option cell :=
  match c with
  | Str _ => None
  | _ => Some c
  end.

(** [a // d] and [a % d] for a positive integer literal [d]: the floor of
    the quotient and what is left of [a].  Of [NaN] both are [NaN]; of an
    infinity the remainder is [NaN] and the quotient is [NaN] or the
    infinity, depending on the version of NumPy, and [int] raises on
    either. *)
Definition cell_floordiv (a : cell) (d : positive) : cell :=
  match as_number a with
  | Num x => Num (inject_Z (Qfloor (x / inject_Z (Z.pos d))))
  | _ => NaN
  end.

Definition cell_mod (a : cell) (d : positive) : cell :=
  match as_number a with
  | Num x =>
      Num (x - inject_Z (Z.pos d) * inject_Z (Qfloor (x / inject_Z (Z.pos d))))
  | _ => NaN
  end.

(** [int(x)] for a number [x]: the integer towards zero; [ValueError] for
    [NaN], [OverflowError] for an infinity. *)
Definition int (c : cell) : option Z :=
  match as_number c with
  | Num x => Some (Z.quot (Qnum x) (Z.pos (Qden x)))
  | _ => None
  end.

Definition nice_time (row : FrameRow) : option string :=
  period_id ← row !! "period_id";
  period_id ← number period_id;
  time_seconds ← row !! "time_seconds";
  time_seconds ← number time_seconds;
  minute ← int (cell_add
                  (cell_add
                     (cell_add
                        (cell_mul (Boolean (cell_geb period_id (Int 2))) (Int 45))
                        (cell_mul (Boolean (cell_geb period_id (Int 3))) (Int 15)))
                     (cell_mul (Boolean (cell_eqb period_id (Int 4))) (Int 15)))
                  (cell_floordiv time_seconds 60));
  second ← int (cell_mod time_seconds 60);
  Some (pretty minute +:+ "m" +:+ pretty second +:+ "s").

(** [s.split(sep)] for a separator of one character. *)
Fixpoint split (sep : Ascii.ascii) (s : string) : list string :=
  match s with
  | EmptyString => [EmptyString]
  | String a s' =>
      if Ascii.eqb a sep then EmptyString :: split sep s'
      else match split sep s' with
           | segment :: segments => String a segment :: segments
           | [] => [String a EmptyString]
           end
  end.

(** The white space of ASCII: tab to carriage return, the four
    separators, the space. *)
Definition is_space (a : Ascii.ascii) : bool :=
  let n := nat_of_ascii a in
  (9 <=? n) && (n <=? 13) || (28 <=? n) && (n <=? 32).

Fixpoint lstrip (s : string) : string :=
  match s with
  | EmptyString => EmptyString
  | String a s' => if is_space a then lstrip s' else s
  end.

Fixpoint rstrip (s : string) : string :=
  match s with
  | EmptyString => EmptyString
  | String a s' =>
      match rstrip s' with
      | EmptyString => if is_space a then EmptyString else String a EmptyString
      | r => String a r
      end
  end.

Definition digit_value (a : Ascii.ascii) : option N :=
  let n := N_of_ascii a in
  if ((48 <=? n) && (n <=? 57))%N then Some (n - 48)%N else None.

(** Decimal digits, where one underscore may stand between two digits. *)
Fixpoint decimal (acc : N) (after_digit : bool) (s : string) : option N :=
  match s with
  | EmptyString => if after_digit then Some acc else None
  | String a s' =>
      match digit_value a with
      | Some d => decimal (10 * acc + d) true s'
      | None =>
          if Ascii.eqb a "_" && after_digit then decimal acc false s' else None
      end
  end.

(** [int(s)] for a string [s] of ASCII: white space around, a sign, decimal
    digits; anything else raises [ValueError]. *)
Definition int_str (s : string) : option Z :=
  match rstrip (lstrip s) with
  | EmptyString => None
  | String a digits =>
      if Ascii.eqb a "+" then Z.of_N <$> decimal 0 false digits
      else if Ascii.eqb a "-" then Z.opp ∘ Z.of_N <$> decimal 0 false digits
      else Z.of_N <$> decimal 0 false (String a digits)
  end.


(** [action_name(row)] for a row whose [action_id] is the number that
    [reset_index] gave it and whose other three fields are strings. *)
Definition action_name (action_id : Z) (nice_time short_name type_name : string)
  : string :=
  pretty action_id +:+ ": " +:+ nice_time +:+ " - " +:+ short_name +:+ " "
  +:+ type_name.




(** The cell of the notebook that flags the locations in the penalty box:
    the loop over the two sides with its three comparisons. *)
Definition add_is_penalty_box (df_actions : DataFrame) : option DataFrame :=
  for_each ["start"; "end"] df_actions (λ df side,
    x ← df !! (side +:+ "_x");
    y ← df !! (side +:+ "_y");
    let deep :=
      (λ v, Boolean (cell_gtb v (cell_sub PITCH_LENGTH (Num (33 # 2))))) <$> x in
    let above := (λ v, Boolean (cell_gtb v (Num (277 # 20)))) <$> y in
    y ← df !! (side +:+ "_y");
    let beyond :=
      (λ v, Boolean (cell_gtb v (cell_sub PITCH_WIDTH (Num (277 # 20))))) <$> y in
    Some (<[side +:+ "_is_penalty_box" :=
              zip_with cell_and (zip_with cell_and deep above) beyond]> df)).

Section location.

(** [np.sqrt]: the rounded square root of a finite number is left open
    ([sqrt_finite]); the square root of [NaN] is [NaN], that of plus
    infinity is plus infinity. *)
Variable sqrt_finite : Q → cell.

Definition np_sqrt (c : cell) : cell :=
  match as_number c with
  | Num q => sqrt_finite q
  | Inf false => Inf false
  | _ => NaN
  end.

Definition euclidean (dx dy : column) : column :=
  zip_with (λ x y, np_sqrt (cell_add (cell_mul x x) (cell_mul y y))) dx dy.

(** The cells of the notebook that compute the features of one action on
    the action table itself. *)
Definition add_normalized_locations (df_actions : DataFrame)
  : option DataFrame :=
  for_each ["start"; "end"] df_actions (λ df side,
    let key_x := side +:+ "_x" in
    x ← df !! key_x;
    let df := <[key_x +:+ "_norm" := (λ v, cell_div v PITCH_LENGTH) <$> x]> df in
    let key_y := side +:+ "_y" in
    y ← df !! key_y;
    Some (<[key_y +:+ "_norm" := (λ v, cell_div v PITCH_WIDTH) <$> y]> df)).

Definition add_goal_features (df_actions : DataFrame)
  : option DataFrame :=
  for_each ["start"; "end"] df_actions (λ df side,
    x ← df !! (side +:+ "_x");
    let diff_x := cell_sub GOAL_X <$> x in
    y ← df !! (side +:+ "_y");
    let diff_y := (λ v, cell_abs (cell_sub GOAL_Y v)) <$> y in
    let df := <[side +:+ "_distance_to_goal" :=
                  euclidean diff_x diff_y]> df in
    Some (<[side +:+ "_angle_to_goal" :=
              divide_where_nonzero diff_x diff_y]> df)).

Definition add_distance_features (df_actions : DataFrame) : option DataFrame :=
  end_x ← df_actions !! "end_x";
  start_x ← df_actions !! "start_x";
  let df := <["diff_x" := zip_with cell_sub end_x start_x]> df_actions in
  end_y ← df !! "end_y";
  start_y ← df !! "start_y";
  let df := <["diff_y" := zip_with cell_sub end_y start_y]> df in
  end_x ← df !! "end_x";
  start_x ← df !! "start_x";
  end_y ← df !! "end_y";
  start_y ← df !! "start_y";
  Some (<["distance_covered" :=
            euclidean (zip_with cell_sub end_x start_x)
              (zip_with cell_sub end_y start_y)]> df).

Definition add_location_features_side (step : nat) (df : DataFrame)
    (side : string) : option DataFrame :=
  let key_x := side +:+ "_x" in
  x ← df !! fname key_x "-" step;
  let df := <[fname (key_x +:+ "_norm") "-" step :=
                (λ v, cell_div v PITCH_LENGTH) <$> x]> df in
  let key_y := side +:+ "_y" in
  y ← df !! fname key_y "-" step;
  let df := <[fname (key_y +:+ "_norm") "-" step :=
                (λ v, cell_div v PITCH_WIDTH) <$> y]> df in
  x ← df !! fname (side +:+ "_x") "-" step;
  let diff_x := cell_sub GOAL_X <$> x in
  y ← df !! fname (side +:+ "_y") "-" step;
  let diff_y := (λ v, cell_abs (cell_sub GOAL_Y v)) <$> y in
  let df := <[fname (side +:+ "_distance_to_goal") "-" step :=
                euclidean diff_x diff_y]> df in
  let df := <[fname (side +:+ "_angle_to_goal") "-" step :=
                divide_where_nonzero diff_x diff_y]> df in
  end_x ← df !! fname "end_x" "-" step;
  start_x ← df !! fname "start_x" "-" step;
  let df := <[fname "diff_x" "-" step := zip_with cell_sub end_x start_x]> df in
  end_y ← df !! fname "end_y" "-" step;
  start_y ← df !! fname "start_y" "-" step;
  let df := <[fname "diff_y" "-" step := zip_with cell_sub end_y start_y]> df in
  Some (<[fname "distance_covered" "-" step :=
            euclidean (zip_with cell_sub end_x start_x)
                      (zip_with cell_sub end_y start_y)]> df).

Definition add_location_features (df_features : DataFrame) (delays : nat)
  : option DataFrame :=
  for_each (range 0 delays) df_features (λ df step,
    for_each ["start"; "end"] df (add_location_features_side step)).

(** [delay = delays - 1]; with no delay at all the name [f'start_x-{-1}']
    is no column of a frame of delayed features. *)
Definition add_sequence_pre_features (df : DataFrame) (delays : nat)
  : option DataFrame :=
  match delays with
  | O => None
  | S delay =>
      start_x_0 ← df !! "start_x-0";
      start_x_d ← df !! fname "start_x" "-" delay;
      let df := <["xdiff_sequence_pre" := zip_with cell_sub start_x_0 start_x_d]> df in
      start_y_0 ← df !! "start_y-0";
      start_y_d ← df !! fname "start_y" "-" delay;
      let df := <["ydiff_sequence_pre" := zip_with cell_sub start_y_0 start_y_d]> df in
      time_0 ← df !! "time_played-0";
      time_d ← df !! fname "time_played" "-" delay;
      Some (<["time_sequence_pre" := zip_with cell_sub time_0 time_d]> df)
  end.

Definition add_sequence_post_features (df : DataFrame) (delays : nat)
  : option DataFrame :=
  match delays with
  | O => None
  | S delay =>
      end_x_0 ← df !! "end_x-0";
      start_x_d ← df !! fname "start_x" "-" delay;
      let df := <["xdiff_sequence_post" := zip_with cell_sub end_x_0 start_x_d]> df in
      end_y_0 ← df !! "end_y-0";
      start_y_d ← df !! fname "start_y" "-" delay;
      Some (<["ydiff_sequence_post" := zip_with cell_sub end_y_0 start_y_d]> df)
  end.

Definition create_features_match (df_actions : DataFrame)
    (features_to_delay : list string) (delays : nat) : option DataFrame :=
  df_action_features ← add_action_type_dummies df_actions;
  df_action_features ← add_time_played df_action_features;
  df_gamestate_features ←
    create_delayed_features df_action_features features_to_delay delays;
  df_gamestate_features ← add_same_team df_gamestate_features delays;
  df_gamestate_features ← invert_coordinates df_gamestate_features delays;
  df_gamestate_features ← add_location_features df_gamestate_features delays;
  df_gamestate_features ← add_sequence_pre_features df_gamestate_features delays;
  add_sequence_post_features df_gamestate_features delays.

End location.

(** The labels of a match, as the notebook puts the two columns side by
    side. *)
Definition df_labels (df_actions : DataFrame) : option DataFrame :=
  scores ← label_scores df_actions 10;
  concedes ← label_concedes df_actions 10;
  concat_columns [scores; concedes].

(** * Vocabulary of the statements *)

Fixpoint has_char (a : Ascii.ascii) (s : string) : bool :=
  match s with
  | EmptyString => false
  | String b s' => Ascii.eqb a b || has_char a s'
  end.

Definition is_digit (a : Ascii.ascii) : bool :=
  has_char a "0123456789".

(** The column [i] rows ahead, as the first loop of the label functions
    builds it. *)
Definition ahead (i : nat) (c : column) : column :=
  set_from_end i (default NaN (c !! (length c - 1))) (shift (- Z.of_nat i) c).

Definition add_futures (T G O : column) (y : DataFrame) (i : nat) : DataFrame :=
  <[fname "owngoal" "+" i := ahead i O]>
    (<[fname "goal" "+" i := ahead i G]>
       (<[fname "team_id" "+" i := ahead i T]> y)).

Definition is_shot (a : Action) : bool := substring_of "shot" (type_name a).
Definition is_goal (a : Action) : bool :=
  is_shot a && bool_decide (result_id a = 1%Z).
Definition is_owngoal (a : Action) : bool :=
  is_shot a && bool_decide (result_id a = 2%Z).

Definition team_column (acts : list Action) : column := Int ∘ team_id <$> acts.
Definition goal_column (acts : list Action) : column := Boolean ∘ is_goal <$> acts.
Definition owngoal_column (acts : list Action) : column :=
  Boolean ∘ is_owngoal <$> acts.

Definition base_results (acts : list Action) : DataFrame :=
  <["team_id" := team_column acts]>
    (<["owngoal" := owngoal_column acts]> (<["goal" := goal_column acts]> ∅)).

Definition all_results (acts : list Action) (nr_actions : nat) : DataFrame :=
  foldl (add_futures (team_column acts) (goal_column acts) (owngoal_column acts))
        (base_results acts) (range 1 nr_actions).

(** The two label loops are one loop up to where the team test is negated. *)
Definition label_step (c1 c2 : bool → bool) (y : DataFrame)
    (team acc : Series) (i : nat) : option Series :=
  goal_i ← getitem y (fname "goal" "+" i);
  owngoal_i ← getitem y (fname "owngoal" "+" i);
  team_i ← getitem y (fname "team_id" "+" i);
  Some (series_or
          (series_or acc
             (series_and goal_i
                (binop (λ x y, Boolean (c1 (cell_eqb x y))) team_i team)))
          (series_and owngoal_i
             (binop (λ x y, Boolean (c2 (cell_eqb x y))) team_i team))).

(** What an action [m] of the horizon adds to the label of the action [a]. *)
Definition outcome (c1 c2 : bool → bool) (a m : Action) : bool :=
  is_goal m && c1 (bool_decide (team_id m = team_id a))
  || is_owngoal m && c2 (bool_decide (team_id m = team_id a)).

(** The same for the action [i] rows after row [j]; past the end of the
    table it is the last action. *)
Definition outcome_ahead (c1 c2 : bool → bool) (acts : list Action)
    (j : nat) (a : Action) (i : nat) : bool :=
  match acts !! ((j + i) `min` (length acts - 1)) with
  | Some m => outcome c1 c2 a m
  | None => false
  end.

Definition pointwise (acts : list Action) (v : column)
    (f : nat → Action → bool) : Prop :=
  length v = length acts
  ∧ ∀ j a, acts !! j = Some a → v !! j = Some (Boolean (f j a)).

(** The horizon of the action at row [i], in the spec's words: the actions
    [i .. i+H-1], cut at the end of the match. *)
Definition horizon (acts : list Action) (H i : nat) : list Action :=
  take H (drop i acts).

Definition same_team (team_0 team_step : column) : column :=
  zip_with (λ x y, Boolean (cell_eqb x y)) team_0 team_step.

Definition inverted (pitch : cell) (same old : column) : column :=
  loc_assign (cell_not <$> same) (cell_sub pitch <$> old) old.

(** The coordinate columns and the pitch size each is mirrored in. *)
Definition coordinate_pitch : list (string * cell) :=
  [("start_x", PITCH_LENGTH); ("start_y", PITCH_WIDTH);
   ("end_x", PITCH_LENGTH); ("end_y", PITCH_WIDTH)].

(** The three steps of [create_features_match] that build the windows and
    normalize their coordinates. *)
Definition normalized_windows (df : DataFrame) (features : list string)
    (delays : nat) : option DataFrame :=
  w ← create_delayed_features df features delays;
  w ← add_same_team w delays;
  invert_coordinates w delays.

Definition cell_at (df : DataFrame) (c : string) (i : nat) : option cell :=
  col ← df !! c; col !! i.

(** The coordinate attributes of an action, with the column each is stored
    in and the pitch size it is mirrored in. *)
Definition coordinates : list (string * (Action → Q) * Q) :=
  [("start_x", start_x, 105%Q); ("start_y", start_y, 68%Q);
   ("end_x", end_x, 105%Q); ("end_y", end_y, 68%Q)].

Definition demo : list Action := [pass_ 1; goal_ 2; pass_ 1; owngoal_ 1].
Definition demo_features : list string :=
  ["team_id"; "start_x"; "start_y"; "end_x"; "end_y"].

(** The angle to the goal of one row, from the row's coordinates. *)
Definition angle_to_goal (x y : cell) : cell :=
  let diff_x := cell_sub GOAL_X x in
  let diff_y := cell_abs (cell_sub GOAL_Y y) in
  if negb (cell_eqb diff_y (Int 0)) then cell_div diff_x diff_y else Int 0.

Definition angle_column (X Y : column) : column :=
  divide_where_nonzero (cell_sub GOAL_X <$> X)
    ((λ v, cell_abs (cell_sub GOAL_Y v)) <$> Y).

(** The frame one run of the body of [add_location_features] returns. *)
Definition located (sqrt_finite : Q → cell) (step : nat) (side : string)
    (X Y SX SY EX EY : column) (d : DataFrame) : DataFrame :=
  <[fname "distance_covered" "-" step :=
      euclidean sqrt_finite (zip_with cell_sub EX SX) (zip_with cell_sub EY SY)]>
    (<[fname "diff_y" "-" step := zip_with cell_sub EY SY]>
       (<[fname "diff_x" "-" step := zip_with cell_sub EX SX]>
          (<[fname (side +:+ "_angle_to_goal") "-" step := angle_column X Y]>
             (<[fname (side +:+ "_distance_to_goal") "-" step :=
                  euclidean sqrt_finite (cell_sub GOAL_X <$> X)
                    ((λ v, cell_abs (cell_sub GOAL_Y v)) <$> Y)]>
                (<[fname ((side +:+ "_y") +:+ "_norm") "-" step :=
                     (λ v, cell_div v PITCH_WIDTH) <$> Y]>
                   (<[fname ((side +:+ "_x") +:+ "_norm") "-" step :=
                        (λ v, cell_div v PITCH_LENGTH) <$> X]> d)))))).




(** The offset of a period in seconds, in the spec's words. *)
Definition period_offset (p : Z) : option Q :=
  if decide (p = 1%Z) then Some 0%Q
  else if decide (p = 2%Z) then Some (45 * 60)%Q
  else if decide (p = 3%Z) then Some ((45 + 15) * 60)%Q
  else if decide (p = 4%Z) then Some ((45 + 15 + 15) * 60)%Q
  else None.

(** The expression [add_time_played] evaluates on one row. *)
Definition time_played_cell (t p : cell) : cell :=
  cell_add
    (cell_add
       (cell_add t (cell_mul (Boolean (cell_geb p (Int 2))) (Int (45 * 60))))
       (cell_mul (Boolean (cell_geb p (Int 3))) (Int (15 * 60))))
    (cell_mul (Boolean (cell_eqb p (Int 4))) (Int (15 * 60))).


(** An action of stoppage time in the first half, 46 minutes 40 seconds
    in, and the kick-off of the second half. *)
Definition stoppage_time : Action :=
  mkAction 1 1 2800 1 7 50 30 60 34 0 0 1 "pass" "success" "foot".
Definition second_half_kick_off : Action :=
  mkAction 1 2 0 2 8 52 34 40 30 0 0 1 "pass" "success" "foot".





(** The two locations of an action, with the column prefix of each. *)
Definition sides : list (string * (Action → Q) * (Action → Q)) :=
  [("start", start_x, start_y); ("end", end_x, end_y)].

(** The column of flags the cell computes from the columns of a location. *)
Definition penalty_box_column (X Y : column) : column :=
  zip_with cell_and
    (zip_with cell_and
       ((λ v, Boolean (cell_gtb v (cell_sub PITCH_LENGTH (Num (33 # 2))))) <$> X)
       ((λ v, Boolean (cell_gtb v (Num (277 # 20)))) <$> Y))
    ((λ v, Boolean (cell_gtb v (cell_sub PITCH_WIDTH (Num (277 # 20))))) <$> Y).


(** The columns the body of [add_location_features] computes for a slot,
    from the four coordinate columns of the slot, under the names they get
    before the suffix of the slot. *)
Definition location_features (sqrt_finite : Q → cell) (SX SY EX EY : column)
  : list (string * column) :=
  [("start_x_norm", (λ v, cell_div v PITCH_LENGTH) <$> SX);
   ("start_y_norm", (λ v, cell_div v PITCH_WIDTH) <$> SY);
   ("start_distance_to_goal",
    euclidean sqrt_finite (cell_sub GOAL_X <$> SX)
      ((λ v, cell_abs (cell_sub GOAL_Y v)) <$> SY));
   ("start_angle_to_goal", angle_column SX SY);
   ("end_x_norm", (λ v, cell_div v PITCH_LENGTH) <$> EX);
   ("end_y_norm", (λ v, cell_div v PITCH_WIDTH) <$> EY);
   ("end_distance_to_goal",
    euclidean sqrt_finite (cell_sub GOAL_X <$> EX)
      ((λ v, cell_abs (cell_sub GOAL_Y v)) <$> EY));
   ("end_angle_to_goal", angle_column EX EY);
   ("diff_x", zip_with cell_sub EX SX);
   ("diff_y", zip_with cell_sub EY SY);
   ("distance_covered",
    euclidean sqrt_finite (zip_with cell_sub EX SX) (zip_with cell_sub EY SY))].

Definition location_names : list string :=
  ["start_x_norm"; "start_y_norm"; "start_distance_to_goal";
   "start_angle_to_goal"; "end_x_norm"; "end_y_norm"; "end_distance_to_goal";
   "end_angle_to_goal"; "diff_x"; "diff_y"; "distance_covered"].

Definition sequence_names : list string :=
  ["xdiff_sequence_pre"; "ydiff_sequence_pre"; "time_sequence_pre";
   "xdiff_sequence_post"; "ydiff_sequence_post"].

(** The column [time_played] of an action table. *)
Definition time_played_column (acts : list Action) : column :=
  (λ a, time_played_cell (Num (time_seconds a)) (Int (period_id a))) <$> acts.

(** The columns of the table of features for [K] slots. *)
Definition feature_columns (K : nat) : list string :=
  (range 0 K ≫= λ s, (λ c, fname c "-" s) <$> features_to_delay ++ location_names)
  ++ (fname "team" "-" <$> range 1 K) ++ sequence_names.

(** The steps of [create_features_match] after the frame of the actions,
    with its indicators and the time played, is built. *)
Definition features_of_frame (sqrt_finite : Q → cell) (df : DataFrame)
    (features : list string) (delays : nat) : option DataFrame :=
  w ← create_delayed_features df features delays;
  w ← add_same_team w delays;
  w ← invert_coordinates w delays;
  w ← add_location_features sqrt_finite w delays;
  w ← add_sequence_pre_features w delays;
  add_sequence_post_features w delays.

(** The action in slot [s] of the window of row [i]. *)
Definition slot_action (acts : list Action) (i s : nat) : option Action :=
  if decide (s ≤ i) then acts !! (i - s) else None.

(** A coordinate of the action [a] in slot [s] of a row of the action
    [a0], after the normalization: mirrored in the pitch when the slot is
    not slot 0 and the two teams differ. *)
Definition mirrored (a0 a : Action) (s : nat) (get : Action → Q) (size : Q) : Q :=
  if decide (s = 0 ∨ team_id a = team_id a0) then get a else size - get a.

Definition slot_coordinate (a0 : Action) (s : nat) (slot : option Action)
    (get : Action → Q) (size : Q) : cell :=
  match slot with
  | Some a => Num (mirrored a0 a s get size)
  | None => NaN
  end.

Definition slot_time (slot : option Action) : cell :=
  match slot with
  | Some a => time_played_cell (Num (time_seconds a)) (Int (period_id a))
  | None => NaN
  end.

(** The cells of [location_features] in one row. *)
Definition location_cells (sqrt_finite : Q → cell) (sx sy ex ey : cell)
  : list (string * cell) :=
  let distance dx dy :=
    np_sqrt sqrt_finite (cell_add (cell_mul dx dx) (cell_mul dy dy)) in
  [("start_x_norm", cell_div sx PITCH_LENGTH);
   ("start_y_norm", cell_div sy PITCH_WIDTH);
   ("start_distance_to_goal",
    distance (cell_sub GOAL_X sx) (cell_abs (cell_sub GOAL_Y sy)));
   ("start_angle_to_goal", angle_to_goal sx sy);
   ("end_x_norm", cell_div ex PITCH_LENGTH);
   ("end_y_norm", cell_div ey PITCH_WIDTH);
   ("end_distance_to_goal",
    distance (cell_sub GOAL_X ex) (cell_abs (cell_sub GOAL_Y ey)));
   ("end_angle_to_goal", angle_to_goal ex ey);
   ("diff_x", cell_sub ex sx);
   ("diff_y", cell_sub ey sy);
   ("distance_covered", distance (cell_sub ex sx) (cell_sub ey sy))].

(** The cells of the notebook that compute the location features of an
    action on its own, in the order they run. *)
Definition action_features (sqrt_finite : Q → cell) (df_actions : DataFrame)
  : option DataFrame :=
  df ← add_normalized_locations df_actions;
  df ← add_goal_features sqrt_finite df;
  add_distance_features sqrt_finite df.

(** The attributes of [features_to_delay] that are no coordinates, with
    the cell of each in the row of an action. *)
Definition plain_attributes : list (string * (Action → cell)) :=
  [("game_id", Int ∘ game_id); ("period_id", Int ∘ period_id);
   ("time_seconds", Num ∘ time_seconds); ("team_id", Int ∘ team_id);
   ("player_id", Int ∘ player_id); ("bodypart_id", Int ∘ bodypart_id);
   ("type_id", Int ∘ type_id); ("result_id", Int ∘ result_id);
   ("type_name", Str ∘ type_name); ("result_name", Str ∘ result_name);
   ("bodypart_name", Str ∘ bodypart_name);
   ("time_played",
    λ a, time_played_cell (Num (time_seconds a)) (Int (period_id a)))].

(** * Proofs *)

(** ** Column names *)

Lemma has_char_app a s1 s2 :
  has_char a (s1 +:+ s2) = has_char a s1 || has_char a s2.
Proof.
  induction s1 as [|b s1 IH]; simpl; [done|].
  by rewrite IH, orb_assoc.
Qed.

Lemma pretty_N_char_digit x : is_digit (pretty_N_char x) = true.
Proof. unfold pretty_N_char. by repeat case_match. Qed.

Lemma pretty_N_go_chars a x s :
  has_char a (pretty_N_go x s) = true → has_char a s = true ∨ is_digit a = true.
Proof.
  revert s. induction (N.lt_wf_0 x) as [x _ IH]; intros s.
  destruct (decide (x = 0)%N) as [->|Hx].
  { rewrite pretty_N_go_0. auto. }
  rewrite pretty_N_go_step by lia. intros Hc.
  apply IH in Hc; [|apply N.div_lt; lia].
  destruct Hc as [Hc|Hc]; [|by right].
  simpl in Hc. apply orb_true_iff in Hc as [Hc|Hc]; [|by left].
  right. apply Ascii.eqb_eq in Hc as ->. apply pretty_N_char_digit.
Qed.

Lemma pretty_nat_chars a (n : nat) :
  has_char a (pretty n) = true → is_digit a = true.
Proof.
  unfold pretty, pretty_nat, pretty, pretty_N. case_decide.
  - simpl. rewrite orb_false_r. intros ->%Ascii.eqb_eq. done.
  - intros [?|?]%pretty_N_go_chars; done.
Qed.

Lemma pretty_nat_no_char a (n : nat) :
  is_digit a = false → has_char a (pretty n) = false.
Proof.
  intros Ha. destruct (has_char a (pretty n)) eqn:Hc; [|done].
  apply pretty_nat_chars in Hc. congruence.
Qed.

Lemma append_sep_inj sep c1 c2 s1 s2 :
  has_char sep s1 = false → has_char sep s2 = false →
  c1 +:+ String sep s1 = c2 +:+ String sep s2 → c1 = c2 ∧ s1 = s2.
Proof.
  intros H1 H2. revert c2.
  induction c1 as [|a c1 IH]; intros [|b c2]; simpl; intros Heq.
  - by simplify_eq.
  - simplify_eq. rewrite has_char_app in H1. simpl in H1.
    rewrite Ascii.eqb_refl, orb_true_r in H1. done.
  - simplify_eq. rewrite has_char_app in H2. simpl in H2.
    rewrite Ascii.eqb_refl, orb_true_r in H2. done.
  - simplify_eq. destruct (IH c2) as [-> ->]; done.
Qed.

Lemma fname_inj sep c1 c2 i1 i2 :
  is_digit sep = false →
  fname c1 sep i1 = fname c2 sep i2 → c1 = c2 ∧ i1 = i2.
Proof.
  intros Hsep Heq. unfold fname in Heq.
  apply append_sep_inj in Heq as [-> Hi]; [|by apply pretty_nat_no_char..].
  split; [done|]. by apply (inj pretty).
Qed.

Lemma fname_has_sep sep c i : has_char sep (fname c sep i) = true.
Proof.
  unfold fname. rewrite has_char_app. simpl.
  by rewrite Ascii.eqb_refl, orb_true_r.
Qed.

Lemma fname_ne_plain sep c i b : has_char sep b = false → fname c sep i ≠ b.
Proof. intros Hb <-. by rewrite fname_has_sep in Hb. Qed.

(** ** Columns *)

Lemma Qeq_bool_inject_Z (a b : Z) :
  Qeq_bool (inject_Z a) (inject_Z b) = bool_decide (a = b).
Proof.
  case_bool_decide as H.
  - subst. by apply Qeq_bool_iff.
  - destruct (Qeq_bool (inject_Z a) (inject_Z b)) eqn:E; [|done].
    apply Qeq_bool_iff in E. by rewrite inject_Z_injective in E.
Qed.

Lemma cell_eqb_Int (a b : Z) : cell_eqb (Int a) (Int b) = bool_decide (a = b).
Proof. apply Qeq_bool_inject_Z. Qed.

Lemma length_shift p (s : column) : length (shift p s) = length s.
Proof.
  unfold shift. case_match.
  - rewrite length_take, length_app, length_replicate. lia.
  - rewrite length_app, length_drop, length_replicate. lia.
Qed.

Lemma length_ahead i (c : column) : length (ahead i c) = length c.
Proof.
  unfold ahead, set_from_end.
  rewrite length_app, length_take, length_replicate, length_shift.
  destruct i; lia.
Qed.

Lemma ahead_lookup i j (c : column) :
  1 ≤ i → j < length c →
  ahead i c !! j = c !! ((j + i) `min` (length c - 1)).
Proof.
  intros Hi Hj. unfold ahead, set_from_end. rewrite length_shift.
  destruct i as [|i]; [lia|]. set (k := S i) in *.
  unfold shift. destruct (0 <=? - Z.of_nat k)%Z eqn:E; [lia|].
  replace (Z.to_nat (- - Z.of_nat k)) with k by lia.
  rewrite take_app_le by (rewrite length_drop; lia).
  rewrite take_ge by (rewrite length_drop; lia).
  destruct (decide (j + k < length c)) as [Hlt|Hge].
  - rewrite lookup_app_l by (rewrite length_drop; lia).
    rewrite lookup_drop. f_equal. lia.
  - rewrite lookup_app_r by (rewrite length_drop; lia).
    rewrite length_drop.
    replace ((j + k) `min` (length c - 1)) with (length c - 1) by lia.
    destruct (lookup_lt_is_Some_2 c (length c - 1)) as [v Hv]; [lia|].
    rewrite Hv. simpl. apply lookup_replicate_2. lia.
Qed.

(** ** The frame of future results *)

Lemma for_each_app {S A} (l1 l2 : list A) (st : S) body :
  for_each (l1 ++ l2) st body = st' ← for_each l1 st body; for_each l2 st' body.
Proof.
  revert st. induction l1 as [|x l1 IH]; intros st; simpl; [done|].
  destruct (body st x); simpl; auto.
Qed.

Lemma for_each_cons {S A} (x : A) (l : list A) (st : S) body :
  for_each (x :: l) st body = st' ← body st x; for_each l st' body.
Proof. reflexivity. Qed.

Lemma add_future_column_ahead i (y : DataFrame) col (c : column) :
  y !! col = Some c → c ≠ [] →
  add_future_column i y col = Some (<[fname col "+" i := ahead i c]> y).
Proof.
  intros Hc Hne. unfold add_future_column, ahead. rewrite Hc. simpl.
  destruct (lookup_lt_is_Some_2 c (length c - 1)) as [v Hv].
  { destruct c; [done|simpl; lia]. }
  by rewrite Hv.
Qed.

Lemma add_futures_plain T G O (y : DataFrame) i b :
  has_char "+" b = false → add_futures T G O y i !! b = y !! b.
Proof.
  intros Hb. unfold add_futures.
  by rewrite !lookup_insert_ne by (by apply fname_ne_plain).
Qed.

Lemma add_future_columns T G O (y : DataFrame) i :
  y !! "team_id" = Some T → y !! "goal" = Some G → y !! "owngoal" = Some O →
  T ≠ [] → G ≠ [] → O ≠ [] →
  for_each ["team_id"; "goal"; "owngoal"] y (add_future_column i)
  = Some (add_futures T G O y i).
Proof.
  intros HT HG HO ???. simpl.
  rewrite (add_future_column_ahead _ _ _ T) by done. simpl.
  rewrite (add_future_column_ahead _ _ _ G); [|by rewrite lookup_insert_ne
    by (by apply fname_ne_plain)|done]. simpl.
  rewrite (add_future_column_ahead _ _ _ O); [done| |done].
  by rewrite !lookup_insert_ne by (by apply fname_ne_plain).
Qed.

Lemma foldl_add_futures_plain T G O (y : DataFrame) l b :
  has_char "+" b = false → foldl (add_futures T G O) y l !! b = y !! b.
Proof.
  intros Hb. revert y. induction l as [|i l IH]; intros y; simpl; [done|].
  by rewrite IH, add_futures_plain.
Qed.

Lemma future_columns T G O (y : DataFrame) l :
  y !! "team_id" = Some T → y !! "goal" = Some G → y !! "owngoal" = Some O →
  T ≠ [] → G ≠ [] → O ≠ [] →
  for_each l y (λ y i, for_each ["team_id"; "goal"; "owngoal"] y
                         (add_future_column i))
  = Some (foldl (add_futures T G O) y l).
Proof.
  intros HT HG HO ???. revert y HT HG HO.
  induction l as [|i l IH]; intros y HT HG HO; [done|].
  rewrite for_each_cons, (add_future_columns T G O) by done.
  apply IH; by rewrite add_futures_plain.
Qed.

Lemma plus_not_digit : is_digit "+" = false.
Proof. reflexivity. Qed.

Lemma foldl_add_futures_lookup T G O (y : DataFrame) l i :
  i ∈ l →
  foldl (add_futures T G O) y l !! fname "team_id" "+" i = Some (ahead i T)
  ∧ foldl (add_futures T G O) y l !! fname "goal" "+" i = Some (ahead i G)
  ∧ foldl (add_futures T G O) y l !! fname "owngoal" "+" i = Some (ahead i O).
Proof.
  induction l as [|x l IH] using rev_ind; [by intros ?%elem_of_nil|].
  intros Hi. rewrite foldl_app. simpl. unfold add_futures at 1 3 5.
  destruct (decide (i = x)) as [->|Hne].
  - repeat split.
    + rewrite !lookup_insert_ne by (by intros [? _]%(fname_inj _ _ _ _ _ plus_not_digit)).
      by rewrite lookup_insert_eq.
    + rewrite lookup_insert_ne by (by intros [? _]%(fname_inj _ _ _ _ _ plus_not_digit)).
      by rewrite lookup_insert_eq.
    + by rewrite lookup_insert_eq.
  - rewrite !lookup_insert_ne
      by (intros [_ ?]%(fname_inj _ _ _ _ _ plus_not_digit); congruence).
    apply IH. apply elem_of_app in Hi as [?|?%list_elem_of_singleton]; done.
Qed.

(** ** Labels of an action table *)

Lemma result_flags (acts : list Action) (k : Z) :
  zip_with cell_and (str_contains "shot" <$> (Str ∘ type_name <$> acts))
    ((λ r, Boolean (cell_eqb r (Int k))) <$> (Int ∘ result_id <$> acts))
  = (λ a, Boolean (is_shot a && bool_decide (result_id a = k))) <$> acts.
Proof.
  induction acts as [|a acts IH]; [done|].
  cbn [fmap list_fmap zip_with]. rewrite <-IH. f_equal.
  unfold compose. by rewrite cell_eqb_Int.
Qed.

Lemma future_results_actions acts nr_actions :
  acts ≠ [] ∨ nr_actions ≤ 1 →
  future_results (actions_frame acts) nr_actions
  = Some (all_results acts nr_actions).
Proof.
  intros Hne. unfold future_results.
  change (actions_frame acts !! "type_name") with (Some (Str ∘ type_name <$> acts)).
  change (actions_frame acts !! "result_id") with (Some (Int ∘ result_id <$> acts)).
  change (actions_frame acts !! "team_id") with (Some (Int ∘ team_id <$> acts)).
  cbn [mbind option_bind]. rewrite !result_flags.
  destruct Hne as [Hne|Hle].
  - apply (future_columns (team_column acts) (goal_column acts) (owngoal_column acts));
      try done; by destruct acts.
  - unfold all_results, range. by replace (nr_actions - 1) with 0 by lia.
Qed.

Lemma all_results_plain acts nr_actions :
  all_results acts nr_actions !! "team_id" = Some (team_column acts)
  ∧ all_results acts nr_actions !! "goal" = Some (goal_column acts)
  ∧ all_results acts nr_actions !! "owngoal" = Some (owngoal_column acts).
Proof. unfold all_results. by rewrite !foldl_add_futures_plain. Qed.

Lemma all_results_ahead acts nr_actions i :
  1 ≤ i < nr_actions →
  all_results acts nr_actions !! fname "team_id" "+" i = Some (ahead i (team_column acts))
  ∧ all_results acts nr_actions !! fname "goal" "+" i = Some (ahead i (goal_column acts))
  ∧ all_results acts nr_actions !! fname "owngoal" "+" i
    = Some (ahead i (owngoal_column acts)).
Proof.
  intros Hi. unfold all_results.
  apply (foldl_add_futures_lookup _ _ _ _ (range 1 nr_actions) i).
  unfold range. apply elem_of_seq. lia.
Qed.

Lemma scores_step_label : scores_step = label_step id negb.
Proof. reflexivity. Qed.

Lemma concedes_step_label : concedes_step = label_step negb id.
Proof. reflexivity. Qed.

Lemma label_step_pointwise c1 c2 acts nr_actions team acc f i :
  1 ≤ i < nr_actions →
  team = mkSeries (Some "team_id") (team_column acts) →
  pointwise acts (values acc) f →
  ∃ acc', label_step c1 c2 (all_results acts nr_actions) team acc i = Some acc'
    ∧ name acc' = None
    ∧ pointwise acts (values acc')
        (λ j a, f j a || outcome_ahead c1 c2 acts j a i).
Proof.
  intros Hi -> [Hlen Hacc].
  destruct (all_results_ahead acts nr_actions i Hi) as (HT & HG & HO).
  unfold label_step, getitem. rewrite HT, HG, HO. cbn [mbind option_bind].
  eexists. split; [done|]. split.
  { unfold series_or, series_and, binop. cbn [name].
    rewrite (decide_False (P := Some (fname "team_id" "+" i) = Some "team_id"))
      by (intros [=]; by eapply fname_ne_plain).
    rewrite !(decide_False (P := Some _ = None)) by done.
    repeat case_decide; congruence. }
  split.
  { cbn [series_or series_and binop values].
    rewrite !length_zip_with, !length_ahead. unfold team_column, goal_column,
      owngoal_column. rewrite !length_fmap. lia. }
  intros j a Ha. cbn [series_or series_and binop values].
  assert (j < length acts) as Hj by by eapply lookup_lt_Some.
  rewrite !lookup_zip_with, (Hacc j a Ha).
  rewrite !ahead_lookup
    by (unfold team_column, goal_column, owngoal_column;
        rewrite ?length_fmap; lia).
  unfold team_column, goal_column, owngoal_column.
  rewrite !length_fmap, !list_lookup_fmap, Ha. unfold outcome_ahead.
  destruct (lookup_lt_is_Some_2 acts ((j + i) `min` (length acts - 1)))
    as [m Hm]; [lia|].
  rewrite Hm. unfold outcome. cbn. by rewrite !Qeq_bool_inject_Z, orb_assoc.
Qed.

Lemma label_loop_pointwise c1 c2 acts nr_actions team l acc f :
  (∀ i, i ∈ l → 1 ≤ i < nr_actions) →
  team = mkSeries (Some "team_id") (team_column acts) →
  pointwise acts (values acc) f →
  ∃ acc',
    for_each l acc (label_step c1 c2 (all_results acts nr_actions) team) = Some acc'
    ∧ (l ≠ [] → name acc' = None)
    ∧ pointwise acts (values acc')
        (λ j a, f j a || existsb (outcome_ahead c1 c2 acts j a) l).
Proof.
  intros Hl Hteam. revert acc f.
  induction l as [|i l IH]; intros acc f Hacc.
  { exists acc. split; [done|]. split; [done|]. destruct Hacc as [? Hacc].
    split; [done|]. intros j a Ha. cbn. rewrite orb_false_r. eauto. }
  destruct (label_step_pointwise c1 c2 acts nr_actions team acc f i)
    as (acc1 & Hstep & Hname & Hacc1); [apply Hl; left|done..|].
  destruct (IH (λ i Hi, Hl i (list_elem_of_further _ _ _ Hi)) acc1 _ Hacc1)
    as (acc' & Hloop & Hname' & [Hlen Hacc']).
  exists acc'. rewrite for_each_cons, Hstep. split; [done|]. split.
  { intros _. destruct l; [|by apply Hname'].
    cbn in Hloop. by simplify_eq. }
  split; [done|]. intros j a Ha. rewrite (Hacc' j a Ha). cbn.
  by rewrite orb_assoc.
Qed.

Lemma pointwise_fmap (acts : list Action) (g : Action → bool) :
  pointwise acts (Boolean ∘ g <$> acts) (λ _ a, g a).
Proof.
  split; [by rewrite length_fmap|].
  intros j a Ha. by rewrite list_lookup_fmap, Ha.
Qed.

Lemma range_nonempty a b : a < b → range a b ≠ [].
Proof. unfold range. intros Hab. destruct (b - a) eqn:E; [lia|done]. Qed.

Lemma elem_of_range a b i : i ∈ range a b → a ≤ i < b.
Proof. unfold range. intros ?%elem_of_seq. lia. Qed.

(** For a horizon of two or more, the column [scores] holds for every row
    the disjunction over the rows ahead. *)
Lemma label_scores_table acts nr_actions :
  2 ≤ nr_actions → acts ≠ [] →
  ∃ sc, label_scores (actions_frame acts) nr_actions = Some {[ "scores" := sc ]}
    ∧ pointwise acts sc
        (λ j a, is_goal a
                || existsb (outcome_ahead id negb acts j a) (range 1 nr_actions)).
Proof.
  intros HH Hne. unfold label_scores.
  rewrite future_results_actions by auto. cbn [mbind option_bind].
  destruct (all_results_plain acts nr_actions) as (HT & HG & HO).
  unfold getitem at 1 2. rewrite HT, HG. cbn [mbind option_bind].
  rewrite scores_step_label.
  destruct (label_loop_pointwise id negb acts nr_actions
              (mkSeries (Some "team_id") (team_column acts))
              (range 1 nr_actions)
              (mkSeries (Some "goal") (goal_column acts)) (λ _ a, is_goal a))
    as (acc & Hloop & Hname & Hacc);
    [apply elem_of_range|done|apply pointwise_fmap|].
  rewrite Hloop. cbn [mbind option_bind].
  exists (values acc). split; [|done].
  unfold DataFrame_of_series. by rewrite Hname by (apply range_nonempty; lia).
Qed.

Lemma label_concedes_table acts nr_actions :
  2 ≤ nr_actions → acts ≠ [] →
  ∃ sc, label_concedes (actions_frame acts) nr_actions
        = Some {[ "concedes" := sc ]}
    ∧ pointwise acts sc
        (λ j a, is_owngoal a
                || existsb (outcome_ahead negb id acts j a) (range 1 nr_actions)).
Proof.
  intros HH Hne. unfold label_concedes.
  rewrite future_results_actions by auto. cbn [mbind option_bind].
  destruct (all_results_plain acts nr_actions) as (HT & HG & HO).
  unfold getitem at 1 2. rewrite HT, HO. cbn [mbind option_bind].
  rewrite concedes_step_label.
  destruct (label_loop_pointwise negb id acts nr_actions
              (mkSeries (Some "team_id") (team_column acts))
              (range 1 nr_actions)
              (mkSeries (Some "owngoal") (owngoal_column acts))
              (λ _ a, is_owngoal a))
    as (acc & Hloop & Hname & Hacc);
    [apply elem_of_range|done|apply pointwise_fmap|].
  rewrite Hloop. cbn [mbind option_bind].
  exists (values acc). split; [|done].
  unfold DataFrame_of_series. by rewrite Hname by (apply range_nonempty; lia).
Qed.

(** With a horizon of one the loop does not run, the series is still the
    column [goal] (or [owngoal]) under its own name, and the constructor,
    asked for a column of another name, returns a frame without rows. *)
Lemma label_scores_one acts :
  label_scores (actions_frame acts) 1 = Some {[ "scores" := [] ]}.
Proof.
  unfold label_scores. rewrite future_results_actions by auto.
  cbn [mbind option_bind].
  destruct (all_results_plain acts 1) as (HT & HG & HO).
  unfold getitem. rewrite HT, HG. reflexivity.
Qed.

Lemma label_concedes_one acts :
  label_concedes (actions_frame acts) 1 = Some {[ "concedes" := [] ]}.
Proof.
  unfold label_concedes. rewrite future_results_actions by auto.
  cbn [mbind option_bind].
  destruct (all_results_plain acts 1) as (HT & HG & HO).
  unfold getitem. rewrite HT, HO. reflexivity.
Qed.

(** ** The horizon of a label *)

Lemma outcome_self_scores a : outcome id negb a a = is_goal a.
Proof.
  unfold outcome. rewrite bool_decide_true by done. cbn.
  by rewrite andb_true_r, andb_false_r, orb_false_r.
Qed.

Lemma outcome_self_concedes a : outcome negb id a a = is_owngoal a.
Proof.
  unfold outcome. rewrite bool_decide_true by done. cbn.
  by rewrite andb_true_r, andb_false_r.
Qed.

Lemma horizon_exists c1 c2 acts nr_actions j a :
  1 ≤ nr_actions → acts !! j = Some a →
  outcome c1 c2 a a
  || existsb (outcome_ahead c1 c2 acts j a) (range 1 nr_actions) = true
  ↔ ∃ p m, j ≤ p < j + nr_actions ∧ acts !! p = Some m
           ∧ outcome c1 c2 a m = true.
Proof.
  intros HH Ha. assert (j < length acts) as Hj by by eapply lookup_lt_Some.
  rewrite orb_true_iff, existsb_exists. split.
  - intros [Hself|(i & Hi & Hout)].
    + exists j, a. split; [lia|done].
    + apply list_elem_of_In, elem_of_range in Hi. unfold outcome_ahead in Hout.
      destruct (acts !! ((j + i) `min` (length acts - 1))) as [m|] eqn:Hm;
        [|done].
      exists ((j + i) `min` (length acts - 1)), m. split; [lia|done].
  - intros (p & m & Hp & Hm & Hout).
    destruct (decide (p = j)) as [->|Hne].
    + left. by simplify_eq.
    + right. exists (p - j). split.
      * apply list_elem_of_In. unfold range. apply elem_of_seq. lia.
      * unfold outcome_ahead.
        assert (p < length acts) by by eapply lookup_lt_Some.
        replace ((j + (p - j)) `min` (length acts - 1)) with p by lia.
        by rewrite Hm.
Qed.

Lemma outcome_scores a m :
  outcome id negb a m = true
  ↔ (is_goal m = true ∧ team_id m = team_id a)
    ∨ (is_owngoal m = true ∧ team_id m ≠ team_id a).
Proof.
  unfold outcome, id.
  rewrite orb_true_iff, !andb_true_iff, negb_true_iff,
    bool_decide_eq_true, bool_decide_eq_false. done.
Qed.

Lemma outcome_concedes a m :
  outcome negb id a m = true
  ↔ (is_owngoal m = true ∧ team_id m = team_id a)
    ∨ (is_goal m = true ∧ team_id m ≠ team_id a).
Proof.
  unfold outcome, id.
  rewrite orb_true_iff, !andb_true_iff, negb_true_iff,
    bool_decide_eq_true, bool_decide_eq_false. tauto.
Qed.

Lemma horizon_existsb c1 c2 acts nr_actions j a :
  1 ≤ nr_actions → acts !! j = Some a →
  outcome c1 c2 a a
  || existsb (outcome_ahead c1 c2 acts j a) (range 1 nr_actions)
  = existsb (outcome c1 c2 a) (horizon acts nr_actions j).
Proof.
  intros HH Ha. apply eq_true_iff_eq.
  rewrite horizon_exists by done. rewrite existsb_exists. split.
  - intros (p & m & Hp & Hm & Hout). exists m. split; [|done].
    apply list_elem_of_In, list_elem_of_lookup. exists (p - j).
    unfold horizon. rewrite lookup_take_lt by lia. rewrite lookup_drop.
    by replace (j + (p - j)) with p by lia.
  - intros (m & Hm & Hout).
    apply list_elem_of_In, list_elem_of_lookup in Hm as [k Hk].
    unfold horizon in Hk.
    apply lookup_take_Some in Hk as [Hk Hlt]. rewrite lookup_drop in Hk.
    exists (j + k), m. split; [lia|done].
Qed.

Lemma outcome_ahead_last c1 c2 acts a i :
  last acts = Some a →
  outcome_ahead c1 c2 acts (length acts - 1) a i = outcome c1 c2 a a.
Proof.
  intros Hlast. unfold outcome_ahead.
  replace ((length acts - 1 + i) `min` (length acts - 1))
    with (length acts - 1) by lia.
  rewrite last_lookup in Hlast.
  replace (Nat.pred (length acts)) with (length acts - 1) in Hlast by lia.
  by rewrite Hlast.
Qed.

Lemma orb_existsb_constant {A} (f : A → bool) (b : bool) (l : list A) :
  (∀ x, f x = b) → b || existsb f l = b.
Proof.
  intros Hf. induction l as [|x l IH]; cbn; [by rewrite orb_false_r|].
  rewrite Hf, orb_assoc, orb_diag. done.
Qed.

(** ** Claims about the labels *)

(** Both labels for a horizon of two or more actions: the label of every
    action is the disjunction over the actions [i .. i+H-1] of the match.
    [scores] holds exactly when one of them is a shot with a goal-scoring
    result by the team of action [i], or a shot with an own-goal result by
    another team; [concedes] exactly under the mirrored condition. *)
Theorem labels_over_horizon acts nr_actions i a :
  2 ≤ nr_actions → acts !! i = Some a →
  ∃ sc co bs bc,
    label_scores (actions_frame acts) nr_actions = Some {[ "scores" := sc ]}
    ∧ label_concedes (actions_frame acts) nr_actions
      = Some {[ "concedes" := co ]}
    ∧ length sc = length acts ∧ length co = length acts
    ∧ sc !! i = Some (Boolean bs) ∧ co !! i = Some (Boolean bc)
    ∧ (bs = true
       ↔ ∃ p m, i ≤ p < i + nr_actions ∧ acts !! p = Some m
           ∧ ((is_goal m = true ∧ team_id m = team_id a)
              ∨ (is_owngoal m = true ∧ team_id m ≠ team_id a)))
    ∧ (bc = true
       ↔ ∃ p m, i ≤ p < i + nr_actions ∧ acts !! p = Some m
           ∧ ((is_owngoal m = true ∧ team_id m = team_id a)
              ∨ (is_goal m = true ∧ team_id m ≠ team_id a))).
Proof.
  intros HH Ha. assert (acts ≠ []) as Hne by (by intros ->).
  destruct (label_scores_table acts nr_actions HH Hne) as (sc & Hsc & Hlen & Hs).
  destruct (label_concedes_table acts nr_actions HH Hne)
    as (co & Hco & Hlen' & Hc).
  eexists sc, co, _, _. do 4 (split; [done|]).
  split; [by apply Hs|]. split; [by apply Hc|]. split.
  - rewrite <-outcome_self_scores, horizon_exists by (done || lia).
    by setoid_rewrite outcome_scores.
  - rewrite <-outcome_self_concedes, horizon_exists by (done || lia).
    by setoid_rewrite outcome_concedes.
Qed.

(** The labels of a horizon of two or more actions are the labels of the
    horizon cut at the end of the match: the rows that the shift fills with
    the last row's value add nothing.  The final action is labelled from
    itself alone. *)
Theorem labels_truncated acts nr_actions :
  2 ≤ nr_actions → acts ≠ [] →
  ∃ sc co,
    label_scores (actions_frame acts) nr_actions = Some {[ "scores" := sc ]}
    ∧ label_concedes (actions_frame acts) nr_actions
      = Some {[ "concedes" := co ]}
    ∧ (∀ i a, acts !! i = Some a →
         sc !! i
         = Some (Boolean (existsb (outcome id negb a) (horizon acts nr_actions i)))
         ∧ co !! i
           = Some (Boolean
                     (existsb (outcome negb id a) (horizon acts nr_actions i))))
    ∧ (∀ a, last acts = Some a →
         sc !! (length acts - 1) = Some (Boolean (is_goal a))
         ∧ co !! (length acts - 1) = Some (Boolean (is_owngoal a))).
Proof.
  intros HH Hne.
  destruct (label_scores_table acts nr_actions HH Hne) as (sc & Hsc & Hlen & Hs).
  destruct (label_concedes_table acts nr_actions HH Hne)
    as (co & Hco & Hlen' & Hc).
  exists sc, co. do 2 (split; [done|]). split.
  - intros i a Ha. rewrite (Hs i a Ha), (Hc i a Ha).
    rewrite <-outcome_self_scores, <-outcome_self_concedes.
    by rewrite !horizon_existsb by (done || lia).
  - intros a Hlast. pose proof Hlast as Ha. rewrite last_lookup in Ha.
    replace (Nat.pred (length acts)) with (length acts - 1) in Ha by lia.
    rewrite (Hs _ a Ha), (Hc _ a Ha).
    rewrite <-outcome_self_scores, <-outcome_self_concedes.
    rewrite !orb_existsb_constant
      by (intros; by apply outcome_ahead_last).
    done.
Qed.

Lemma labels_over_horizon_witness :
  ∃ sc co bs bc,
    label_scores (actions_frame demo) 10 = Some {[ "scores" := sc ]}
    ∧ label_concedes (actions_frame demo) 10 = Some {[ "concedes" := co ]}
    ∧ length sc = length demo ∧ length co = length demo
    ∧ sc !! 0 = Some (Boolean bs) ∧ co !! 0 = Some (Boolean bc)
    ∧ (bs = true
       ↔ ∃ p m, 0 ≤ p < 0 + 10 ∧ demo !! p = Some m
           ∧ ((is_goal m = true ∧ team_id m = team_id (pass_ 1))
              ∨ (is_owngoal m = true ∧ team_id m ≠ team_id (pass_ 1))))
    ∧ (bc = true
       ↔ ∃ p m, 0 ≤ p < 0 + 10 ∧ demo !! p = Some m
           ∧ ((is_owngoal m = true ∧ team_id m = team_id (pass_ 1))
              ∨ (is_goal m = true ∧ team_id m ≠ team_id (pass_ 1)))).
Proof.
  apply (labels_over_horizon demo 10 0 (pass_ 1)); [lia|reflexivity].
Defined.

Lemma labels_truncated_witness :
  ∃ sc co,
    label_scores (actions_frame demo) 10 = Some {[ "scores" := sc ]}
    ∧ label_concedes (actions_frame demo) 10 = Some {[ "concedes" := co ]}
    ∧ (∀ i a, demo !! i = Some a →
         sc !! i
         = Some (Boolean (existsb (outcome id negb a) (horizon demo 10 i)))
         ∧ co !! i
           = Some (Boolean (existsb (outcome negb id a) (horizon demo 10 i))))
    ∧ (∀ a, last demo = Some a →
         sc !! (length demo - 1) = Some (Boolean (is_goal a))
         ∧ co !! (length demo - 1) = Some (Boolean (is_owngoal a))).
Proof.
  apply (labels_truncated demo 10); [lia|done].
Defined.

(** C2.  With a horizon of one the claim asks for [scores[i]] to hold
    exactly when action [i] is itself a goal-scoring shot, and for
    [concedes[i]] exactly when it is an own-goal shot.  The code returns, for
    every action table, frames [scores] and [concedes] without any row. *)
Theorem labels_horizon_one acts :
  label_scores (actions_frame acts) 1 = Some {[ "scores" := [] ]}
  ∧ label_concedes (actions_frame acts) 1 = Some {[ "concedes" := [] ]}.
Proof. split; [apply label_scores_one|apply label_concedes_one]. Qed.

(** C1.  A match that ends with a goal, labelled with a horizon of one: the
    final action is a goal-scoring shot, and the frame of labels has no row
    for it, nor for any other action; with a horizon of two the same action
    is labelled from itself alone. *)
Theorem final_action_horizon_one :
  is_goal (goal_ 1) = true
  ∧ (label_scores (actions_frame [pass_ 1; goal_ 1]) 1
     ≫= λ labels, cell_at labels "scores" 1) = None
  ∧ (label_concedes (actions_frame [pass_ 1; goal_ 1]) 1
     ≫= λ labels, cell_at labels "concedes" 1) = None
  ∧ (label_scores (actions_frame [pass_ 1; goal_ 1]) 2
     ≫= λ labels, cell_at labels "scores" 1) = Some (Boolean true)
  ∧ (label_concedes (actions_frame [pass_ 1; goal_ 1]) 2
     ≫= λ labels, cell_at labels "concedes" 1) = Some (Boolean false).
Proof. repeat split; vm_compute; reflexivity. Qed.

(** ** Windows of delayed features *)

Lemma string_length_append (s1 s2 : string) :
  String.length (s1 +:+ s2) = String.length s1 + String.length s2.
Proof. induction s1 as [|a s1 IH]; simpl; [done|]. by rewrite IH. Qed.

Lemma append_cons a (s1 s2 : string) :
  String a s1 +:+ s2 = String a (s1 +:+ s2).
Proof. reflexivity. Qed.

Lemma append_suffix_inj (suffix : string) :
  Inj (=) (=) (λ c : string, c +:+ suffix).
Proof.
  intros c1. induction c1 as [|a c1 IH]; intros [|b c2] Heq; cbn in Heq.
  - done.
  - apply (f_equal String.length) in Heq.
    rewrite !string_length_append in Heq. simpl in Heq. lia.
  - apply (f_equal String.length) in Heq.
    rewrite !string_length_append in Heq. simpl in Heq. lia.
  - rewrite !append_cons in Heq. simplify_eq. f_equal. by apply IH.
Qed.

Lemma mapM_total {A B} (f : A → option B) (g : A → B) (l : list A) :
  (∀ x, f x = Some (g x)) → mapM f l = Some (g <$> l).
Proof.
  intros Hf. induction l as [|x l IH]; [done|].
  cbn. by rewrite Hf, IH.
Qed.

Lemma select_columns_lookup (df : DataFrame) (cols : list string) :
  (∀ c, c ∈ cols → is_Some (df !! c)) →
  ∃ selected, select_columns df cols = Some selected
    ∧ ∀ c, selected !! c = if decide (c ∈ cols) then df !! c else None.
Proof.
  unfold select_columns. induction cols as [|c cols IH]; intros Hcols.
  { exists ∅. split; [done|]. intros c. by rewrite lookup_empty. }
  destruct IH as (selected & Hsel & Hlook).
  { intros c' ?. apply Hcols. by right. }
  destruct (Hcols c) as [v Hv]; [by left|].
  destruct (mapM _ cols) as [l|] eqn:Hl; [|done].
  cbn in Hsel. injection Hsel as <-.
  exists (<[c := v]> (list_to_map l)). split.
  { cbn. rewrite Hv. cbn. by rewrite Hl. }
  intros c'.
  destruct (decide (c' = c)) as [->|Hne].
  - rewrite lookup_insert_eq. by rewrite decide_True by by left.
  - rewrite lookup_insert_ne by done. rewrite Hlook.
    destruct (decide (c' ∈ cols)).
    + by rewrite decide_True by by right.
    + rewrite decide_False; [done|]. by intros [?|?]%elem_of_cons.
Qed.

Lemma minus_not_digit : is_digit "-" = false.
Proof. reflexivity. Qed.

Lemma lookup_add_suffix_step (m : DataFrame) c s t :
  add_suffix (String "-" (pretty t)) m !! fname c "-" s
  = if decide (s = t) then m !! c else None.
Proof.
  pose proof (append_suffix_inj (String "-" (pretty t))).
  unfold add_suffix. case_decide as Hst.
  - subst. unfold fname. apply (lookup_kmap (λ c, c +:+ _)).
  - apply lookup_kmap_None; [done|]. intros c' Heq.
    apply (fname_inj "-" c c' s t minus_not_digit) in Heq as [_ ?]. done.
Qed.

Lemma lookup_union_steps (m : nat → DataFrame) (l : list nat) c s :
  (⋃ ((λ t, add_suffix (String "-" (pretty t)) (m t)) <$> l)) !! fname c "-" s
  = if decide (s ∈ l) then m s !! c else None.
Proof.
  induction l as [|t l IH].
  { by rewrite fmap_nil. }
  rewrite fmap_cons.
  change (⋃ (?x :: ?l)) with (x ∪ ⋃ l).
  rewrite lookup_union, IH, lookup_add_suffix_step.
  destruct (decide (s = t)) as [->|Hne].
  - rewrite (decide_True (P := t ∈ t :: l)) by by left.
    destruct (m t !! c), (decide (t ∈ l)); done.
  - destruct (decide (s ∈ l)).
    + rewrite (decide_True (P := s ∈ t :: l)) by by right.
      by destruct (m s !! c).
    + rewrite (decide_False (P := s ∈ t :: l)); [done|].
      by intros [?|?]%elem_of_cons.
Qed.

Lemma shift_0 (c : column) : shift 0 c = c.
Proof. unfold shift. simpl. by rewrite take_ge. Qed.

Lemma shift_lookup (s i : nat) (c : column) :
  i < length c →
  shift (Z.of_nat s) c !! i = if decide (s ≤ i) then c !! (i - s) else Some NaN.
Proof.
  intros Hi. unfold shift.
  destruct (0 <=? Z.of_nat s)%Z eqn:E; [|apply Z.leb_gt in E; lia].
  rewrite Nat2Z.id, lookup_take_lt by done. case_decide.
  - rewrite lookup_app_r by (rewrite length_replicate; lia).
    by rewrite length_replicate.
  - rewrite lookup_app_l by (rewrite length_replicate; lia).
    apply lookup_replicate_2. lia.
Qed.

Lemma concat_columns_nonempty (dfs : list DataFrame) :
  dfs ≠ [] → concat_columns dfs = Some (⋃ dfs).
Proof. by destruct dfs. Qed.

(** The frame of delayed features has, for every requested column and every
    step below [delays], that column shifted down by the step, and nothing
    under any other name of that form. *)
Lemma create_delayed_features_lookup (df : DataFrame) features delays :
  1 ≤ delays → (∀ c, c ∈ features → is_Some (df !! c)) →
  ∃ w, create_delayed_features df features delays = Some w
    ∧ ∀ c s, w !! fname c "-" s
             = if decide (c ∈ features ∧ s < delays)
               then shift (Z.of_nat s) <$> df !! c else None.
Proof.
  intros HK Hcols.
  destruct (select_columns_lookup df features Hcols) as (sel & Hsel & Hlook).
  unfold create_delayed_features.
  rewrite (mapM_total _ (λ t, add_suffix (String "-" (pretty t))
                               (shift (Z.of_nat t) <$> sel)))
    by (intros t; by rewrite Hsel).
  cbn [mbind option_bind].
  rewrite concat_columns_nonempty
    by (intros ?%fmap_nil_inv; by eapply range_nonempty).
  eexists. split; [done|]. intros c s.
  rewrite (lookup_union_steps (λ t, shift (Z.of_nat t) <$> sel)).
  rewrite lookup_fmap, Hlook. unfold range.
  destruct (decide (c ∈ features)), (decide (s ∈ seq 0 (delays - 0))) as [Hs|Hs];
    rewrite elem_of_seq in Hs.
  - by rewrite decide_True by (split; [done|lia]).
  - rewrite decide_False; [done|]. intros [_ ?]. lia.
  - rewrite decide_False; [done|]. by intros [? _].
  - rewrite decide_False; [done|]. by intros [? _].
Qed.

(** ** Loops with an invariant over the iterations done *)

Lemma for_each_invariant {S A} (I : list A → S → Prop) (l : list A)
    (st : S) body :
  I [] st →
  (∀ pre x suf st, l = pre ++ x :: suf → I pre st →
                   ∃ st', body st x = Some st' ∧ I (pre ++ [x]) st') →
  ∃ st', for_each l st body = Some st' ∧ I l st'.
Proof.
  intros Hinit Hstep.
  cut (∀ suf pre st, l = pre ++ suf → I pre st →
                     ∃ st', for_each suf st body = Some st' ∧ I l st').
  { intros Hcut. by apply (Hcut l [] st). }
  intros suf. induction suf as [|x suf IH]; intros pre st0 Hl HI.
  { rewrite app_nil_r in Hl. subst. by exists st0. }
  destruct (Hstep pre x suf st0 Hl HI) as (st1 & Hbody & HI1).
  rewrite for_each_cons, Hbody. apply (IH (pre ++ [x])); [|done].
  by rewrite <-app_assoc.
Qed.

Lemma range_split a b pre x suf :
  range a b = pre ++ x :: suf → a ≤ x < b ∧ x ∉ pre.
Proof.
  intros Hl. split.
  - apply elem_of_range. rewrite Hl. apply elem_of_app. right. by left.
  - pose proof (NoDup_seq a (b - a)) as Hnd. unfold range in Hl.
    rewrite Hl in Hnd. apply NoDup_app in Hnd as (_ & Hnd & _).
    intros Hx. apply (Hnd x Hx). by left.
Qed.

Lemma range_split_pre a b pre x suf s :
  range a b = pre ++ x :: suf → s ∈ pre → a ≤ s < b ∧ s ≠ x.
Proof.
  intros Hl Hs. split.
  - apply elem_of_range. rewrite Hl. apply elem_of_app. by left.
  - intros ->. by destruct (range_split a b pre x suf Hl) as [_ Hx].
Qed.

Ltac name_ne :=
  let H := fresh in
  intros H; apply (fname_inj "-" _ _ _ _ minus_not_digit) in H;
  destruct H as [? ?]; first [discriminate | congruence | lia].

(** ** The same-team indicator *)

Lemma add_same_team_lookup (w : DataFrame) delays team_0 :
  w !! "team_id-0" = Some team_0 →
  (∀ s, 1 ≤ s < delays → is_Some (w !! fname "team_id" "-" s)) →
  ∃ w1, add_same_team w delays = Some w1
    ∧ (∀ s team_s, 1 ≤ s < delays → w !! fname "team_id" "-" s = Some team_s →
                   w1 !! fname "team" "-" s = Some (same_team team_0 team_s))
    ∧ (∀ k, (∀ s, 1 ≤ s < delays → k ≠ fname "team" "-" s) → w1 !! k = w !! k).
Proof.
  intros H0 Hteams. unfold add_same_team.
  destruct (for_each_invariant
    (λ pre df,
       (∀ s team_s, s ∈ pre → w !! fname "team_id" "-" s = Some team_s →
          df !! fname "team" "-" s = Some (same_team team_0 team_s))
       ∧ (∀ k, (∀ s, s ∈ pre → k ≠ fname "team" "-" s) → df !! k = w !! k))
    (range 1 delays) w
    (λ df step, team_0 ← df !! "team_id-0";
       team_step ← df !! fname "team_id" "-" step;
       Some (<[fname "team" "-" step :=
                 zip_with (λ x y, Boolean (cell_eqb x y)) team_0 team_step]> df)))
    as (w1 & Hrun & Hdone & Hother).
  - split; [by intros ?? ?%elem_of_nil|done].
  - intros pre x suf df Hl [Hdone Hother].
    destruct (range_split _ _ _ _ _ Hl) as [Hx Hfresh].
    destruct (Hteams x Hx) as [team_x Hteam_x].
    rewrite (Hother "team_id-0"), H0
      by (intros; change "team_id-0" with (fname "team_id" "-" 0); name_ne).
    rewrite (Hother (fname "team_id" "-" x)), Hteam_x by (intros; name_ne).
    eexists. split; [done|]. split.
    + intros s team_s [Hs| ->%list_elem_of_singleton]%elem_of_app Hteam_s.
      * destruct (range_split_pre _ _ _ _ _ _ Hl Hs).
        rewrite lookup_insert_ne by name_ne. by apply Hdone.
      * rewrite lookup_insert_eq. by simplify_eq.
    + intros k Hk. rewrite lookup_insert_ne.
      * apply Hother. intros s Hs. apply Hk, elem_of_app. by left.
      * intros Heq. eapply Hk; [|done]. apply elem_of_app. right. by left.
  - exists w1. split; [done|]. split.
    + intros s team_s Hs. apply Hdone, elem_of_seq. lia.
    + intros k Hk. apply Hother. intros s Hs%elem_of_range. by apply Hk.
Qed.

(** ** Inverted coordinates *)

Lemma invert_column_insert pitch (df : DataFrame) team col same old :
  df !! col = Some old → df !! team = Some same →
  invert_column pitch df team col = Some (<[col := inverted pitch same old]> df).
Proof. intros Hold Hsame. unfold invert_column. by rewrite Hold, Hsame. Qed.

Ltac coordinate_cases H :=
  unfold coordinate_pitch in H;
  repeat (apply elem_of_cons in H as [H|H]; [injection H as -> ->|]);
  [..|by apply elem_of_nil in H].

Ltac coordinate_elem := unfold coordinate_pitch; by repeat constructor.

Lemma invert_coordinates_lookup (w1 : DataFrame) delays :
  (∀ s, 1 ≤ s < delays →
        is_Some (w1 !! fname "team" "-" s)
        ∧ ∀ c p, (c, p) ∈ coordinate_pitch → is_Some (w1 !! fname c "-" s)) →
  ∃ w2, invert_coordinates w1 delays = Some w2
    ∧ (∀ s c p same old, 1 ≤ s < delays → (c, p) ∈ coordinate_pitch →
         w1 !! fname "team" "-" s = Some same → w1 !! fname c "-" s = Some old →
         w2 !! fname c "-" s = Some (inverted p same old))
    ∧ (∀ k, (∀ s c p, 1 ≤ s < delays → (c, p) ∈ coordinate_pitch →
                      k ≠ fname c "-" s) → w2 !! k = w1 !! k).
Proof.
  intros Hcols. unfold invert_coordinates.
  destruct (for_each_invariant
    (λ pre df,
       (∀ s c p same old, s ∈ pre → (c, p) ∈ coordinate_pitch →
          w1 !! fname "team" "-" s = Some same → w1 !! fname c "-" s = Some old →
          df !! fname c "-" s = Some (inverted p same old))
       ∧ (∀ k, (∀ s c p, s ∈ pre → (c, p) ∈ coordinate_pitch →
                         k ≠ fname c "-" s) → df !! k = w1 !! k))
    (range 1 delays) w1
    (λ df step, for_each ["start"; "end"] df (λ df side,
       df ← invert_column PITCH_LENGTH df
              (fname "team" "-" step) (fname (side +:+ "_x") "-" step);
       invert_column PITCH_WIDTH df
         (fname "team" "-" step) (fname (side +:+ "_y") "-" step))))
    as (w2 & Hrun & Hdone & Hother).
  - split; [by intros ????? ?%elem_of_nil|done].
  - intros pre x suf df Hl [Hdone Hother].
    destruct (range_split _ _ _ _ _ Hl) as [Hx Hfresh].
    destruct (Hcols x Hx) as [[same Hsame] Hxy].
    destruct (Hxy "start_x" PITCH_LENGTH) as [X0 HX0]; [coordinate_elem|].
    destruct (Hxy "start_y" PITCH_WIDTH) as [Y0 HY0]; [coordinate_elem|].
    destruct (Hxy "end_x" PITCH_LENGTH) as [X1 HX1]; [coordinate_elem|].
    destruct (Hxy "end_y" PITCH_WIDTH) as [Y1 HY1]; [coordinate_elem|].
    assert (∀ c, df !! fname c "-" x = w1 !! fname c "-" x) as Hdf.
    { intros c. apply Hother. intros s c' p' Hs _.
      destruct (range_split_pre _ _ _ _ _ _ Hl Hs). name_ne. }
    cbn [for_each].
    change ("start" +:+ "_x") with "start_x".
    change ("start" +:+ "_y") with "start_y".
    change ("end" +:+ "_x") with "end_x".
    change ("end" +:+ "_y") with "end_y".
    rewrite (invert_column_insert _ _ _ _ same X0) by by rewrite Hdf.
    cbn [mbind option_bind].
    rewrite (invert_column_insert _ _ _ _ same Y0)
      by (rewrite !lookup_insert_ne by name_ne; by rewrite Hdf).
    cbn [mbind option_bind].
    rewrite (invert_column_insert _ _ _ _ same X1)
      by (rewrite !lookup_insert_ne by name_ne; by rewrite Hdf).
    cbn [mbind option_bind].
    rewrite (invert_column_insert _ _ _ _ same Y1)
      by (rewrite !lookup_insert_ne by name_ne; by rewrite Hdf).
    eexists. split; [done|]. split.
    + intros s c p same' old [Hs| ->%list_elem_of_singleton]%elem_of_app
        Hc Hsame' Hold.
      * destruct (range_split_pre _ _ _ _ _ _ Hl Hs).
        rewrite !lookup_insert_ne by name_ne. by eapply Hdone.
      * coordinate_cases Hc; simplify_eq;
          repeat first [rewrite lookup_insert_eq
                       |rewrite lookup_insert_ne by name_ne]; done.
    + intros k Hk.
      assert (∀ c p, (c, p) ∈ coordinate_pitch → k ≠ fname c "-" x) as Hkx.
      { intros c p Hc. apply (Hk x c p); [|done].
        apply elem_of_app. right. by left. }
      rewrite !lookup_insert_ne
        by (apply not_eq_sym; eapply Hkx; coordinate_elem).
      apply Hother. intros s c p Hs. apply Hk, elem_of_app. by left.
  - exists w2. split; [done|]. split.
    + intros s c p same old Hs. apply Hdone, elem_of_seq. lia.
    + intros k Hk. apply Hother. intros s c p Hs%elem_of_range.
      by apply Hk.
Qed.

(** ** Normalized windows *)

Lemma normalized_windows_lookup (df : DataFrame) features delays team :
  1 ≤ delays → (∀ c, c ∈ features → is_Some (df !! c)) →
  "team_id" ∈ features → (∀ c p, (c, p) ∈ coordinate_pitch → c ∈ features) →
  df !! "team_id" = Some team →
  ∃ w w1 w2,
    create_delayed_features df features delays = Some w
    ∧ add_same_team w delays = Some w1
    ∧ invert_coordinates w1 delays = Some w2
    ∧ normalized_windows df features delays = Some w2
    ∧ (∀ c s, w !! fname c "-" s
              = if decide (c ∈ features ∧ s < delays)
                then shift (Z.of_nat s) <$> df !! c else None)
    ∧ (∀ s, 1 ≤ s < delays →
            w1 !! fname "team" "-" s
            = Some (same_team team (shift (Z.of_nat s) team))
            ∧ w2 !! fname "team" "-" s
              = Some (same_team team (shift (Z.of_nat s) team)))
    ∧ (∀ s c p old, 1 ≤ s < delays → (c, p) ∈ coordinate_pitch →
         df !! c = Some old →
         w2 !! fname c "-" s
         = Some (inverted p (same_team team (shift (Z.of_nat s) team))
                   (shift (Z.of_nat s) old)))
    ∧ (∀ c old, c ∈ features → df !! c = Some old →
                w2 !! fname c "-" 0 = Some old).
Proof.
  intros HK Hcols Hteam Hcoords Hdf_team.
  destruct (create_delayed_features_lookup df features delays HK Hcols)
    as (w & Hw & Hw_look).
  assert (∀ c s col, c ∈ features → s < delays → df !! c = Some col →
            w !! fname c "-" s = Some (shift (Z.of_nat s) col)) as Hw_some.
  { intros c s col ?? Hc. rewrite Hw_look, decide_True by (split; assumption).
    by rewrite Hc. }
  destruct (add_same_team_lookup w delays team) as (w1 & Hw1 & Hsame & Hw1_other).
  { change "team_id-0" with (fname "team_id" "-" 0).
    rewrite (Hw_some _ _ team) by (done || lia). by rewrite shift_0. }
  { intros s Hs. destruct (Hcols "team_id" Hteam) as [col Hcol].
    rewrite (Hw_some _ _ col) by (done || lia). done. }
  assert (∀ s, 1 ≤ s < delays →
            w1 !! fname "team" "-" s
            = Some (same_team team (shift (Z.of_nat s) team))) as Hw1_team.
  { intros s Hs. apply Hsame; [done|]. apply Hw_some; (done || lia). }
  assert (∀ c p s, (c, p) ∈ coordinate_pitch →
            w1 !! fname c "-" s = w !! fname c "-" s) as Hw1_coord.
  { intros c p s Hc. apply Hw1_other. intros s' _.
    coordinate_cases Hc; name_ne. }
  destruct (invert_coordinates_lookup w1 delays) as (w2 & Hw2 & Hinv & Hw2_other).
  { intros s Hs. split; [by rewrite Hw1_team|]. intros c p Hc.
    rewrite (Hw1_coord c p s Hc).
    destruct (Hcols c (Hcoords c p Hc)) as [col Hcol].
    rewrite (Hw_some _ _ col) by (done || eauto || lia). done. }
  exists w, w1, w2. split; [done|]. split; [done|]. split; [done|]. split.
  { unfold normalized_windows. rewrite Hw. cbn. rewrite Hw1. cbn. done. }
  split; [done|]. split; [|split].
  - intros s Hs. split; [by apply Hw1_team|].
    rewrite Hw2_other by (intros s' c p _ Hc; coordinate_cases Hc; name_ne).
    by apply Hw1_team.
  - intros s c p old Hs Hc Hold.
    apply Hinv; [done..|by apply Hw1_team|].
    rewrite (Hw1_coord c p s Hc). apply Hw_some; (done || eauto || lia).
  - intros c old Hc Hold.
    rewrite Hw2_other by (intros s' c' p' ? _; name_ne).
    rewrite Hw1_other by (intros s' ?; name_ne).
    rewrite (Hw_some _ _ old) by (done || lia). by rewrite shift_0.
Qed.

Lemma loc_assign_lookup (mask new old : column) i m v o :
  mask !! i = Some m → new !! i = Some v → old !! i = Some o →
  loc_assign mask new old !! i = Some (if is_true m then v else o).
Proof.
  intros Hm Hv Ho. unfold loc_assign.
  rewrite lookup_zip_with, Hm. cbn.
  by rewrite (proj2 (lookup_zip_with_Some pair new old i (v, o)))
    by (exists v, o; done).
Qed.

Lemma same_team_lookup (team_0 team_s : column) i x y :
  team_0 !! i = Some x → team_s !! i = Some y →
  same_team team_0 team_s !! i = Some (Boolean (cell_eqb x y)).
Proof.
  intros Hx Hy. unfold same_team. by rewrite lookup_zip_with, Hx, Hy.
Qed.

Lemma inverted_lookup pitch (team_0 team_s old : column) i x y o :
  team_0 !! i = Some x → team_s !! i = Some y → old !! i = Some o →
  inverted pitch (same_team team_0 team_s) old !! i
  = Some (if cell_eqb x y then o else cell_sub pitch o).
Proof.
  intros Hx Hy Ho. unfold inverted.
  rewrite (loc_assign_lookup _ _ _ i (cell_not (Boolean (cell_eqb x y)))
             (cell_sub pitch o) o).
  - by destruct (cell_eqb x y).
  - by rewrite list_lookup_fmap, (same_team_lookup _ _ _ x y).
  - by rewrite list_lookup_fmap, Ho.
  - done.
Qed.

Lemma cell_eqb_NaN_r x : cell_eqb x NaN = false.
Proof. by destruct x as [| | |[]|]. Qed.

Lemma cell_sub_NaN_r x : cell_sub x NaN = NaN.
Proof. by destruct x as [| | |[]|]. Qed.

(** ** Windows of an action table *)

Lemma coordinates_frame acts c get size :
  (c, get, size) ∈ coordinates →
  actions_frame acts !! c = Some (Num ∘ get <$> acts)
  ∧ (c, Num size) ∈ coordinate_pitch.
Proof.
  unfold coordinates. intros Hc.
  repeat (apply elem_of_cons in Hc as [Hc|Hc];
          [injection Hc as -> -> ->; split; [reflexivity|coordinate_elem]|]).
  by apply elem_of_nil in Hc.
Qed.

Lemma team_frame acts : actions_frame acts !! "team_id" = Some (team_column acts).
Proof. reflexivity. Qed.

Section windows.

Context (acts : list Action) (df : DataFrame) (features : list string).
Context (K : nat).
Hypothesis table : actions_frame acts ⊆ df.
Hypothesis present : ∀ c, c ∈ features → is_Some (df !! c).
Hypothesis with_team : "team_id" ∈ features.
Hypothesis with_coordinates : ∀ c p, (c, p) ∈ coordinate_pitch → c ∈ features.

Lemma windows_of_actions :
  1 ≤ K →
  ∃ w w1 w2,
    create_delayed_features df features K = Some w
    ∧ add_same_team w K = Some w1
    ∧ normalized_windows df features K = Some w2
    ∧ (∀ s i a0, s < K → acts !! i = Some a0 →
         cell_at w (fname "team_id" "-" s) i
         = Some (if decide (s ≤ i)
                 then default NaN (Int ∘ team_id <$> acts !! (i - s)) else NaN))
    ∧ (∀ s i a0, 1 ≤ s < K → acts !! i = Some a0 →
         cell_at w1 (fname "team" "-" s) i
         = Some (Boolean
                   (if decide (s ≤ i)
                    then from_option
                           (λ a, bool_decide (team_id a0 = team_id a)) false
                           (acts !! (i - s))
                    else false)))
    ∧ (∀ s i a0 c get size, s < K → acts !! i = Some a0 →
         (c, get, size) ∈ coordinates →
         cell_at w (fname c "-" s) i
         = Some (if decide (s ≤ i)
                 then default NaN (Num ∘ get <$> acts !! (i - s)) else NaN))
    ∧ (∀ s i a0 c get size, 1 ≤ s < K → acts !! i = Some a0 →
         (c, get, size) ∈ coordinates →
         ∃ v, cell_at w (fname c "-" s) i = Some v
              ∧ cell_at w2 (fname c "-" s) i
                = Some (if decide (s ≤ i)
                        then from_option
                               (λ a, if bool_decide (team_id a0 = team_id a)
                                     then v else cell_sub (Num size) v)
                               v (acts !! (i - s))
                        else cell_sub (Num size) v))
    ∧ (∀ i a0 c get size, acts !! i = Some a0 → (c, get, size) ∈ coordinates →
         cell_at w2 (fname c "-" 0) i = Some (Num (get a0))).
Proof.
  intros HK.
  pose proof (lookup_weaken _ _ _ _ (team_frame acts) table) as Hteam.
  destruct (normalized_windows_lookup df features K (team_column acts))
    as (w & w1 & w2 & Hw & Hw1 & _ & Hw2 & Hw_look & Hsame & Hinv & Hzero);
    [done..|].
  assert (∀ c s col, c ∈ features → s < K → df !! c = Some col →
            w !! fname c "-" s = Some (shift (Z.of_nat s) col)) as Hw_some.
  { intros c s col ?? Hc. rewrite Hw_look, decide_True by (split; assumption).
    by rewrite Hc. }
  assert (∀ s i a0 (get : Action → cell), acts !! i = Some a0 →
            shift (Z.of_nat s) (get <$> acts) !! i
            = Some (if decide (s ≤ i)
                    then default NaN (get <$> acts !! (i - s)) else NaN))
    as Hshift.
  { intros s i a0 get Ha0.
    assert (i < length acts) by by eapply lookup_lt_Some.
    rewrite shift_lookup by by rewrite length_fmap. case_decide; [|done].
    rewrite list_lookup_fmap.
    destruct (lookup_lt_is_Some_2 acts (i - s)) as [a ->]; [lia|done]. }
  exists w, w1, w2. do 3 (split; [assumption|]). repeat split.
  - intros s i a0 Hs Ha0. unfold cell_at.
    rewrite (Hw_some _ _ (team_column acts)) by done. cbn.
    by apply (Hshift s i a0 (Int ∘ team_id)).
  - intros s i a0 Hs Ha0. unfold cell_at.
    rewrite (proj1 (Hsame s Hs)). cbn.
    rewrite (same_team_lookup _ _ _ (Int (team_id a0))
               (if decide (s ≤ i)
                then default NaN (Int ∘ team_id <$> acts !! (i - s)) else NaN)).
    + f_equal. f_equal. case_decide; [|done].
      destruct (acts !! (i - s)); [|done]. apply cell_eqb_Int.
    + unfold team_column. by rewrite list_lookup_fmap, Ha0.
    + by apply (Hshift s i a0 (Int ∘ team_id)).
  - intros s i a0 c get size Hs Ha0 Hc. unfold cell_at.
    destruct (coordinates_frame acts c get size Hc) as [Hcol Hpitch].
    rewrite (Hw_some _ _ (Num ∘ get <$> acts));
      [|by eapply with_coordinates|done|by eapply lookup_weaken].
    cbn. by apply (Hshift s i a0 (Num ∘ get)).
  - intros s i a0 c get size Hs Ha0 Hc.
    destruct (coordinates_frame acts c get size Hc) as [Hcol Hpitch].
    eexists. split.
    { unfold cell_at.
      rewrite (Hw_some _ _ (Num ∘ get <$> acts));
        [|by eapply with_coordinates|lia|by eapply lookup_weaken].
      cbn. by apply (Hshift s i a0 (Num ∘ get)). }
    unfold cell_at.
    rewrite (Hinv s c (Num size) (Num ∘ get <$> acts));
      [|done..|by eapply lookup_weaken]. cbn.
    rewrite (inverted_lookup _ _ _ _ i (Int (team_id a0))
               (if decide (s ≤ i)
                then default NaN (Int ∘ team_id <$> acts !! (i - s)) else NaN)
               (if decide (s ≤ i)
                then default NaN (Num ∘ get <$> acts !! (i - s)) else NaN)).
    + f_equal. case_decide; [|done].
      destruct (acts !! (i - s)) as [a|]; [|done]. cbn.
      by rewrite Qeq_bool_inject_Z.
    + unfold team_column. by rewrite list_lookup_fmap, Ha0.
    + by apply (Hshift s i a0 (Int ∘ team_id)).
    + by apply (Hshift s i a0 (Num ∘ get)).
  - intros i a0 c get size Ha0 Hc. unfold cell_at.
    destruct (coordinates_frame acts c get size Hc) as [Hcol Hpitch].
    rewrite (Hzero c (Num ∘ get <$> acts));
      [|by eapply with_coordinates|by eapply lookup_weaken].
    cbn. by rewrite list_lookup_fmap, Ha0.
Qed.

End windows.

(** ** Examples used as witnesses *)

Lemma demo_features_present c :
  c ∈ demo_features → is_Some (actions_frame demo !! c).
Proof.
  unfold demo_features. intros Hc.
  repeat (apply elem_of_cons in Hc as [->|Hc]; [by eexists|]).
  by apply elem_of_nil in Hc.
Defined.

Lemma demo_features_coordinates c p :
  (c, p) ∈ coordinate_pitch → c ∈ demo_features.
Proof.
  intros Hc. coordinate_cases Hc; unfold demo_features; by repeat constructor.
Defined.

(** ** Claims about the windows *)

(** C5.  For a window size [K >= 1], [create_delayed_features] returns a
    frame (it does not raise) that holds, for every requested attribute
    column and every slot [s < K], a column [<attribute>-<s>] with one row
    per action: slot 0 is the attribute column itself, and row [i] of slot
    [s] is the attribute of the action at index [i - s] when [i - s >= 0] and
    the missing sentinel otherwise. *)
Theorem create_delayed_features_windows (df : DataFrame) features K :
  1 ≤ K → (∀ c, c ∈ features → is_Some (df !! c)) →
  ∃ w, create_delayed_features df features K = Some w
    ∧ ∀ c col s, c ∈ features → df !! c = Some col → s < K →
        ∃ wc, w !! fname c "-" s = Some wc
          ∧ length wc = length col
          ∧ (s = 0 → wc = col)
          ∧ ∀ i, i < length col →
              wc !! i = if decide (s ≤ i) then col !! (i - s) else Some NaN.
Proof.
  intros HK Hcols.
  destruct (create_delayed_features_lookup df features K HK Hcols)
    as (w & Hw & Hlook).
  exists w. split; [done|]. intros c col s Hc Hcol Hs.
  exists (shift (Z.of_nat s) col).
  rewrite Hlook, decide_True, Hcol by done.
  split; [done|]. split; [apply length_shift|]. split.
  - intros ->. apply shift_0.
  - intros i Hi. by apply shift_lookup.
Qed.

Lemma create_delayed_features_windows_witness :
  ∃ w, create_delayed_features (actions_frame demo) demo_features delays = Some w
    ∧ ∀ c col s, c ∈ demo_features → actions_frame demo !! c = Some col →
        s < delays →
        ∃ wc, w !! fname c "-" s = Some wc
          ∧ length wc = length col
          ∧ (s = 0 → wc = col)
          ∧ ∀ i, i < length col →
              wc !! i = if decide (s ≤ i) then col !! (i - s) else Some NaN.
Proof.
  apply (create_delayed_features_windows (actions_frame demo) demo_features delays).
  - unfold delays. lia.
  - apply demo_features_present.
Defined.



(** C9.  Coordinate normalization preserves missingness: a slot [s >= 1]
    that reaches before the first action is the missing sentinel in every
    coordinate column, and a coordinate that is the missing sentinel before
    normalization is still the missing sentinel after it. *)
Theorem missing_slot_stays_missing acts (df : DataFrame) features K s i a0 :
  actions_frame acts ⊆ df → (∀ c, c ∈ features → is_Some (df !! c)) →
  "team_id" ∈ features → (∀ c p, (c, p) ∈ coordinate_pitch → c ∈ features) →
  1 ≤ s < K → acts !! i = Some a0 →
  ∃ w w2, create_delayed_features df features K = Some w
    ∧ normalized_windows df features K = Some w2
    ∧ ∀ c get size, (c, get, size) ∈ coordinates →
        (i < s → cell_at w (fname c "-" s) i = Some NaN)
        ∧ (cell_at w (fname c "-" s) i = Some NaN →
           cell_at w2 (fname c "-" s) i = Some NaN).
Proof.
  intros Htable Hpresent Hteam Hcoords Hs Ha0.
  destruct (windows_of_actions acts df features K Htable Hpresent Hteam Hcoords)
    as (w & w1 & w2 & Hw & _ & Hw2 & _ & _ & Hraw & Hinv & _); [lia|].
  exists w, w2. split; [done|]. split; [done|]. intros c get size Hc. split.
  - intros Hi. rewrite (Hraw s i a0 c get size) by first [assumption | lia].
    by rewrite decide_False by lia.
  - intros Hmissing.
    destruct (Hinv s i a0 c get size Hs Ha0 Hc) as (v & Hv & Hnorm).
    rewrite Hmissing in Hv. injection Hv as <-. rewrite Hnorm. f_equal.
    case_decide; [|done].
    destruct (acts !! (i - s)); [|done]. cbn. by case_bool_decide.
Qed.

Lemma missing_slot_stays_missing_witness :
  ∃ w w2, create_delayed_features (actions_frame demo) demo_features delays = Some w
    ∧ normalized_windows (actions_frame demo) demo_features delays = Some w2
    ∧ ∀ c get size, (c, get, size) ∈ coordinates →
        (1 < 2 → cell_at w (fname c "-" 2) 1 = Some NaN)
        ∧ (cell_at w (fname c "-" 2) 1 = Some NaN →
           cell_at w2 (fname c "-" 2) 1 = Some NaN).
Proof.
  apply (missing_slot_stays_missing demo (actions_frame demo) demo_features
           delays 2 1 (goal_ 2)).
  - reflexivity.
  - apply demo_features_present.
  - unfold demo_features. by repeat constructor.
  - apply demo_features_coordinates.
  - unfold delays. lia.
  - reflexivity.
Defined.



(** ** Location features *)


(** Names built from literals, such as ["start" +:+ "_x"], as literals. *)
Ltac literal_names :=
  repeat match goal with
    | |- context [String.append ?a ?b] =>
        let v := eval cbv in (String.append a b) in
        change (String.append a b) with v
    | H : context [String.append ?a ?b] |- _ =>
        let v := eval cbv in (String.append a b) in
        change (String.append a b) with v in H
    end.

Ltac side_cases H :=
  apply elem_of_cons in H as [->|H];
  [|apply elem_of_cons in H as [->|H]; [|by apply elem_of_nil in H]];
  literal_names.

Lemma add_location_features_side_located sqrt_finite step (d : DataFrame) side
    X Y SX SY EX EY :
  side ∈ ["start"; "end"] →
  d !! fname "start_x" "-" step = Some SX →
  d !! fname "start_y" "-" step = Some SY →
  d !! fname "end_x" "-" step = Some EX →
  d !! fname "end_y" "-" step = Some EY →
  d !! fname (side +:+ "_x") "-" step = Some X →
  d !! fname (side +:+ "_y") "-" step = Some Y →
  add_location_features_side sqrt_finite step d side
  = Some (located sqrt_finite step side X Y SX SY EX EY d).
Proof.
  intros Hside HSX HSY HEX HEY HX HY.
  unfold add_location_features_side, located.
  side_cases Hside;
    rewrite HX; cbn [mbind option_bind];
    rewrite ?lookup_insert_ne by name_ne; rewrite HY; cbn [mbind option_bind];
    rewrite ?lookup_insert_ne by name_ne; rewrite HX; cbn [mbind option_bind];
    rewrite ?lookup_insert_ne by name_ne; rewrite HY; cbn [mbind option_bind];
    rewrite ?lookup_insert_ne by name_ne; rewrite HEX; cbn [mbind option_bind];
    rewrite ?lookup_insert_ne by name_ne; rewrite HSX; cbn [mbind option_bind];
    rewrite ?lookup_insert_ne by name_ne; rewrite HEY; cbn [mbind option_bind];
    rewrite ?lookup_insert_ne by name_ne; rewrite HSY; reflexivity.
Qed.

Lemma located_coordinate sqrt_finite step side X Y SX SY EX EY (d : DataFrame)
    c p s :
  side ∈ ["start"; "end"] → (c, p) ∈ coordinate_pitch →
  located sqrt_finite step side X Y SX SY EX EY d !! fname c "-" s
  = d !! fname c "-" s.
Proof.
  intros Hside Hc. unfold located.
  side_cases Hside; coordinate_cases Hc;
    by rewrite !lookup_insert_ne by name_ne.
Qed.





Lemma angle_to_goal_NaN : angle_to_goal NaN NaN = NaN.
Proof. reflexivity. Qed.





(** ** Indicator columns of the action type *)

Lemma merge_on_index_disjoint (left right : DataFrame) :
  (∀ c, is_Some (left !! c) → right !! c = None) →
  merge_on_index left right = left ∪ right.
Proof.
  intros Hdisj. unfold merge_on_index, add_suffix.
  pose proof (append_suffix_inj "_x"). pose proof (append_suffix_inj "_y").
  rewrite (map_filter_id _ left).
  2:{ intros c x Hc. cbn. by rewrite Hdisj. }
  rewrite (proj2 (map_empty (filter _ left))).
  2:{ intros c. apply map_lookup_filter_None_2.
      destruct (left !! c) as [x|] eqn:Hc; [right|by left].
      intros ? _. cbn. by rewrite Hdisj. }
  rewrite (proj2 (map_empty (filter _ right))).
  2:{ intros c. apply map_lookup_filter_None_2.
      destruct (right !! c) as [x|] eqn:Hc; [right|by left].
      intros ? _ Hl. cbn in Hl. apply Hdisj in Hl. congruence. }
  rewrite (map_filter_id _ right).
  2:{ intros c x Hc Hl. cbn in Hl. apply Hdisj in Hl. congruence. }
  by rewrite !kmap_empty, !(right_id_L ∅ (∪)).
Qed.

Lemma lookup_list_to_map_graph {V} (f : string → V) (l : list string) k :
  (list_to_map ((λ v, (v, f v)) <$> l) : gmap string V) !! k
  = if decide (k ∈ l) then Some (f k) else None.
Proof.
  induction l as [|v l IH]; [done|].
  rewrite fmap_cons, list_to_map_cons.
  destruct (decide (k = v)) as [->|Hne].
  - rewrite lookup_insert_eq. by rewrite decide_True by by left.
  - rewrite lookup_insert_ne, IH by done.
    destruct (decide (k ∈ l)).
    + by rewrite decide_True by by right.
    + rewrite decide_False; [done|]. by intros [?|?]%elem_of_cons.
Qed.

Lemma categories_actions (acts : list Action) :
  categories (Str ∘ type_name <$> acts) = type_name <$> acts.
Proof.
  unfold categories. induction acts as [|a acts IH]; [done|].
  cbn. by rewrite IH.
Qed.





(** ** Elapsed match time *)

Lemma time_played_cell_offset (t : Q) (p : Z) (off : Q) :
  period_offset p = Some off →
  ∃ q, time_played_cell (Num t) (Int p) = Num q ∧ (q == t + off)%Q.
Proof.
  unfold period_offset. intros Hoff.
  repeat case_decide; simplify_eq; (eexists; split; [reflexivity|]);
    repeat match goal with
      | |- context [if ?b then _ else _] =>
          let v := eval vm_compute in b in change b with v; cbv iota
      end;
    change (inject_Z (45 * 60)) with 2700%Q;
    change (inject_Z (15 * 60)) with 900%Q; ring.
Qed.

Lemma add_time_played_lookup acts (df : DataFrame) :
  actions_frame acts ⊆ df →
  ∃ df', add_time_played df = Some df'
    ∧ ∀ i a, acts !! i = Some a →
        cell_at df' "time_played" i
        = Some (time_played_cell (Num (time_seconds a)) (Int (period_id a))).
Proof.
  intros Htable. unfold add_time_played.
  rewrite (lookup_weaken (actions_frame acts) df "time_seconds"
             (Num ∘ time_seconds <$> acts)) by done.
  rewrite (lookup_weaken (actions_frame acts) df "period_id"
             (Int ∘ period_id <$> acts)) by done.
  eexists. split; [done|]. intros i a Ha. unfold cell_at.
  rewrite lookup_insert_eq. cbn.
  by rewrite lookup_zip_with, !list_lookup_fmap, Ha.
Qed.



(** C8 as stated fails: the kick-off of the second half gets the elapsed
    time 45*60 = 2700, and an action of first-half stoppage time, with more
    than 2700 seconds on the clock of its period, gets more. *)
Lemma second_half_not_later_than_stoppage_time :
  ∃ df' q1 q2,
    add_time_played (actions_frame [stoppage_time; second_half_kick_off])
    = Some df'
    ∧ cell_at df' "time_played" 0 = Some (Num q1)
    ∧ cell_at df' "time_played" 1 = Some (Num q2)
    ∧ (q2 < q1)%Q.
Proof.
  eexists _, _, _. split; [reflexivity|]. split; [reflexivity|].
  split; [reflexivity|]. reflexivity.
Qed.

(** C8, amended.  An action of period 2 with 0 seconds on the clock of its
    period has a strictly greater elapsed match time than every action of
    period 1 whose in-period elapsed seconds are below 45*60. *)
Theorem second_half_after_regular_first_half acts (df : DataFrame) i j a b :
  actions_frame acts ⊆ df →
  acts !! i = Some a → acts !! j = Some b →
  period_id a = 1%Z → period_id b = 2%Z →
  (time_seconds b == 0)%Q → (time_seconds a < 45 * 60)%Q →
  ∃ df' qa qb, add_time_played df = Some df'
    ∧ cell_at df' "time_played" i = Some (Num qa)
    ∧ cell_at df' "time_played" j = Some (Num qb)
    ∧ (qa < qb)%Q.
Proof.
  intros Htable Ha Hb Hpa Hpb Htb Hta.
  destruct (add_time_played_lookup acts df Htable) as (df' & Hrun & Hcell).
  destruct (time_played_cell_offset (time_seconds a) (period_id a) 0)
    as (qa & Hqa & Heqa); [by rewrite Hpa|].
  destruct (time_played_cell_offset (time_seconds b) (period_id b) (45 * 60))
    as (qb & Hqb & Heqb); [by rewrite Hpb|].
  exists df', qa, qb. split; [done|].
  split; [by rewrite (Hcell i a Ha), Hqa|].
  split; [by rewrite (Hcell j b Hb), Hqb|].
  rewrite Heqa, Heqb, Htb. rewrite !Qplus_0_r, Qplus_0_l. done.
Qed.

Lemma second_half_after_regular_first_half_witness :
  ∃ df' qa qb,
    add_time_played (actions_frame [pass_ 1; second_half_kick_off]) = Some df'
    ∧ cell_at df' "time_played" 0 = Some (Num qa)
    ∧ cell_at df' "time_played" 1 = Some (Num qb)
    ∧ (qa < qb)%Q.
Proof.
  apply (second_half_after_regular_first_half
           [pass_ 1; second_half_kick_off]
           (actions_frame [pass_ 1; second_half_kick_off])
           0 1 (pass_ 1) second_half_kick_off);
    reflexivity.
Defined.

(** ** The frames of the pipeline *)

(** In [create_features_match] the frame handed to
    [create_delayed_features] holds the action table unchanged and every
    column of [features_to_delay], as long as no action-type name of the
    table is the name of one of its columns. *)
Theorem delayed_frame_of_pipeline acts :
  (∀ a, a ∈ acts → actions_frame acts !! type_name a = None) →
  ∃ d1 d2, add_action_type_dummies (actions_frame acts) = Some d1
    ∧ add_time_played d1 = Some d2
    ∧ actions_frame acts ⊆ d2
    ∧ ∀ c, c ∈ features_to_delay → is_Some (d2 !! c).
Proof.
  intros Hnames. unfold add_action_type_dummies.
  change (actions_frame acts !! "type_name")
    with (Some (Str ∘ type_name <$> acts)).
  cbn [mbind option_bind].
  rewrite merge_on_index_disjoint.
  2:{ intros c Hc. unfold get_dummies.
      rewrite lookup_list_to_map_graph, categories_actions.
      case_decide as Ht; [|done].
      apply list_elem_of_fmap in Ht as (a & -> & Ha).
      rewrite Hnames in Hc by done. by destruct Hc. }
  set (d1 := actions_frame acts ∪ get_dummies (Str ∘ type_name <$> acts)).
  assert (actions_frame acts ⊆ d1) as Hsub by apply map_union_subseteq_l.
  destruct (add_time_played_lookup acts d1 Hsub) as (d2 & Hrun & _).
  exists d1, d2. split; [done|]. split; [done|].
  unfold add_time_played in Hrun.
  rewrite (lookup_weaken (actions_frame acts) d1 "time_seconds"
             (Num ∘ time_seconds <$> acts)) in Hrun by done.
  rewrite (lookup_weaken (actions_frame acts) d1 "period_id"
             (Int ∘ period_id <$> acts)) in Hrun by done.
  cbn in Hrun. injection Hrun as <-. split.
  - by apply insert_subseteq_r.
  - intros c Hc. unfold features_to_delay in Hc.
    repeat (apply elem_of_cons in Hc as [->|Hc];
            [first [by rewrite lookup_insert_eq
                   |rewrite lookup_insert_ne by done; eexists;
                    apply (lookup_weaken (actions_frame acts));
                    [reflexivity|assumption]]|]).
    by apply elem_of_nil in Hc.
Qed.

Lemma delayed_frame_of_pipeline_witness :
  ∃ d1 d2, add_action_type_dummies (actions_frame demo) = Some d1
    ∧ add_time_played d1 = Some d2
    ∧ actions_frame demo ⊆ d2
    ∧ ∀ c, c ∈ features_to_delay → is_Some (d2 !! c).
Proof.
  apply (delayed_frame_of_pipeline demo).
  intros a Ha. unfold demo in Ha.
  repeat (apply elem_of_cons in Ha as [->|Ha]; [reflexivity|]).
  by apply elem_of_nil in Ha.
Defined.

(** ** Labels: empty tables and horizons *)

Lemma range_cons a b : a < b → range a b = a :: range (S a) b.
Proof.
  intros Hab. unfold range. destruct (b - a) as [|n] eqn:E; [lia|].
  replace (b - S a) with n by lia. done.
Qed.

Lemma future_results_empty nr_actions :
  2 ≤ nr_actions → future_results (actions_frame []) nr_actions = None.
Proof.
  intros HH. unfold future_results.
  change (actions_frame [] !! "type_name") with (Some ([] : column)).
  change (actions_frame [] !! "result_id") with (Some ([] : column)).
  change (actions_frame [] !! "team_id") with (Some ([] : column)).
  cbn [mbind option_bind]. rewrite range_cons by lia.
  rewrite for_each_cons. reflexivity.
Qed.

(** An action table without rows: for a horizon of two or more both label
    functions raise, for the last row, which the first loop reads, does not
    exist. *)
Theorem labels_of_empty_table nr_actions :
  2 ≤ nr_actions →
  label_scores (actions_frame []) nr_actions = None
  ∧ label_concedes (actions_frame []) nr_actions = None.
Proof.
  intros HH. unfold label_scores, label_concedes.
  by rewrite future_results_empty.
Qed.

Lemma labels_of_empty_table_witness :
  label_scores (actions_frame []) 10 = None
  ∧ label_concedes (actions_frame []) 10 = None.
Proof. apply (labels_of_empty_table 10). lia. Defined.

Lemma existsb_range_mono (f : nat → bool) a b b' :
  b ≤ b' → existsb f (range a b) = true → existsb f (range a b') = true.
Proof.
  intros Hb. rewrite !existsb_exists. intros (i & Hi & Hf). exists i.
  split; [|done]. apply list_elem_of_In. apply list_elem_of_In in Hi.
  unfold range in *. apply elem_of_seq. apply elem_of_seq in Hi. lia.
Qed.

(** A label that holds for a horizon of two or more actions holds for
    every longer horizon. *)
Theorem labels_monotone acts H H' :
  2 ≤ H → H ≤ H' → acts ≠ [] →
  ∃ sc sc' co co',
    label_scores (actions_frame acts) H = Some {[ "scores" := sc ]}
    ∧ label_scores (actions_frame acts) H' = Some {[ "scores" := sc' ]}
    ∧ label_concedes (actions_frame acts) H = Some {[ "concedes" := co ]}
    ∧ label_concedes (actions_frame acts) H' = Some {[ "concedes" := co' ]}
    ∧ ∀ i, (sc !! i = Some (Boolean true) → sc' !! i = Some (Boolean true))
           ∧ (co !! i = Some (Boolean true) → co' !! i = Some (Boolean true)).
Proof.
  intros HH HH' Hne.
  destruct (label_scores_table acts H HH Hne) as (sc & Hsc & Hlen & Hs).
  destruct (label_scores_table acts H' ltac:(lia) Hne) as (sc' & Hsc' & Hlen' & Hs').
  destruct (label_concedes_table acts H HH Hne) as (co & Hco & Hlenc & Hc).
  destruct (label_concedes_table acts H' ltac:(lia) Hne)
    as (co' & Hco' & Hlenc' & Hc').
  exists sc, sc', co, co'. do 4 (split; [assumption|]).
  intros i. split; intros Hi.
  - destruct (lookup_lt_is_Some_2 acts i) as [a Ha].
    { apply lookup_lt_Some in Hi. lia. }
    rewrite (Hs i a Ha) in Hi. rewrite (Hs' i a Ha).
    injection Hi as Hi. do 2 f_equal.
    apply orb_true_iff in Hi as [Hi|Hi]; apply orb_true_iff; [by left|right].
    by eapply existsb_range_mono.
  - destruct (lookup_lt_is_Some_2 acts i) as [a Ha].
    { apply lookup_lt_Some in Hi. lia. }
    rewrite (Hc i a Ha) in Hi. rewrite (Hc' i a Ha).
    injection Hi as Hi. do 2 f_equal.
    apply orb_true_iff in Hi as [Hi|Hi]; apply orb_true_iff; [by left|right].
    by eapply existsb_range_mono.
Qed.

Lemma labels_monotone_witness :
  ∃ sc sc' co co',
    label_scores (actions_frame demo) 2 = Some {[ "scores" := sc ]}
    ∧ label_scores (actions_frame demo) 10 = Some {[ "scores" := sc' ]}
    ∧ label_concedes (actions_frame demo) 2 = Some {[ "concedes" := co ]}
    ∧ label_concedes (actions_frame demo) 10 = Some {[ "concedes" := co' ]}
    ∧ ∀ i, (sc !! i = Some (Boolean true) → sc' !! i = Some (Boolean true))
           ∧ (co !! i = Some (Boolean true) → co' !! i = Some (Boolean true)).
Proof. apply (labels_monotone demo 2 10); [lia|lia|done]. Defined.

(** The labels of a row depend on the actions of its horizon only: two
    rows, of one table or of two, with the same actions in [i .. i+H-1] get
    the same labels, whatever came before and whatever comes after. *)
Theorem labels_of_the_horizon acts1 acts2 H i1 i2 :
  2 ≤ H → i1 < length acts1 →
  horizon acts1 H i1 = horizon acts2 H i2 →
  ∃ sc1 sc2 co1 co2 bs bc,
    label_scores (actions_frame acts1) H = Some {[ "scores" := sc1 ]}
    ∧ label_scores (actions_frame acts2) H = Some {[ "scores" := sc2 ]}
    ∧ label_concedes (actions_frame acts1) H = Some {[ "concedes" := co1 ]}
    ∧ label_concedes (actions_frame acts2) H = Some {[ "concedes" := co2 ]}
    ∧ sc1 !! i1 = Some (Boolean bs) ∧ sc2 !! i2 = Some (Boolean bs)
    ∧ co1 !! i1 = Some (Boolean bc) ∧ co2 !! i2 = Some (Boolean bc).
Proof.
  intros HH Hi1 Hhor.
  destruct (lookup_lt_is_Some_2 acts1 i1 Hi1) as [a Ha].
  assert (horizon acts1 H i1 !! 0 = Some a) as H0.
  { unfold horizon. rewrite lookup_take_lt by lia. rewrite lookup_drop.
    by rewrite Nat.add_0_r. }
  assert (acts2 !! i2 = Some a) as Ha2.
  { rewrite Hhor in H0. unfold horizon in H0.
    apply lookup_take_Some in H0 as [H0 _]. rewrite lookup_drop in H0.
    by rewrite Nat.add_0_r in H0. }
  assert (acts1 ≠ []) as Hne1 by (by intros ->).
  assert (acts2 ≠ []) as Hne2 by (by intros ->).
  destruct (label_scores_table acts1 H HH Hne1) as (sc1 & Hsc1 & _ & Hs1).
  destruct (label_scores_table acts2 H HH Hne2) as (sc2 & Hsc2 & _ & Hs2).
  destruct (label_concedes_table acts1 H HH Hne1) as (co1 & Hco1 & _ & Hc1).
  destruct (label_concedes_table acts2 H HH Hne2) as (co2 & Hco2 & _ & Hc2).
  exists sc1, sc2, co1, co2.
  exists (existsb (outcome id negb a) (horizon acts1 H i1)),
         (existsb (outcome negb id a) (horizon acts1 H i1)).
  do 4 (split; [assumption|]).
  rewrite (Hs1 i1 a Ha), (Hs2 i2 a Ha2), (Hc1 i1 a Ha), (Hc2 i2 a Ha2).
  rewrite <-outcome_self_scores, <-outcome_self_concedes.
  rewrite !horizon_existsb by first [assumption | lia].
  rewrite Hhor. clear. repeat split; reflexivity.
Qed.

Lemma labels_of_the_horizon_witness :
  ∃ sc1 sc2 co1 co2 bs bc,
    label_scores (actions_frame demo) 2 = Some {[ "scores" := sc1 ]}
    ∧ label_scores (actions_frame (drop 2 demo)) 2 = Some {[ "scores" := sc2 ]}
    ∧ label_concedes (actions_frame demo) 2 = Some {[ "concedes" := co1 ]}
    ∧ label_concedes (actions_frame (drop 2 demo)) 2
      = Some {[ "concedes" := co2 ]}
    ∧ sc1 !! 2 = Some (Boolean bs) ∧ sc2 !! 0 = Some (Boolean bs)
    ∧ co1 !! 2 = Some (Boolean bc) ∧ co2 !! 0 = Some (Boolean bc).
Proof.
  apply (labels_of_the_horizon demo (drop 2 demo) 2 2 0);
    [lia|simpl; lia|reflexivity].
Defined.

(** ** Elapsed match time of every period *)








(** ** Errors of the windows *)

Lemma mapM_None_head {A B} (f : A → option B) x l :
  f x = None → mapM f (x :: l) = None.
Proof. intros Hx. cbn. by rewrite Hx. Qed.

Lemma select_columns_missing (df : DataFrame) cols c :
  c ∈ cols → df !! c = None → select_columns df cols = None.
Proof.
  intros Hc Hmiss. unfold select_columns.
  assert (mapM (λ c, pair c <$> df !! c) cols = None) as ->; [|done].
  apply mapM_None. apply Exists_exists.
  exists c. split; [done|]. by rewrite Hmiss.
Qed.

(** [create_delayed_features] raises exactly when no slot is asked for,
    where [pd.concat] gets an empty list, or when a feature to delay is no
    column of the table. *)
Theorem create_delayed_features_raises (df : DataFrame) features K :
  create_delayed_features df features K = None
  ↔ K = 0 ∨ ∃ c, c ∈ features ∧ df !! c = None.
Proof.
  split.
  - intros Hnone. destruct (decide (K = 0)) as [|HK]; [by left|right].
    destruct (decide (Forall (λ c, is_Some (df !! c)) features)) as [Hall|Hex].
    + rewrite Forall_forall in Hall.
      destruct (create_delayed_features_lookup df features K) as (w & Hw & _);
        [lia|done|congruence].
    + apply not_Forall_Exists in Hex; [|apply _].
      apply Exists_exists in Hex as (c & Hc & Hmiss). exists c. split; [done|].
      by apply eq_None_not_Some.
  - intros [->|(c & Hc & Hmiss)]; [done|].
    destruct K as [|K]; [done|]. unfold create_delayed_features.
    change (range 0 (S K)) with (0 :: seq 1 K).
    rewrite mapM_None_head; [done|].
    by rewrite (select_columns_missing df features c).
Qed.

(** ** The penalty box *)

Lemma cell_gtb_Num (x y : Q) : cell_gtb (Num x) (Num y) = true ↔ (y < x)%Q.
Proof.
  unfold cell_gtb. cbn [as_number]. rewrite negb_true_iff.
  split.
  - intros Hle. apply Qnot_le_lt. intros Hxy.
    apply Qle_bool_iff in Hxy. congruence.
  - intros Hlt. destruct (Qle_bool x y) eqn:E; [|done].
    apply Qle_bool_iff in E. by apply Qle_not_lt in E.
Qed.

Lemma add_is_penalty_box_actions acts :
  add_is_penalty_box (actions_frame acts)
  = Some (<["end_is_penalty_box" :=
              penalty_box_column (Num ∘ end_x <$> acts) (Num ∘ end_y <$> acts)]>
            (<["start_is_penalty_box" :=
                 penalty_box_column (Num ∘ start_x <$> acts)
                   (Num ∘ start_y <$> acts)]> (actions_frame acts))).
Proof. reflexivity. Qed.

Lemma penalty_box_column_lookup (X Y : column) i (x y : Q) :
  X !! i = Some (Num x) → Y !! i = Some (Num y) →
  ∃ b, penalty_box_column X Y !! i = Some (Boolean b)
    ∧ (b = true ↔ (105 - (33 # 2) < x)%Q ∧ (68 - (277 # 20) < y)%Q).
Proof.
  intros HX HY. eexists. unfold penalty_box_column.
  rewrite !lookup_zip_with, !list_lookup_fmap, HX, HY.
  split; [reflexivity|].
  change (cell_sub PITCH_LENGTH (Num (33 # 2))) with (Num (105 - (33 # 2))).
  change (cell_sub PITCH_WIDTH (Num (277 # 20))) with (Num (68 - (277 # 20))).
  rewrite !andb_true_iff, !cell_gtb_Num. split; [tauto|].
  intros [Hx Hy]. split; [split; [done|]|done].
  eapply Qlt_trans; [|exact Hy]. reflexivity.
Qed.

(** The flag of the penalty box, for the start and for the end of every
    action: it is True exactly when [x > 105 - 16.5] and [y > 68 - 13.85],
    since the second and the third comparison both bound [y] from below.
    A location with [y] up to 54.15 is never flagged, whatever its [x]. *)
Theorem is_penalty_box_flags acts :
  ∃ out, add_is_penalty_box (actions_frame acts) = Some out
    ∧ ∀ side x y i a, (side, x, y) ∈ sides → acts !! i = Some a →
        ∃ b, cell_at out (side +:+ "_is_penalty_box") i = Some (Boolean b)
          ∧ (b = true ↔ (105 - (33 # 2) < x a)%Q ∧ (68 - (277 # 20) < y a)%Q)
          ∧ ((y a <= 68 - (277 # 20))%Q → b = false).
Proof.
  eexists. split; [apply add_is_penalty_box_actions|].
  intros side x y i a Hside Ha.
  cut (∃ b, cell_at
              (<["end_is_penalty_box" :=
                   penalty_box_column (Num ∘ end_x <$> acts) (Num ∘ end_y <$> acts)]>
                 (<["start_is_penalty_box" :=
                      penalty_box_column (Num ∘ start_x <$> acts)
                        (Num ∘ start_y <$> acts)]> (actions_frame acts)))
              (side +:+ "_is_penalty_box") i = Some (Boolean b)
            ∧ (b = true ↔ (105 - (33 # 2) < x a)%Q ∧ (68 - (277 # 20) < y a)%Q)).
  { intros (b & Hcell & Hb). exists b. split; [done|]. split; [done|].
    intros Hy. apply not_true_is_false. intros [_ Hlt]%Hb.
    by apply Qlt_not_le in Hlt. }
  unfold cell_at.
  apply elem_of_cons in Hside as [[= -> -> ->]|Hside];
    [|apply elem_of_cons in Hside as [[= -> -> ->]|Hside];
      [|by apply elem_of_nil in Hside]].
  - change ("start" +:+ "_is_penalty_box") with "start_is_penalty_box".
    rewrite lookup_insert_ne by done. rewrite lookup_insert_eq.
    cbn [mbind option_bind].
    apply penalty_box_column_lookup; by rewrite list_lookup_fmap, Ha.
  - change ("end" +:+ "_is_penalty_box") with "end_is_penalty_box".
    rewrite lookup_insert_eq. cbn [mbind option_bind].
    apply penalty_box_column_lookup; by rewrite list_lookup_fmap, Ha.
Qed.

(** ** The clock of an action *)










(** [nice_time] returns a string exactly for a row that has both fields,
    whose period is no string and whose time is a finite number; it raises
    for a row without time. *)
Theorem nice_time_defined (row : FrameRow) :
  is_Some (nice_time row)
  ↔ ∃ p t, row !! "period_id" = Some p ∧ row !! "time_seconds" = Some t
      ∧ is_Some (number p) ∧ is_finite (as_number t) = true.
Proof.
  unfold nice_time. split.
  - intros [s Hs].
    destruct (row !! "period_id") as [p|]; [|discriminate Hs].
    cbn [mbind option_bind] in Hs.
    destruct (number p) as [p'|] eqn:Hp; [|discriminate Hs].
    cbn [mbind option_bind] in Hs.
    destruct (row !! "time_seconds") as [t|]; [|discriminate Hs].
    cbn [mbind option_bind] in Hs.
    destruct (number t) as [t'|] eqn:Ht; [|discriminate Hs].
    cbn [mbind option_bind] in Hs.
    assert (t' = t) as -> by (unfold number in Ht; destruct t; congruence).
    exists p, t. do 2 (split; [reflexivity|]). split; [by eexists|].
    destruct (as_number t) as [| |q| |] eqn:Hq; [| |reflexivity| |];
      (unfold cell_mod in Hs; rewrite Hq in Hs;
       change (int NaN) with (@None Z) in Hs;
       by destruct (int _) in Hs).
  - intros (p & t & -> & -> & [p' Hp] & Hfinite). cbn [mbind option_bind].
    rewrite Hp. cbn [mbind option_bind].
    destruct (as_number t) as [| |q| |] eqn:Hq; try discriminate Hfinite.
    assert (number t = Some t) as ->
      by (destruct t; try reflexivity; discriminate Hq).
    cbn [mbind option_bind].
    unfold cell_floordiv, cell_mod. rewrite Hq.
    match goal with
    | |- context [int (cell_add ?c (Num ?x))] =>
        assert (∃ y, cell_add c (Num x) = Num y) as [y ->]
    end.
    { unfold cell_add, cell_mul. cbn [as_number].
      repeat match goal with
        | |- context [if ?b then _ else _] => destruct b
        end; eauto. }
    cbn. eauto.
Qed.

(** ** Names of actions and the rows plotted *)

Lemma split_head sep (s1 s2 : string) :
  has_char sep s1 = false →
  head (split sep (s1 +:+ String sep s2)) = Some s1.
Proof.
  induction s1 as [|a s1 IH]; intros Hs1.
  - change ("" +:+ String sep s2) with (String sep s2). cbn [split].
    by rewrite Ascii.eqb_refl.
  - cbn in Hs1. apply orb_false_iff in Hs1 as [Ha Hs1].
    rewrite append_cons. cbn [split].
    rewrite Ascii.eqb_sym, Ha.
    specialize (IH Hs1).
    destruct (split sep (s1 +:+ String sep s2)) as [|seg segs]; [done|].
    cbn in IH. by simplify_eq.
Qed.

Lemma pretty_N_chars a (n : N) :
  has_char a (pretty n) = true → is_digit a = true.
Proof.
  unfold pretty, pretty_N. case_decide.
  - simpl. rewrite orb_false_r. intros ->%Ascii.eqb_eq. done.
  - intros [?|?]%pretty_N_go_chars; done.
Qed.

Lemma pretty_Z_chars a (z : Z) :
  has_char a (pretty z) = true → is_digit a = true ∨ a = "-"%char.
Proof.
  unfold pretty, pretty_Z. destruct z as [|p|p].
  - simpl. rewrite orb_false_r. intros ->%Ascii.eqb_eq. by left.
  - intros ?%pretty_N_chars. by left.
  - rewrite has_char_app. intros [Hc|Hc]%orb_true_iff.
    + simpl in Hc. rewrite orb_false_r in Hc. apply Ascii.eqb_eq in Hc. by right.
    + apply pretty_N_chars in Hc. by left.
Qed.

Lemma is_digit_not_space a : is_digit a = true → is_space a = false.
Proof.
  unfold is_digit. cbn. rewrite !orb_false_r, !orb_true_iff.
  intros Ha. repeat destruct Ha as [Ha|Ha];
    apply Ascii.eqb_eq in Ha; by subst.
Qed.

Lemma strip_no_space (s : string) :
  (∀ a, has_char a s = true → is_space a = false) → rstrip (lstrip s) = s.
Proof.
  intros Hs. assert (lstrip s = s) as ->.
  { destruct s as [|a s]; [done|]. cbn.
    rewrite Hs; [done|]. cbn. by rewrite Ascii.eqb_refl. }
  induction s as [|a s IH]; [done|]. cbn.
  rewrite IH.
  - destruct s; [|done]. rewrite Hs; [done|]. cbn. by rewrite Ascii.eqb_refl.
  - intros b Hb. apply Hs. cbn. by rewrite Hb, orb_true_r.
Qed.

Lemma digit_value_pretty (d : N) :
  (d < 10)%N → digit_value (pretty_N_char d) = Some d.
Proof.
  intros Hd. destruct d as [|p]; [done|].
  do 4 (try destruct p as [p|p|]); try done; exfalso; lia.
Qed.

Lemma decimal_pretty_go (x : N) (s : string) :
  decimal 0 false (pretty_N_go x s)
  = if decide (x = 0)%N then decimal 0 false s else decimal x true s.
Proof.
  revert s. induction (N.lt_wf_0 x) as [x _ IH]; intros s.
  case_decide as Hx; [subst; by rewrite pretty_N_go_0|].
  rewrite pretty_N_go_step by lia.
  rewrite IH by (apply N.div_lt; lia).
  pose proof (N.mod_upper_bound x 10 ltac:(done)) as Hmod.
  pose proof (N.div_mod x 10 ltac:(done)) as Hdiv.
  case_decide as Hq; cbn [decimal]; rewrite digit_value_pretty by done;
    f_equal; lia.
Qed.

Lemma decimal_pretty (n : N) : decimal 0 false (pretty n) = Some n.
Proof.
  unfold pretty, pretty_N. case_decide as Hn; [by subst|].
  rewrite decimal_pretty_go. by rewrite decide_False.
Qed.

Lemma pretty_N_head (n : N) :
  ∃ a r, pretty n = String a r ∧ is_digit a = true.
Proof.
  destruct (pretty n) as [|a r] eqn:E.
  - pose proof (decimal_pretty n) as Hd. by rewrite E in Hd.
  - exists a, r. split; [done|]. apply (pretty_N_chars a n).
    rewrite E. cbn. by rewrite Ascii.eqb_refl.
Qed.

Lemma is_digit_not_sign a :
  is_digit a = true → Ascii.eqb a "+" = false ∧ Ascii.eqb a "-" = false.
Proof.
  unfold is_digit. cbn. rewrite !orb_false_r, !orb_true_iff.
  intros Ha. repeat destruct Ha as [Ha|Ha];
    apply Ascii.eqb_eq in Ha; by subst.
Qed.

Lemma int_str_pretty (z : Z) : int_str (pretty z) = Some z.
Proof.
  unfold int_str. rewrite strip_no_space.
  2:{ intros a [Ha| ->]%pretty_Z_chars; [by apply is_digit_not_space|done]. }
  destruct z as [|p|p]; [done| |].
  - change (pretty (Z.pos p)) with (pretty (N.pos p)).
    destruct (pretty_N_head (N.pos p)) as (a & r & Hp & Ha).
    rewrite Hp. destruct (is_digit_not_sign a Ha) as [-> ->].
    rewrite <-Hp, decimal_pretty. done.
  - change (pretty (Z.neg p)) with (String "-" (pretty (N.pos p))).
    cbn [Ascii.eqb Bool.eqb]. rewrite decimal_pretty. done.
Qed.

Lemma action_id_of_action_name (a : Z) (nt sn tn : string) :
  head (split ":" (action_name a nt sn tn)) ≫= int_str = Some a.
Proof.
  unfold action_name.
  change (": " +:+ nt +:+ " - " +:+ sn +:+ " " +:+ tn)
    with (String ":" (" " +:+ nt +:+ " - " +:+ sn +:+ " " +:+ tn)).
  rewrite split_head.
  - cbn [mbind option_bind]. apply int_str_pretty.
  - destruct (has_char ":" (pretty a)) eqn:E; [|done].
    apply pretty_Z_chars in E as [E|E]; done.
Qed.



(** The number of an action is read back from its name: the part of
    [action_name(row)] before the first colon converts to
    [row['action_id']], whatever the three strings that follow are. *)
Theorem action_name_round_trip (a : Z) (nt sn tn : string) :
  head (split ":" (action_name a nt sn tn)) ≫= int_str = Some a.
Proof. apply action_id_of_action_name. Qed.





(** ** The table of features, column by column *)

Ltac list_cases H :=
  repeat (apply elem_of_cons in H as [H|H]; [try injection H as -> ->; subst|]);
  [..|by apply elem_of_nil in H].

Lemma add_location_features_columns sqrt_finite (df : DataFrame) delays :
  (∀ s c p, s < delays → (c, p) ∈ coordinate_pitch →
            is_Some (df !! fname c "-" s)) →
  ∃ out, add_location_features sqrt_finite df delays = Some out
    ∧ (∀ s SX SY EX EY n col, s < delays →
         df !! fname "start_x" "-" s = Some SX →
         df !! fname "start_y" "-" s = Some SY →
         df !! fname "end_x" "-" s = Some EX →
         df !! fname "end_y" "-" s = Some EY →
         (n, col) ∈ location_features sqrt_finite SX SY EX EY →
         out !! fname n "-" s = Some col)
    ∧ (∀ k, (∀ s n, s < delays → n ∈ location_names → k ≠ fname n "-" s) →
            out !! k = df !! k).
Proof.
  intros Hcols. unfold add_location_features.
  destruct (for_each_invariant
    (λ pre d,
       (∀ s SX SY EX EY n col, s ∈ pre →
          df !! fname "start_x" "-" s = Some SX →
          df !! fname "start_y" "-" s = Some SY →
          df !! fname "end_x" "-" s = Some EX →
          df !! fname "end_y" "-" s = Some EY →
          (n, col) ∈ location_features sqrt_finite SX SY EX EY →
          d !! fname n "-" s = Some col)
       ∧ (∀ k, (∀ s n, s ∈ pre → n ∈ location_names → k ≠ fname n "-" s) →
               d !! k = df !! k))
    (range 0 delays) df
    (λ df step, for_each ["start"; "end"] df
                  (add_location_features_side sqrt_finite step)))
    as (out & Hrun & Hnew & Hother).
  - split; [by intros ??????? ?%elem_of_nil|done].
  - intros pre x suf d Hl [Hnew Hother].
    destruct (range_split _ _ _ _ _ Hl) as [Hx Hfresh].
    destruct (Hcols x "start_x" PITCH_LENGTH) as [SX HSX];
      [lia|coordinate_elem|].
    destruct (Hcols x "start_y" PITCH_WIDTH) as [SY HSY];
      [lia|coordinate_elem|].
    destruct (Hcols x "end_x" PITCH_LENGTH) as [EX HEX]; [lia|coordinate_elem|].
    destruct (Hcols x "end_y" PITCH_WIDTH) as [EY HEY]; [lia|coordinate_elem|].
    assert (∀ c p s, (c, p) ∈ coordinate_pitch →
              d !! fname c "-" s = df !! fname c "-" s) as Hcoord.
    { intros c p s Hc. apply Hother. intros s' n _ Hn.
      unfold location_names in Hn. coordinate_cases Hc; list_cases Hn; name_ne. }
    assert (d !! fname "start_x" "-" x = Some SX) as Hd_sx
      by (by rewrite (Hcoord "start_x" PITCH_LENGTH) by coordinate_elem).
    assert (d !! fname "start_y" "-" x = Some SY) as Hd_sy
      by (by rewrite (Hcoord "start_y" PITCH_WIDTH) by coordinate_elem).
    assert (d !! fname "end_x" "-" x = Some EX) as Hd_ex
      by (by rewrite (Hcoord "end_x" PITCH_LENGTH) by coordinate_elem).
    assert (d !! fname "end_y" "-" x = Some EY) as Hd_ey
      by (by rewrite (Hcoord "end_y" PITCH_WIDTH) by coordinate_elem).
    assert ("start" ∈ ["start"; "end"]) as Hstart by by left.
    assert ("end" ∈ ["start"; "end"]) as Hend by (right; by left).
    cbn [for_each].
    rewrite (add_location_features_side_located sqrt_finite x d "start"
               SX SY SX SY EX EY Hstart Hd_sx Hd_sy Hd_ex Hd_ey Hd_sx Hd_sy).
    cbn [mbind option_bind].
    assert (∀ c p col, (c, p) ∈ coordinate_pitch →
              d !! fname c "-" x = Some col →
              located sqrt_finite x "start" SX SY SX SY EX EY d !! fname c "-" x
              = Some col) as Hd1.
    { intros c p col Hc Hcol. by rewrite (located_coordinate _ _ _ _ _ _ _ _ _ _ c p). }
    rewrite (add_location_features_side_located sqrt_finite x _ "end"
               EX EY SX SY EX EY Hend
               (Hd1 "start_x" PITCH_LENGTH SX ltac:(coordinate_elem) Hd_sx)
               (Hd1 "start_y" PITCH_WIDTH SY ltac:(coordinate_elem) Hd_sy)
               (Hd1 "end_x" PITCH_LENGTH EX ltac:(coordinate_elem) Hd_ex)
               (Hd1 "end_y" PITCH_WIDTH EY ltac:(coordinate_elem) Hd_ey)
               (Hd1 "end_x" PITCH_LENGTH EX ltac:(coordinate_elem) Hd_ex)
               (Hd1 "end_y" PITCH_WIDTH EY ltac:(coordinate_elem) Hd_ey)).
    cbn [mbind option_bind]. eexists. split; [done|].
    unfold located. literal_names. split.
    + intros s SX' SY' EX' EY' n col
        [Hs| ->%list_elem_of_singleton]%elem_of_app HSX' HSY' HEX' HEY' Hn.
      * destruct (range_split_pre _ _ _ _ _ _ Hl Hs).
        rewrite !lookup_insert_ne by name_ne. by eapply Hnew.
      * simplify_eq. unfold location_features in Hn. list_cases Hn.
        all: repeat first [rewrite lookup_insert_eq
                          |rewrite lookup_insert_ne by name_ne].
        all: reflexivity.
    + intros k Hk.
      assert (∀ n, n ∈ location_names → k ≠ fname n "-" x) as Hkx.
      { intros n Hn. apply (Hk x n); [|done].
        apply elem_of_app. right. by left. }
      rewrite !lookup_insert_ne
        by (apply not_eq_sym, Hkx; unfold location_names; by repeat constructor).
      apply Hother. intros s n Hs. apply Hk, elem_of_app. by left.
  - exists out. split; [done|]. split.
    + intros s SX SY EX EY n col Hs. apply Hnew, elem_of_seq. lia.
    + intros k Hk. apply Hother. intros s n Hs%elem_of_range. apply Hk. lia.
Qed.

Lemma lookup_union_list_is_Some (l : list DataFrame) k :
  is_Some ((⋃ l) !! k) → ∃ m, m ∈ l ∧ is_Some (m !! k).
Proof.
  induction l as [|m l IH]; [by intros [? ?]|].
  change (⋃ (m :: l)) with (m ∪ ⋃ l).
  intros [Hm|Hl]%lookup_union_is_Some.
  - exists m. split; [by left|done].
  - destruct (IH Hl) as (m' & Hm' & Hk). exists m'. split; [by right|done].
Qed.

Lemma create_delayed_features_keys (df : DataFrame) features delays w k :
  create_delayed_features df features delays = Some w →
  is_Some (w !! k) →
  ∃ c s, k = fname c "-" s ∧ c ∈ features ∧ s < delays.
Proof.
  unfold create_delayed_features. intros Hw Hk.
  destruct (select_columns df features) as [sel|] eqn:Hsel.
  2:{ destruct delays as [|n]; [done|].
      change (range 0 (S n)) with (0 :: seq 1 n) in Hw. by cbn in Hw. }
  rewrite (mapM_total _ (λ t, add_suffix (String "-" (pretty t))
                               (shift (Z.of_nat t) <$> sel))) in Hw by done.
  cbn [mbind option_bind] in Hw.
  destruct (decide (delays = 0)) as [->|Hd]; [done|].
  rewrite concat_columns_nonempty in Hw
    by (intros ?%fmap_nil_inv; eapply range_nonempty; [|done]; lia).
  injection Hw as <-.
  apply lookup_union_list_is_Some in Hk as (m' & Hm' & Hk).
  apply list_elem_of_fmap in Hm' as (t & -> & Ht%elem_of_range).
  destruct Hk as [col Hcol]. unfold add_suffix in Hcol.
  pose proof (append_suffix_inj (String "-" (pretty t))) as Hinj.
  apply (lookup_kmap_Some _) in Hcol as (c & -> & Hc).
  exists c, t. split; [done|]. split; [|lia].
  rewrite lookup_fmap in Hc. destruct (sel !! c) as [v|] eqn:Hv; [|done].
  unfold select_columns in Hsel.
  destruct (mapM _ features) as [pairs|] eqn:Hpairs; [|done].
  injection Hsel as <-. apply elem_of_list_to_map_2 in Hv.
  apply mapM_Some in Hpairs.
  apply list_elem_of_lookup in Hv as [j Hj].
  destruct (Forall2_lookup_r _ _ _ _ _ Hpairs Hj) as (c' & Hc' & Hpair).
  destruct (df !! c'); [|done]. cbn in Hpair. simplify_eq.
  by apply list_elem_of_lookup_2 in Hc'.
Qed.

Lemma add_sequence_pre_features_columns (df : DataFrame) K SX0 SY0 T0 SXd SYd Td :
  1 ≤ K →
  df !! "start_x-0" = Some SX0 → df !! "start_y-0" = Some SY0 →
  df !! "time_played-0" = Some T0 →
  df !! fname "start_x" "-" (K - 1) = Some SXd →
  df !! fname "start_y" "-" (K - 1) = Some SYd →
  df !! fname "time_played" "-" (K - 1) = Some Td →
  add_sequence_pre_features df K
  = Some (<["time_sequence_pre" := zip_with cell_sub T0 Td]>
            (<["ydiff_sequence_pre" := zip_with cell_sub SY0 SYd]>
               (<["xdiff_sequence_pre" := zip_with cell_sub SX0 SXd]> df))).
Proof.
  intros HK HSX0 HSY0 HT0 HSXd HSYd HTd.
  destruct K as [|delay]; [lia|]. replace (S delay - 1) with delay in * by lia.
  unfold add_sequence_pre_features.
  rewrite HSX0, HSXd. cbn [mbind option_bind].
  rewrite !lookup_insert_ne by (done || by apply not_eq_sym, fname_ne_plain).
  rewrite HSY0, HSYd. cbn [mbind option_bind].
  rewrite !lookup_insert_ne by (done || by apply not_eq_sym, fname_ne_plain).
  by rewrite HT0, HTd.
Qed.

Lemma add_sequence_post_features_columns (df : DataFrame) K EX0 EY0 SXd SYd :
  1 ≤ K →
  df !! "end_x-0" = Some EX0 → df !! "end_y-0" = Some EY0 →
  df !! fname "start_x" "-" (K - 1) = Some SXd →
  df !! fname "start_y" "-" (K - 1) = Some SYd →
  add_sequence_post_features df K
  = Some (<["ydiff_sequence_post" := zip_with cell_sub EY0 SYd]>
            (<["xdiff_sequence_post" := zip_with cell_sub EX0 SXd]> df)).
Proof.
  intros HK HEX0 HEY0 HSXd HSYd.
  destruct K as [|delay]; [lia|]. replace (S delay - 1) with delay in * by lia.
  unfold add_sequence_post_features.
  rewrite HEX0, HSXd. cbn [mbind option_bind].
  rewrite !lookup_insert_ne by (done || by apply not_eq_sym, fname_ne_plain).
  by rewrite HEY0, HSYd.
Qed.

(** The frame [create_features_match] hands to [create_delayed_features]. *)
Lemma pipeline_frame acts :
  (∀ a, a ∈ acts → actions_frame acts !! type_name a = None) →
  ∃ d1 d2, add_action_type_dummies (actions_frame acts) = Some d1
    ∧ add_time_played d1 = Some d2
    ∧ actions_frame acts ⊆ d2
    ∧ d2 !! "time_played" = Some (time_played_column acts)
    ∧ ∀ c, c ∈ features_to_delay →
        ∃ col, d2 !! c = Some col ∧ length col = length acts.
Proof.
  intros Hnames. unfold add_action_type_dummies.
  change (actions_frame acts !! "type_name")
    with (Some (Str ∘ type_name <$> acts)).
  cbn [mbind option_bind].
  rewrite merge_on_index_disjoint.
  2:{ intros c Hc. unfold get_dummies.
      rewrite lookup_list_to_map_graph, categories_actions.
      case_decide as Ht; [|done].
      apply list_elem_of_fmap in Ht as (a & -> & Ha).
      rewrite Hnames in Hc by done. by destruct Hc. }
  set (d1 := actions_frame acts ∪ get_dummies (Str ∘ type_name <$> acts)).
  assert (actions_frame acts ⊆ d1) as Hsub by apply map_union_subseteq_l.
  exists d1. unfold add_time_played.
  rewrite (lookup_weaken (actions_frame acts) d1 "time_seconds"
             (Num ∘ time_seconds <$> acts)) by done.
  rewrite (lookup_weaken (actions_frame acts) d1 "period_id"
             (Int ∘ period_id <$> acts)) by done.
  cbn [mbind option_bind]. eexists. split; [done|]. split; [done|].
  assert (zip_with
            (λ t p,
               cell_add
                 (cell_add
                    (cell_add t
                       (cell_mul (Boolean (cell_geb p (Int 2))) (Int (45 * 60))))
                    (cell_mul (Boolean (cell_geb p (Int 3))) (Int (15 * 60))))
                 (cell_mul (Boolean (cell_eqb p (Int 4))) (Int (15 * 60))))
            (Num ∘ time_seconds <$> acts) (Int ∘ period_id <$> acts)
          = time_played_column acts) as ->.
  { unfold time_played_column. clear. induction acts as [|a acts IH]; [done|].
    cbn [fmap list_fmap zip_with]. by rewrite <-IH. }
  split; [by apply insert_subseteq_r|].
  split; [by rewrite lookup_insert_eq|].
  intros c Hc.
  destruct (decide (c = "time_played")) as [->|Hne].
  { rewrite lookup_insert_eq. eexists. split; [done|].
    unfold time_played_column. by rewrite length_fmap. }
  rewrite lookup_insert_ne by done.
  assert (∃ f : Action → cell, actions_frame acts !! c = Some (f <$> acts))
    as [f Hf].
  { unfold features_to_delay in Hc.
    repeat (apply elem_of_cons in Hc as [->|Hc];
            [first [exfalso; apply Hne; reflexivity|eexists; reflexivity]|]).
    apply elem_of_nil in Hc. destruct Hc. }
  exists (f <$> acts). split; [by eapply lookup_weaken|].
  by rewrite length_fmap.
Qed.

Lemma normalized_windows_frame (df : DataFrame) features K team :
  1 ≤ K → (∀ c, c ∈ features → is_Some (df !! c)) →
  "team_id" ∈ features → (∀ c p, (c, p) ∈ coordinate_pitch → c ∈ features) →
  df !! "team_id" = Some team →
  ∃ w w1 w2,
    create_delayed_features df features K = Some w
    ∧ add_same_team w K = Some w1
    ∧ invert_coordinates w1 K = Some w2
    ∧ normalized_windows df features K = Some w2
    ∧ (∀ c s, w !! fname c "-" s
              = if decide (c ∈ features ∧ s < K)
                then shift (Z.of_nat s) <$> df !! c else None)
    ∧ (∀ s, 1 ≤ s < K →
            w2 !! fname "team" "-" s
            = Some (same_team team (shift (Z.of_nat s) team)))
    ∧ (∀ s c p old, 1 ≤ s < K → (c, p) ∈ coordinate_pitch →
         df !! c = Some old →
         w2 !! fname c "-" s
         = Some (inverted p (same_team team (shift (Z.of_nat s) team))
                   (shift (Z.of_nat s) old)))
    ∧ (∀ k, (∀ s, 1 ≤ s < K → k ≠ fname "team" "-" s) →
            (∀ s c p, 1 ≤ s < K → (c, p) ∈ coordinate_pitch →
                      k ≠ fname c "-" s) →
            w2 !! k = w !! k)
    ∧ (∀ k, is_Some (w2 !! k) →
            is_Some (w !! k) ∨ ∃ s, 1 ≤ s < K ∧ k = fname "team" "-" s).
Proof.
  intros HK Hcols Hteam Hcoords Hdf_team.
  destruct (normalized_windows_lookup df features K team)
    as (w & w1 & w2 & Hw & Hw1 & Hw2 & Hnw & Hw_look & Hsame & Hinv & Hzero);
    [done..|].
  assert (∀ c s col, c ∈ features → s < K → df !! c = Some col →
            w !! fname c "-" s = Some (shift (Z.of_nat s) col)) as Hw_some.
  { intros c s col ?? Hc. rewrite Hw_look, decide_True by (split; assumption).
    by rewrite Hc. }
  destruct (add_same_team_lookup w K team) as (w1' & Hw1' & _ & Hw1_other).
  { change "team_id-0" with (fname "team_id" "-" 0).
    rewrite (Hw_some _ _ team) by first [assumption | lia]. by rewrite shift_0. }
  { intros s Hs. destruct (Hcols "team_id" Hteam) as [col Hcol].
    rewrite (Hw_some _ _ col) by first [assumption | lia]. done. }
  assert (w1' = w1) as -> by congruence.
  assert (∀ c p s, (c, p) ∈ coordinate_pitch →
            w1 !! fname c "-" s = w !! fname c "-" s) as Hw1_coord.
  { intros c p s Hc. apply Hw1_other. intros s' _.
    coordinate_cases Hc; name_ne. }
  destruct (invert_coordinates_lookup w1 K) as (w2' & Hw2' & _ & Hw2_other).
  { intros s Hs. split; [by rewrite (proj1 (Hsame s Hs))|]. intros c p Hc.
    rewrite (Hw1_coord c p s Hc).
    destruct (Hcols c (Hcoords c p Hc)) as [col Hcol].
    rewrite (Hw_some c s col (Hcoords c p Hc) ltac:(lia) Hcol). done. }
  assert (w2' = w2) as -> by congruence.
  exists w, w1, w2. do 5 (split; [assumption|]).
  split; [intros s Hs; apply (Hsame s Hs)|]. split; [assumption|]. split.
  - intros k Hteam_k Hcoord_k. rewrite Hw2_other by assumption.
    by apply Hw1_other.
  - intros k Hk.
    destruct (decide (k ∈ fname "team" "-" <$> range 1 K)) as [Hin|Hout].
    { right. apply list_elem_of_fmap in Hin as (s & -> & Hs%elem_of_range).
      by exists s. }
    left.
    assert (∀ s, 1 ≤ s < K → k ≠ fname "team" "-" s) as Hteam_k.
    { intros s Hs ->. apply Hout, list_elem_of_fmap. exists s.
      split; [done|]. unfold range. apply elem_of_seq. lia. }
    destruct (decide (k ∈ range 1 K ≫= λ s, (λ cp, fname cp.1 "-" s)
                                              <$> coordinate_pitch))
      as [Hin|Hout'].
    { apply list_elem_of_bind in Hin as (s & Hin & Hs%elem_of_range).
      apply list_elem_of_fmap in Hin as ([c p] & -> & Hc). cbn.
      destruct (Hcols c (Hcoords c p Hc)) as [col Hcol].
      rewrite (Hw_some c s col (Hcoords c p Hc) ltac:(lia) Hcol). done. }
    rewrite <-Hw1_other by done. rewrite <-Hw2_other; [done|].
    intros s c p Hs Hc ->. apply Hout', list_elem_of_bind. exists s.
    split; [|unfold range; apply elem_of_seq; lia].
    apply list_elem_of_fmap. by exists (c, p).
Qed.

Ltac not_in_literals H :=
  repeat (apply elem_of_cons in H as [H|H]; [discriminate H|]);
  by apply elem_of_nil in H.

Ltac slot_ne :=
  let H := fresh in
  let H1 := fresh in
  let H2 := fresh in
  intros H; apply (fname_inj "-" _ _ _ _ minus_not_digit) in H;
  destruct H as [H1 H2]; first [discriminate H1 | lia].

Lemma features_to_delay_coordinates c p :
  (c, p) ∈ coordinate_pitch → c ∈ features_to_delay.
Proof.
  intros Hc. unfold features_to_delay.
  coordinate_cases Hc; by repeat first [left | right].
Qed.

Lemma features_of_windows sqrt_finite (d2 : DataFrame) K team :
  1 ≤ K → (∀ c, c ∈ features_to_delay → is_Some (d2 !! c)) →
  d2 !! "team_id" = Some team →
  ∃ w w2 out,
    features_of_frame sqrt_finite d2 features_to_delay K = Some out
    ∧ create_delayed_features d2 features_to_delay K = Some w
    ∧ normalized_windows d2 features_to_delay K = Some w2
    ∧ (∀ k, (∀ s n, s < K → n ∈ location_names → k ≠ fname n "-" s) →
            k ∉ sequence_names → out !! k = w2 !! k)
    ∧ (∀ s SX SY EX EY n col, s < K →
         w2 !! fname "start_x" "-" s = Some SX →
         w2 !! fname "start_y" "-" s = Some SY →
         w2 !! fname "end_x" "-" s = Some EX →
         w2 !! fname "end_y" "-" s = Some EY →
         (n, col) ∈ location_features sqrt_finite SX SY EX EY →
         out !! fname n "-" s = Some col)
    ∧ (∀ SX0 SY0 EX0 EY0 T0 SXd SYd Td,
         w2 !! fname "start_x" "-" 0 = Some SX0 →
         w2 !! fname "start_y" "-" 0 = Some SY0 →
         w2 !! fname "end_x" "-" 0 = Some EX0 →
         w2 !! fname "end_y" "-" 0 = Some EY0 →
         w2 !! fname "time_played" "-" 0 = Some T0 →
         w2 !! fname "start_x" "-" (K - 1) = Some SXd →
         w2 !! fname "start_y" "-" (K - 1) = Some SYd →
         w2 !! fname "time_played" "-" (K - 1) = Some Td →
         out !! "xdiff_sequence_pre" = Some (zip_with cell_sub SX0 SXd)
         ∧ out !! "ydiff_sequence_pre" = Some (zip_with cell_sub SY0 SYd)
         ∧ out !! "time_sequence_pre" = Some (zip_with cell_sub T0 Td)
         ∧ out !! "xdiff_sequence_post" = Some (zip_with cell_sub EX0 SXd)
         ∧ out !! "ydiff_sequence_post" = Some (zip_with cell_sub EY0 SYd)).
Proof.
  intros HK Hpresent Hd2_team.
  destruct (normalized_windows_frame d2 features_to_delay K team)
    as (w & w1 & w2 & Hw & Hw1 & Hw2 & Hnw & Hw_look & Hteam & Hinv & Hw2_other
        & Hw2_keys);
    [done|done|by repeat first [left | right]|apply features_to_delay_coordinates
    |done|].
  assert (∀ c s col, c ∈ features_to_delay → s < K → d2 !! c = Some col →
            w !! fname c "-" s = Some (shift (Z.of_nat s) col)) as Hw_some.
  { intros c s col ?? Hc. rewrite Hw_look, decide_True by (split; assumption).
    by rewrite Hc. }
  assert (∀ s c p, s < K → (c, p) ∈ coordinate_pitch →
            is_Some (w2 !! fname c "-" s)) as Hw2_coord.
  { intros s c p Hs Hc.
    destruct (Hpresent c (features_to_delay_coordinates c p Hc)) as [col Hcol].
    destruct (decide (s = 0)) as [->|Hs0].
    - rewrite Hw2_other; [|intros ??; slot_ne|intros ?????; slot_ne].
      rewrite (Hw_some c 0 col); [done|by eapply features_to_delay_coordinates
                                  |lia|done].
    - rewrite (Hinv s c p col) by first [assumption | lia]. done. }
  destruct (add_location_features_columns sqrt_finite w2 K Hw2_coord)
    as (out3 & Hout3 & Hnew & Hother).
  assert (∀ c s, (∀ n, n ∈ location_names → c ≠ n) →
            out3 !! fname c "-" s = w2 !! fname c "-" s) as Hout3_plain.
  { intros c s Hc. apply Hother. intros s' n _ Hn Heq.
    apply (fname_inj "-" _ _ _ _ minus_not_digit) in Heq as [-> _].
    by eapply Hc. }
  assert (∀ c p s, (c, p) ∈ coordinate_pitch →
            out3 !! fname c "-" s = w2 !! fname c "-" s) as Hout3_coord.
  { intros c p s Hc. apply Hout3_plain. intros n Hn ->.
    unfold location_names in Hn. coordinate_cases Hc; not_in_literals Hn. }
  assert (∀ s, out3 !! fname "time_played" "-" s
               = w2 !! fname "time_played" "-" s) as Hout3_time.
  { intros s. apply Hout3_plain. intros n Hn <-.
    unfold location_names in Hn. not_in_literals Hn. }
  assert (∀ s, s < K → is_Some (w2 !! fname "time_played" "-" s)) as Hw2_time.
  { intros s Hs.
    destruct (Hpresent "time_played") as [T HT]; [by repeat first [left | right]|].
    rewrite Hw2_other; [|intros ??; slot_ne
                        |intros ? c p ? Hc; coordinate_cases Hc; slot_ne].
    rewrite (Hw_some "time_played" s T);
      [done|by repeat first [left | right]|done..]. }
  destruct (Hw2_coord 0 "start_x" PITCH_LENGTH) as [SX0 HSX0];
    [lia|coordinate_elem|].
  destruct (Hw2_coord 0 "start_y" PITCH_WIDTH) as [SY0 HSY0];
    [lia|coordinate_elem|].
  destruct (Hw2_coord 0 "end_x" PITCH_LENGTH) as [EX0 HEX0];
    [lia|coordinate_elem|].
  destruct (Hw2_coord 0 "end_y" PITCH_WIDTH) as [EY0 HEY0];
    [lia|coordinate_elem|].
  destruct (Hw2_time 0) as [T0 HT0]; [lia|].
  destruct (Hw2_coord (K - 1) "start_x" PITCH_LENGTH) as [SXd HSXd];
    [lia|coordinate_elem|].
  destruct (Hw2_coord (K - 1) "start_y" PITCH_WIDTH) as [SYd HSYd];
    [lia|coordinate_elem|].
  destruct (Hw2_time (K - 1)) as [Td HTd]; [lia|].
  exists w, w2. eexists. split.
  { unfold features_of_frame. rewrite Hw. cbn [mbind option_bind].
    rewrite Hw1. cbn [mbind option_bind]. rewrite Hw2. cbn [mbind option_bind].
    rewrite Hout3. cbn [mbind option_bind].
    rewrite (add_sequence_pre_features_columns out3 K SX0 SY0 T0 SXd SYd Td);
      [|done|..].
    - cbn [mbind option_bind].
      apply (add_sequence_post_features_columns _ K EX0 EY0 SXd SYd); [done|..].
      + rewrite !lookup_insert_ne by done.
        change "end_x-0" with (fname "end_x" "-" 0).
        by rewrite (Hout3_coord _ PITCH_LENGTH) by coordinate_elem.
      + rewrite !lookup_insert_ne by done.
        change "end_y-0" with (fname "end_y" "-" 0).
        by rewrite (Hout3_coord _ PITCH_WIDTH) by coordinate_elem.
      + rewrite !lookup_insert_ne by (by apply not_eq_sym, fname_ne_plain).
        by rewrite (Hout3_coord _ PITCH_LENGTH) by coordinate_elem.
      + rewrite !lookup_insert_ne by (by apply not_eq_sym, fname_ne_plain).
        by rewrite (Hout3_coord _ PITCH_WIDTH) by coordinate_elem.
    - change "start_x-0" with (fname "start_x" "-" 0).
      by rewrite (Hout3_coord _ PITCH_LENGTH) by coordinate_elem.
    - change "start_y-0" with (fname "start_y" "-" 0).
      by rewrite (Hout3_coord _ PITCH_WIDTH) by coordinate_elem.
    - change "time_played-0" with (fname "time_played" "-" 0).
      by rewrite Hout3_time.
    - by rewrite (Hout3_coord _ PITCH_LENGTH) by coordinate_elem.
    - by rewrite (Hout3_coord _ PITCH_WIDTH) by coordinate_elem.
    - by rewrite Hout3_time. }
  do 2 (split; [assumption|]). split; [|split].
  - intros k Hloc Hseq. unfold sequence_names in Hseq.
    rewrite !lookup_insert_ne
      by (intros <-; apply Hseq; by repeat first [left | right]).
    by apply Hother.
  - intros s SX SY EX EY n col Hs HSX HSY HEX HEY Hn.
    rewrite !lookup_insert_ne by (by apply not_eq_sym, fname_ne_plain).
    by eapply Hnew.
  - intros SX0' SY0' EX0' EY0' T0' SXd' SYd' Td' ????????. simplify_eq.
    repeat split;
      repeat first [rewrite lookup_insert_eq
                   |rewrite lookup_insert_ne by done]; reflexivity.
Qed.

Lemma create_features_match_frame sqrt_finite acts K d1 d2 :
  add_action_type_dummies (actions_frame acts) = Some d1 →
  add_time_played d1 = Some d2 →
  create_features_match sqrt_finite (actions_frame acts) features_to_delay K
  = features_of_frame sqrt_finite d2 features_to_delay K.
Proof.
  intros Hd1 Hd2. unfold create_features_match, features_of_frame.
  rewrite Hd1. cbn [mbind option_bind]. rewrite Hd2. reflexivity.
Qed.

Lemma length_inverted p (same old : column) n :
  length same = n → length old = n → length (inverted p same old) = n.
Proof.
  intros Hs Ho. unfold inverted, loc_assign.
  rewrite length_zip_with, length_zip, !length_fmap. lia.
Qed.

Lemma length_same_team (a b : column) n :
  length a = n → length b = n → length (same_team a b) = n.
Proof. intros Ha Hb. unfold same_team. rewrite length_zip_with. lia. Qed.

Lemma normalized_windows_rows (df : DataFrame) features K team n w2 :
  1 ≤ K → (∀ c, c ∈ features → is_Some (df !! c)) →
  "team_id" ∈ features → (∀ c p, (c, p) ∈ coordinate_pitch → c ∈ features) →
  df !! "team_id" = Some team →
  (∀ c col, c ∈ features → df !! c = Some col → length col = n) →
  normalized_windows df features K = Some w2 →
  ∀ k col, w2 !! k = Some col → length col = n.
Proof.
  intros HK Hcols Hteam_in Hcoords Hdf_team Hrows Hw2 k col Hk.
  destruct (normalized_windows_frame df features K team)
    as (w & w1 & w2' & Hw & _ & _ & Hnw & Hw_look & Hteam & Hinv & Hother & Hkeys);
    [done..|].
  assert (w2' = w2) as -> by congruence. clear Hnw Hw2.
  assert (length team = n) as Hteam_n by by eapply Hrows.
  destruct (decide (k ∈ fname "team" "-" <$> range 1 K)) as [Hin|Hout].
  { apply list_elem_of_fmap in Hin as (s & -> & Hs%elem_of_range).
    rewrite (Hteam s Hs) in Hk. injection Hk as <-.
    apply length_same_team; [done|]. by rewrite length_shift. }
  assert (∀ s, 1 ≤ s < K → k ≠ fname "team" "-" s) as Hteam_k.
  { intros s Hs ->. apply Hout, list_elem_of_fmap. exists s.
    split; [done|]. unfold range. apply elem_of_seq. lia. }
  destruct (decide (k ∈ range 1 K ≫= λ s, (λ cp, fname cp.1 "-" s)
                                            <$> coordinate_pitch))
    as [Hin|Hout'].
  { apply list_elem_of_bind in Hin as (s & Hin & Hs%elem_of_range).
    apply list_elem_of_fmap in Hin as ([c p] & -> & Hc). cbn in Hk.
    destruct (Hcols c (Hcoords c p Hc)) as [old Hold].
    rewrite (Hinv s c p old Hs Hc Hold) in Hk. injection Hk as <-.
    apply length_inverted.
    - apply length_same_team; [done|]. by rewrite length_shift.
    - rewrite length_shift. eapply Hrows; [|done]. by eapply Hcoords. }
  rewrite Hother in Hk; [|done|].
  2:{ intros s c p Hs Hc ->. apply Hout', list_elem_of_bind. exists s.
      split; [|unfold range; apply elem_of_seq; lia].
      apply list_elem_of_fmap. by exists (c, p). }
  destruct (create_delayed_features_keys df features K w k Hw)
    as (c & s & -> & Hc & Hs); [done|].
  rewrite Hw_look, decide_True in Hk by done.
  destruct (df !! c) as [old|] eqn:Hold; [|done]. injection Hk as <-.
  rewrite length_shift. by eapply Hrows.
Qed.

Lemma location_features_length sqrt_finite (SX SY EX EY : column) n name col :
  length SX = n → length SY = n → length EX = n → length EY = n →
  (name, col) ∈ location_features sqrt_finite SX SY EX EY → length col = n.
Proof.
  intros HSX HSY HEX HEY Hin. unfold location_features in Hin.
  list_cases Hin.
  all: unfold euclidean, angle_column, divide_where_nonzero.
  all: rewrite ?length_zip_with, ?length_fmap, ?length_zip_with; lia.
Qed.

Lemma normalized_windows_present (df : DataFrame) features K team w2 c s :
  1 ≤ K → (∀ c, c ∈ features → is_Some (df !! c)) →
  "team_id" ∈ features → (∀ c p, (c, p) ∈ coordinate_pitch → c ∈ features) →
  df !! "team_id" = Some team →
  normalized_windows df features K = Some w2 →
  c ∈ features → s < K → is_Some (w2 !! fname c "-" s).
Proof.
  intros HK Hcols Hteam_in Hcoords Hdf_team Hw2 Hc Hs.
  destruct (normalized_windows_frame df features K team)
    as (w & w1 & w2' & Hw & _ & _ & Hnw & Hw_look & Hteam & Hinv & Hother & Hkeys);
    [done..|].
  assert (w2' = w2) as -> by congruence. clear Hnw Hw2.
  destruct (Hcols c Hc) as [old Hold].
  destruct (decide (1 ≤ s ∧ c ∈ coordinate_pitch.*1)) as [[Hs1 Hin]|Hout].
  - apply list_elem_of_fmap in Hin as ([c' p] & -> & Hin). cbn in *.
    rewrite (Hinv s c' p old) by first [assumption | lia]. done.
  - destruct (decide (c = "team" ∧ 1 ≤ s)) as [[-> Hs1]|Hteam_c].
    { rewrite Hteam by lia. done. }
    rewrite Hother.
    + rewrite Hw_look, decide_True, Hold by done. done.
    + intros s' Hs' Heq.
      apply (fname_inj "-" _ _ _ _ minus_not_digit) in Heq as [-> ->].
      apply Hteam_c. split; [done|lia].
    + intros s' c' p Hs' Hc' Heq.
      apply (fname_inj "-" _ _ _ _ minus_not_digit) in Heq as [-> ->].
      apply Hout. split; [lia|]. apply list_elem_of_fmap. by exists (c', p).
Qed.

Lemma sequence_names_plain b c s :
  b ∈ sequence_names → fname c "-" s ≠ b.
Proof.
  intros Hb. apply fname_ne_plain. unfold sequence_names in Hb.
  repeat (apply elem_of_cons in Hb as [->|Hb]; [reflexivity|]).
  by apply elem_of_nil in Hb.
Qed.

Lemma features_of_windows_schema sqrt_finite (d2 : DataFrame) K team n out :
  1 ≤ K → (∀ c, c ∈ features_to_delay → is_Some (d2 !! c)) →
  d2 !! "team_id" = Some team →
  (∀ c col, c ∈ features_to_delay → d2 !! c = Some col → length col = n) →
  features_of_frame sqrt_finite d2 features_to_delay K = Some out →
  (∀ k, is_Some (out !! k) ↔ k ∈ feature_columns K)
  ∧ (∀ k col, out !! k = Some col → length col = n).
Proof.
  intros HK Hpresent Hd2_team Hrows Hout.
  destruct (features_of_windows sqrt_finite d2 K team HK Hpresent Hd2_team)
    as (w & w2 & out' & Hout' & Hw & Hw2 & Hplain & Hloc & Hseq).
  assert (out' = out) as -> by congruence. clear Hout Hout'.
  assert ("team_id" ∈ features_to_delay) as Hteam_in
    by (by repeat first [left | right]).
  pose proof features_to_delay_coordinates as Hcoords.
  assert (∀ c s, c ∈ features_to_delay → s < K →
            is_Some (w2 !! fname c "-" s)) as Hw2_present.
  { intros c s. by eapply normalized_windows_present. }
  pose proof (normalized_windows_rows d2 features_to_delay K team n w2
                HK Hpresent Hteam_in Hcoords Hd2_team Hrows Hw2) as Hw2_rows.
  destruct (normalized_windows_frame d2 features_to_delay K team)
    as (w' & w1 & w2' & Hw' & _ & _ & Hnw & Hw_look & Hteam & Hinv & Hother
        & Hkeys); [done..|].
  assert (w2' = w2) as -> by congruence.
  assert (w' = w) as -> by congruence. clear Hnw Hw' Hinv Hother.
  assert (∀ s c, s < K → c ∈ ["start_x"; "start_y"; "end_x"; "end_y"] →
            ∃ col, w2 !! fname c "-" s = Some col ∧ length col = n) as Hcoord.
  { intros s c Hs Hc.
    destruct (Hw2_present c s) as [col Hcol]; [|done|].
    { list_cases Hc; by repeat first [left | right]. }
    exists col. split; [done|]. by eapply Hw2_rows. }
  assert (∀ s, s < K →
            ∃ col, w2 !! fname "time_played" "-" s = Some col ∧ length col = n)
    as Htime.
  { intros s Hs.
    destruct (Hw2_present "time_played" s) as [col Hcol];
      [by repeat first [left | right]|done|].
    exists col. split; [done|]. by eapply Hw2_rows. }
  destruct (Hcoord 0 "start_x") as (SX0 & HSX0 & HSX0n);
    [lia|by repeat first [left | right]|].
  destruct (Hcoord 0 "start_y") as (SY0 & HSY0 & HSY0n);
    [lia|by repeat first [left | right]|].
  destruct (Hcoord 0 "end_x") as (EX0 & HEX0 & HEX0n);
    [lia|by repeat first [left | right]|].
  destruct (Hcoord 0 "end_y") as (EY0 & HEY0 & HEY0n);
    [lia|by repeat first [left | right]|].
  destruct (Htime 0) as (T0 & HT0 & HT0n); [lia|].
  destruct (Hcoord (K - 1) "start_x") as (SXd & HSXd & HSXdn);
    [lia|by repeat first [left | right]|].
  destruct (Hcoord (K - 1) "start_y") as (SYd & HSYd & HSYdn);
    [lia|by repeat first [left | right]|].
  destruct (Htime (K - 1)) as (Td & HTd & HTdn); [lia|].
  destruct (Hseq SX0 SY0 EX0 EY0 T0 SXd SYd Td)
    as (Hxpre & Hypre & Htpre & Hxpost & Hypost); [done..|].
  assert (∀ k, k ∈ sequence_names →
            ∃ col, out !! k = Some col ∧ length col = n) as Hseq_cols.
  { intros k Hk. unfold sequence_names in Hk. list_cases Hk.
    all: eexists; split; [eassumption|]; rewrite length_zip_with; lia. }
  assert (∀ s name, s < K → name ∈ location_names →
            ∃ col, out !! fname name "-" s = Some col ∧ length col = n)
    as Hloc_cols.
  { intros s name Hs Hname.
    destruct (Hcoord s "start_x") as (SX & HSX & HSXn);
      [lia|by repeat first [left | right]|].
    destruct (Hcoord s "start_y") as (SY & HSY & HSYn);
      [lia|by repeat first [left | right]|].
    destruct (Hcoord s "end_x") as (EX & HEX & HEXn);
      [lia|by repeat first [left | right]|].
    destruct (Hcoord s "end_y") as (EY & HEY & HEYn);
      [lia|by repeat first [left | right]|].
    assert (∃ col, (name, col) ∈ location_features sqrt_finite SX SY EX EY)
      as [col Hcol].
    { unfold location_names in Hname. unfold location_features.
      list_cases Hname; eexists; by repeat first [left | right]. }
    exists col. split; [by eapply Hloc|].
    apply (location_features_length sqrt_finite SX SY EX EY n name col);
      assumption. }
  assert (∀ k, k ∉ sequence_names →
            k ∉ (range 0 K ≫= λ s, (λ name, fname name "-" s) <$> location_names) →
            out !! k = w2 !! k) as Hout_plain.
  { intros k Hk1 Hk2. apply Hplain; [|done].
    intros s name Hs Hname ->. apply Hk2, list_elem_of_bind. exists s.
    split; [|unfold range; apply elem_of_seq; lia].
    apply list_elem_of_fmap. by exists name. }
  split.
  - intros k. unfold feature_columns. rewrite !elem_of_app. split.
    + intros Hk.
      destruct (decide (k ∈ sequence_names)) as [|Hk1]; [by right; right|].
      destruct (decide (k ∈ range 0 K ≫= λ s, (λ name, fname name "-" s)
                                                <$> location_names))
        as [Hin|Hk2].
      { left. apply list_elem_of_bind in Hin as (s & Hin & Hs).
        apply list_elem_of_bind. exists s. split; [|done].
        apply list_elem_of_fmap in Hin as (name & -> & Hname).
        apply list_elem_of_fmap. exists name. split; [done|].
        apply elem_of_app. by right. }
      rewrite (Hout_plain k Hk1 Hk2) in Hk.
      destruct (Hkeys k Hk) as [Hwk|(s & Hs & ->)].
      * left.
        destruct (create_delayed_features_keys d2 features_to_delay K w k Hw Hwk)
          as (c & s & -> & Hc & Hs).
        apply list_elem_of_bind. exists s.
        split; [|unfold range; apply elem_of_seq; lia].
        apply list_elem_of_fmap. exists c. split; [done|].
        apply elem_of_app. by left.
      * right. left. apply list_elem_of_fmap. exists s. split; [done|].
        unfold range. apply elem_of_seq. lia.
    + intros [Hin|[Hin|Hin]].
      * apply list_elem_of_bind in Hin as (s & Hin & Hs%elem_of_range).
        apply list_elem_of_fmap in Hin as (c & -> & [Hc|Hc]%elem_of_app).
        -- rewrite Hplain.
           ++ apply Hw2_present; [done|lia].
           ++ intros s' name Hs' Hname Heq.
              apply (fname_inj "-" _ _ _ _ minus_not_digit) in Heq as [-> _].
              unfold features_to_delay in Hc. unfold location_names in Hname.
              list_cases Hc; not_in_literals Hname.
           ++ intros Hseq_k. by eapply sequence_names_plain.
        -- destruct (Hloc_cols s c) as (col & -> & _); [lia|done|done].
      * apply list_elem_of_fmap in Hin as (s & -> & Hs%elem_of_range).
        rewrite Hplain.
        -- by rewrite Hteam.
        -- intros s' name Hs' Hname Heq.
           apply (fname_inj "-" _ _ _ _ minus_not_digit) in Heq as [<- _].
           unfold location_names in Hname. not_in_literals Hname.
        -- intros Hseq_k. by eapply sequence_names_plain.
      * destruct (Hseq_cols k Hin) as (col & -> & _). done.
  - intros k col Hk.
    destruct (decide (k ∈ sequence_names)) as [Hin|Hk1].
    { destruct (Hseq_cols k Hin) as (col' & Hcol' & Hlen). congruence. }
    destruct (decide (k ∈ range 0 K ≫= λ s, (λ name, fname name "-" s)
                                              <$> location_names))
      as [Hin|Hk2].
    { apply list_elem_of_bind in Hin as (s & Hin & Hs%elem_of_range).
      apply list_elem_of_fmap in Hin as (name & -> & Hname).
      destruct (Hloc_cols s name) as (col' & Hcol' & Hlen); [lia|done|].
      congruence. }
    rewrite (Hout_plain k Hk1 Hk2) in Hk. by eapply Hw2_rows.
Qed.

(** ** The table of features, cell by cell *)

Lemma location_cells_lookup sqrt_finite (SX SY EX EY : column) i sx sy ex ey
    name v :
  SX !! i = Some sx → SY !! i = Some sy →
  EX !! i = Some ex → EY !! i = Some ey →
  (name, v) ∈ location_cells sqrt_finite sx sy ex ey →
  ∃ col, (name, col) ∈ location_features sqrt_finite SX SY EX EY
         ∧ col !! i = Some v.
Proof.
  intros HSX HSY HEX HEY Hin. unfold location_cells in Hin.
  unfold location_features. list_cases Hin.
  all: eexists; split; [by repeat first [left | right]|].
  all: unfold euclidean, angle_column, divide_where_nonzero, angle_to_goal.
  all: rewrite ?lookup_zip_with, ?list_lookup_fmap, ?lookup_zip_with.
  all: rewrite ?HSX, ?HSY, ?HEX, ?HEY; reflexivity.
Qed.

Lemma time_played_not_coordinate p : ("time_played", p) ∉ coordinate_pitch.
Proof.
  unfold coordinate_pitch. intros Hc.
  repeat (apply elem_of_cons in Hc as [Hc|Hc]; [discriminate Hc|]).
  by apply elem_of_nil in Hc.
Qed.

Section cells.

Context (acts : list Action) (d2 : DataFrame) (K : nat) (w2 : DataFrame).

Hypothesis table : actions_frame acts ⊆ d2.

Hypothesis played : d2 !! "time_played" = Some (time_played_column acts).

Hypothesis present : ∀ c, c ∈ features_to_delay → is_Some (d2 !! c).

Hypothesis slots : 1 ≤ K.

Hypothesis windows : normalized_windows d2 features_to_delay K = Some w2.

Lemma window_coordinate_cells s i a0 c get size :
  s < K → acts !! i = Some a0 → (c, get, size) ∈ coordinates →
  cell_at w2 (fname c "-" s) i
  = Some (slot_coordinate a0 s (slot_action acts i s) get size).
Proof.
  intros Hs Ha0 Hc.
  assert (i < length acts) as Hi by by eapply lookup_lt_Some.
  destruct (windows_of_actions acts d2 features_to_delay K table present)
    as (w & w1 & w2' & Hw & Hw1 & Hw2 & _ & _ & Hraw & Hinv & Hzero);
    [by repeat first [left | right]|apply features_to_delay_coordinates
    |done|].
  assert (w2' = w2) as -> by congruence.
  unfold slot_action. destruct (decide (s = 0)) as [->|Hs0].
  - rewrite (Hzero i a0 c get size Ha0 Hc). rewrite decide_True by lia.
    rewrite Nat.sub_0_r, Ha0. cbn. unfold mirrored.
    by rewrite decide_True by (by left).
  - destruct (Hinv s i a0 c get size) as (v & Hv & ->); [lia|done..|].
    rewrite (Hraw s i a0 c get size) in Hv by done. injection Hv as <-.
    f_equal. case_decide as Hsi; [|done].
    destruct (lookup_lt_is_Some_2 acts (i - s)) as [a Ha]; [lia|].
    rewrite Ha. cbn. unfold mirrored. case_bool_decide as Hteam.
    + by rewrite decide_True by (by right).
    + rewrite decide_False by (intros [?|?]; [lia|congruence]). done.
Qed.

Lemma window_time_cells s i a0 :
  s < K → acts !! i = Some a0 →
  cell_at w2 (fname "time_played" "-" s) i
  = Some (slot_time (slot_action acts i s)).
Proof.
  intros Hs Ha0.
  assert (i < length acts) as Hi by by eapply lookup_lt_Some.
  destruct (normalized_windows_frame d2 features_to_delay K (team_column acts))
    as (w & w1 & w2' & Hw & _ & _ & Hnw & Hw_look & _ & _ & Hother & _);
    [done|done|by repeat first [left | right]
    |apply features_to_delay_coordinates
    |by apply (lookup_weaken _ _ _ _ (team_frame acts))|].
  assert (w2' = w2) as -> by congruence. unfold cell_at.
  rewrite Hother;
    [|intros ??; slot_ne
     |intros s' c p _ Hc Heq;
      apply (fname_inj "-" _ _ _ _ minus_not_digit) in Heq as [<- _];
      by apply time_played_not_coordinate in Hc].
  rewrite Hw_look, decide_True, played
    by (split; [by repeat first [left | right]|done]).
  cbn. unfold time_played_column.
  rewrite shift_lookup by by rewrite length_fmap.
  unfold slot_action. case_decide; [|done].
  rewrite list_lookup_fmap.
  destruct (lookup_lt_is_Some_2 acts (i - s)) as [a ->]; [lia|done].
Qed.

End cells.

(** The cells of the table of features of a match. *)
Lemma feature_cells sqrt_finite acts K :
  1 ≤ K → (∀ a, a ∈ acts → actions_frame acts !! type_name a = None) →
  ∃ out,
    create_features_match sqrt_finite (actions_frame acts) features_to_delay K
    = Some out
    ∧ (∀ s i a0 c get size, s < K → acts !! i = Some a0 →
         (c, get, size) ∈ coordinates →
         cell_at out (fname c "-" s) i
         = Some (slot_coordinate a0 s (slot_action acts i s) get size))
    ∧ (∀ s i a0, s < K → acts !! i = Some a0 →
         cell_at out (fname "time_played" "-" s) i
         = Some (slot_time (slot_action acts i s)))
    ∧ (∀ s i a0 name v, s < K → acts !! i = Some a0 →
         (name, v)
         ∈ location_cells sqrt_finite
             (slot_coordinate a0 s (slot_action acts i s) start_x 105)
             (slot_coordinate a0 s (slot_action acts i s) start_y 68)
             (slot_coordinate a0 s (slot_action acts i s) end_x 105)
             (slot_coordinate a0 s (slot_action acts i s) end_y 68) →
         cell_at out (fname name "-" s) i = Some v)
    ∧ (∀ i a0, acts !! i = Some a0 →
         let slot := slot_action acts i (K - 1) in
         cell_at out "xdiff_sequence_pre" i
         = Some (cell_sub (Num (start_x a0))
                   (slot_coordinate a0 (K - 1) slot start_x 105))
         ∧ cell_at out "ydiff_sequence_pre" i
           = Some (cell_sub (Num (start_y a0))
                     (slot_coordinate a0 (K - 1) slot start_y 68))
         ∧ cell_at out "time_sequence_pre" i
           = Some (cell_sub (slot_time (Some a0)) (slot_time slot))
         ∧ cell_at out "xdiff_sequence_post" i
           = Some (cell_sub (Num (end_x a0))
                     (slot_coordinate a0 (K - 1) slot start_x 105))
         ∧ cell_at out "ydiff_sequence_post" i
           = Some (cell_sub (Num (end_y a0))
                     (slot_coordinate a0 (K - 1) slot start_y 68))).
Proof.
  intros HK Hnames.
  destruct (pipeline_frame acts Hnames)
    as (d1 & d2 & Hd1 & Hd2 & Hsub & Htp & Hcols).
  rewrite (create_features_match_frame sqrt_finite acts K d1 d2 Hd1 Hd2).
  clear Hd1 Hd2 d1 Hnames.
  assert (∀ c, c ∈ features_to_delay → is_Some (d2 !! c)) as Hpresent.
  { intros c Hc. destruct (Hcols c Hc) as (col & -> & _). done. }
  destruct (features_of_windows sqrt_finite d2 K (team_column acts))
    as (w & w2 & out & Hout & Hw & Hw2 & Hplain & Hloc & Hseq);
    [done|done|by apply (lookup_weaken _ _ _ _ (team_frame acts))|].
  exists out. split; [done|]. clear Hout.
  pose proof (window_coordinate_cells acts d2 K w2 Hsub Hpresent HK Hw2)
    as Hcoord.
  pose proof (window_time_cells acts d2 K w2 Hsub Htp Hpresent HK Hw2) as Htime.
  assert (∀ s c, s < K → c ∈ features_to_delay →
            out !! fname c "-" s = w2 !! fname c "-" s) as Hsame.
  { intros s c Hs Hc. apply Hplain.
    - intros s' name Hs' Hname Heq.
      apply (fname_inj "-" _ _ _ _ minus_not_digit) in Heq as [-> _].
      unfold features_to_delay in Hc. unfold location_names in Hname.
      list_cases Hc; not_in_literals Hname.
    - intros Hin. by eapply sequence_names_plain. }
  assert (∀ s i c get size, s < K → (c, get, size) ∈ coordinates →
            cell_at out (fname c "-" s) i = cell_at w2 (fname c "-" s) i)
    as Hsame_coord.
  { intros s i c get size Hs Hc. unfold cell_at. rewrite Hsame; [done..|].
    destruct (coordinates_frame acts c get size Hc) as [_ Hpitch].
    by eapply features_to_delay_coordinates. }
  assert (∀ s i a0, s < K → acts !! i = Some a0 →
            ∃ SX SY EX EY,
              w2 !! fname "start_x" "-" s = Some SX
              ∧ w2 !! fname "start_y" "-" s = Some SY
              ∧ w2 !! fname "end_x" "-" s = Some EX
              ∧ w2 !! fname "end_y" "-" s = Some EY
              ∧ SX !! i = Some (slot_coordinate a0 s (slot_action acts i s)
                                  start_x 105)
              ∧ SY !! i = Some (slot_coordinate a0 s (slot_action acts i s)
                                  start_y 68)
              ∧ EX !! i = Some (slot_coordinate a0 s (slot_action acts i s)
                                  end_x 105)
              ∧ EY !! i = Some (slot_coordinate a0 s (slot_action acts i s)
                                  end_y 68)) as Hcolumns.
  { intros s i a0 Hs Ha0.
    pose proof (Hcoord s i a0 "start_x" start_x 105%Q Hs Ha0
                  ltac:(by repeat first [left | right])) as HSX.
    pose proof (Hcoord s i a0 "start_y" start_y 68%Q Hs Ha0
                  ltac:(by repeat first [left | right])) as HSY.
    pose proof (Hcoord s i a0 "end_x" end_x 105%Q Hs Ha0
                  ltac:(by repeat first [left | right])) as HEX.
    pose proof (Hcoord s i a0 "end_y" end_y 68%Q Hs Ha0
                  ltac:(by repeat first [left | right])) as HEY.
    unfold cell_at in HSX, HSY, HEX, HEY.
    destruct (w2 !! fname "start_x" "-" s) as [SX|]; [|done].
    destruct (w2 !! fname "start_y" "-" s) as [SY|]; [|done].
    destruct (w2 !! fname "end_x" "-" s) as [EX|]; [|done].
    destruct (w2 !! fname "end_y" "-" s) as [EY|]; [|done].
    exists SX, SY, EX, EY. do 4 (split; [reflexivity|]).
    repeat split; assumption. }
  split; [|split; [|split]].
  - intros s i a0 c get size Hs Ha0 Hc.
    rewrite (Hsame_coord s i c get size Hs Hc).
    exact (Hcoord s i a0 c get size Hs Ha0 Hc).
  - intros s i a0 Hs Ha0. unfold cell_at.
    rewrite (Hsame s "time_played" Hs ltac:(by repeat first [left | right])).
    exact (Htime s i a0 Hs Ha0).
  - intros s i a0 name v Hs Ha0 Hin.
    destruct (Hcolumns s i a0 Hs Ha0)
      as (SX & SY & EX & EY & HSX & HSY & HEX & HEY & Hsx & Hsy & Hex & Hey).
    destruct (location_cells_lookup sqrt_finite SX SY EX EY i _ _ _ _ name v
                Hsx Hsy Hex Hey Hin) as (col & Hcol & Hv).
    unfold cell_at. rewrite (Hloc s SX SY EX EY name col Hs HSX HSY HEX HEY Hcol).
    exact Hv.
  - intros i a0 Ha0 slot.
    destruct (Hcolumns 0 i a0 ltac:(lia) Ha0)
      as (SX0 & SY0 & EX0 & EY0 & HSX0 & HSY0 & HEX0 & HEY0
          & Hsx0 & Hsy0 & Hex0 & Hey0).
    destruct (Hcolumns (K - 1) i a0 ltac:(lia) Ha0)
      as (SXd & SYd & EXd & EYd & HSXd & HSYd & _ & _ & Hsxd & Hsyd & _ & _).
    pose proof (Htime 0 i a0 ltac:(lia) Ha0) as HT0.
    pose proof (Htime (K - 1) i a0 ltac:(lia) Ha0) as HTd.
    unfold cell_at in HT0, HTd.
    destruct (w2 !! fname "time_played" "-" 0) as [T0|] eqn:HT0c; [|done].
    destruct (w2 !! fname "time_played" "-" (K - 1)) as [Td|] eqn:HTdc; [|done].
    cbn in HT0, HTd.
    destruct (Hseq SX0 SY0 EX0 EY0 T0 SXd SYd Td)
      as (Hxpre & Hypre & Htpre & Hxpost & Hypost); [done..|].
    unfold cell_at. rewrite Hxpre, Hypre, Htpre, Hxpost, Hypost. cbn.
    rewrite !lookup_zip_with.
    rewrite Hsx0, Hsy0, Hex0, Hey0, Hsxd, Hsyd, HT0, HTd. cbn.
    assert (slot_action acts i 0 = Some a0) as Hslot0.
    { unfold slot_action. rewrite decide_True by lia.
      by rewrite Nat.sub_0_r. }
    rewrite Hslot0. unfold slot_coordinate at 1 3 5 7. unfold mirrored.
    rewrite !decide_True by (by left). repeat split; reflexivity.
Qed.

(** ** Claims about the table of features *)

Lemma demo_type_names a :
  a ∈ demo → actions_frame demo !! type_name a = None.
Proof.
  intros Ha. unfold demo in Ha.
  repeat (apply elem_of_cons in Ha as [->|Ha]; [reflexivity|]).
  by apply elem_of_nil in Ha.
Qed.

(** On an action table whose type names are no column names,
    [create_features_match] raises exactly when [delays] is 0. *)
Theorem create_features_match_raises sqrt_finite acts K :
  (∀ a, a ∈ acts → actions_frame acts !! type_name a = None) →
  create_features_match sqrt_finite (actions_frame acts) features_to_delay K
  = None
  ↔ K = 0.
Proof.
  intros Hnames. split.
  - intros Hnone. destruct K as [|K]; [reflexivity|]. exfalso.
    destruct (feature_cells sqrt_finite acts (S K)) as (out & Hout & _);
      [lia|exact Hnames|].
    rewrite Hout in Hnone. discriminate Hnone.
  - intros ->.
    destruct (pipeline_frame acts Hnames) as (d1 & d2 & Hd1 & Hd2 & _).
    rewrite (create_features_match_frame sqrt_finite acts 0 d1 d2 Hd1 Hd2).
    reflexivity.
Qed.

Lemma create_features_match_raises_witness :
  create_features_match Num (actions_frame demo) features_to_delay 0 = None
  ↔ 0 = 0.
Proof. apply (create_features_match_raises Num demo 0), demo_type_names. Defined.

(** The table of features of a match has one row for every action and,
    whatever the actions are, the same columns: for every slot the delayed
    attributes and the eleven location features, the indicator [team-s] of
    every slot but slot 0, and the five features of the sequence. *)
Theorem create_features_match_table sqrt_finite acts K :
  1 ≤ K → (∀ a, a ∈ acts → actions_frame acts !! type_name a = None) →
  ∃ out,
    create_features_match sqrt_finite (actions_frame acts) features_to_delay K
    = Some out
    ∧ (∀ k, is_Some (out !! k) ↔ k ∈ feature_columns K)
    ∧ (∀ k col, out !! k = Some col → length col = length acts).
Proof.
  intros HK Hnames.
  destruct (pipeline_frame acts Hnames)
    as (d1 & d2 & Hd1 & Hd2 & Hsub & Htp & Hcols).
  rewrite (create_features_match_frame sqrt_finite acts K d1 d2 Hd1 Hd2).
  clear Hd1 Hd2 d1 Hnames.
  assert (∀ c, c ∈ features_to_delay → is_Some (d2 !! c)) as Hpresent.
  { intros c Hc. destruct (Hcols c Hc) as (col & -> & _). done. }
  assert (d2 !! "team_id" = Some (team_column acts)) as Hteam
    by (by apply (lookup_weaken _ _ _ _ (team_frame acts))).
  destruct (features_of_windows sqrt_finite d2 K (team_column acts)
              HK Hpresent Hteam) as (w & w2 & out & Hout & _).
  exists out. split; [exact Hout|].
  apply (features_of_windows_schema sqrt_finite d2 K (team_column acts));
    [exact HK|exact Hpresent|exact Hteam| |exact Hout].
  intros c col Hc Hcol. destruct (Hcols c Hc) as (col' & Hcol' & Hlen).
  congruence.
Qed.

Lemma create_features_match_table_witness :
  ∃ out,
    create_features_match Num (actions_frame demo) features_to_delay delays
    = Some out
    ∧ (∀ k, is_Some (out !! k) ↔ k ∈ feature_columns delays)
    ∧ (∀ k col, out !! k = Some col → length col = length demo).
Proof.
  apply (create_features_match_table Num demo delays);
    [unfold delays; lia|apply demo_type_names].
Defined.





(** ** Locations on the pitch *)






Lemma location_features_total sqrt_finite (SX SY EX EY : column) name :
  name ∈ location_names →
  ∃ col, (name, col) ∈ location_features sqrt_finite SX SY EX EY.
Proof.
  intros Hname.
  change location_names
    with ((location_features sqrt_finite SX SY EX EY).*1) in Hname.
  apply list_elem_of_fmap in Hname as ([n col] & -> & Hin). by exists col.
Qed.

Lemma single_action_features sqrt_finite acts :
  ∃ single,
    action_features sqrt_finite (actions_frame acts) = Some single
    ∧ ∀ name col,
        (name, col)
        ∈ location_features sqrt_finite
            (Num ∘ start_x <$> acts) (Num ∘ start_y <$> acts)
            (Num ∘ end_x <$> acts) (Num ∘ end_y <$> acts) →
        single !! name = Some col.
Proof.
  eexists. split; [reflexivity|].
  intros name col Hin. unfold location_features in Hin.
  list_cases Hin; reflexivity.
Qed.

(** The location features of slot 0 are the features of the action
    itself: the columns the first part of the notebook computes on the
    action table, under the same names with the suffix [-0]. *)
Theorem slot_0_features sqrt_finite acts K :
  1 ≤ K → (∀ a, a ∈ acts → actions_frame acts !! type_name a = None) →
  ∃ out single,
    create_features_match sqrt_finite (actions_frame acts) features_to_delay K
    = Some out
    ∧ action_features sqrt_finite (actions_frame acts) = Some single
    ∧ ∀ name, name ∈ location_names →
        is_Some (single !! name) ∧ out !! fname name "-" 0 = single !! name.
Proof.
  intros HK Hnames.
  destruct (single_action_features sqrt_finite acts) as (single & Hsingle & Hcols).
  destruct (pipeline_frame acts Hnames)
    as (d1 & d2 & Hd1 & Hd2 & Hsub & Htp & Hpresent_len).
  rewrite (create_features_match_frame sqrt_finite acts K d1 d2 Hd1 Hd2).
  clear Hd1 Hd2 d1 Hnames.
  assert (∀ c, c ∈ features_to_delay → is_Some (d2 !! c)) as Hpresent.
  { intros c Hc. destruct (Hpresent_len c Hc) as (col & -> & _). done. }
  assert (d2 !! "team_id" = Some (team_column acts)) as Hteam
    by (by apply (lookup_weaken _ _ _ _ (team_frame acts))).
  destruct (features_of_windows sqrt_finite d2 K (team_column acts)
              HK Hpresent Hteam) as (w & w2 & out & Hout & _ & Hw2 & _ & Hloc & _).
  exists out, single. split; [exact Hout|]. split; [exact Hsingle|].
  clear Hout Hsingle.
  destruct (normalized_windows_lookup d2 features_to_delay K (team_column acts))
    as (w' & w1' & w2' & _ & _ & _ & Hw2' & _ & _ & _ & Hzero);
    [exact HK|exact Hpresent|by repeat first [left | right]
    |apply features_to_delay_coordinates|exact Hteam|].
  assert (w2' = w2) as -> by congruence.
  assert (∀ c get size, (c, get, size) ∈ coordinates →
            w2 !! fname c "-" 0 = Some (Num ∘ get <$> acts)) as Hslot0.
  { intros c get size Hc.
    destruct (coordinates_frame acts c get size Hc) as [Hcol Hpitch].
    apply Hzero; [by eapply features_to_delay_coordinates|].
    by eapply lookup_weaken. }
  intros name Hname.
  assert (∃ col, (name, col)
                 ∈ location_features sqrt_finite
                     (Num ∘ start_x <$> acts) (Num ∘ start_y <$> acts)
                     (Num ∘ end_x <$> acts) (Num ∘ end_y <$> acts))
    as [col Hcol].
  { by apply location_features_total. }
  rewrite (Hcols name col Hcol). split; [by eexists|].
  apply (Hloc 0 (Num ∘ start_x <$> acts) (Num ∘ start_y <$> acts)
           (Num ∘ end_x <$> acts) (Num ∘ end_y <$> acts) name col);
    [lia|..|exact Hcol].
  - apply (Hslot0 "start_x" start_x 105%Q). by repeat first [left | right].
  - apply (Hslot0 "start_y" start_y 68%Q). by repeat first [left | right].
  - apply (Hslot0 "end_x" end_x 105%Q). by repeat first [left | right].
  - apply (Hslot0 "end_y" end_y 68%Q). by repeat first [left | right].
Qed.

Lemma slot_0_features_witness :
  ∃ out single,
    create_features_match Num (actions_frame demo) features_to_delay delays
    = Some out
    ∧ action_features Num (actions_frame demo) = Some single
    ∧ ∀ name, name ∈ location_names →
        is_Some (single !! name) ∧ out !! fname name "-" 0 = single !! name.
Proof.
  apply (slot_0_features Num demo delays);
    [unfold delays; lia|apply demo_type_names].
Defined.

(** For a match with one action or more, the table of features and the
    table of the labels [scores] and [concedes], as the notebook stores
    them for the match, have one row for every action each. *)
Theorem features_and_labels_aligned sqrt_finite acts :
  acts ≠ [] → (∀ a, a ∈ acts → actions_frame acts !! type_name a = None) →
  ∃ features labels,
    create_features_match sqrt_finite (actions_frame acts) features_to_delay
      delays = Some features
    ∧ df_labels (actions_frame acts) = Some labels
    ∧ (∀ k, is_Some (labels !! k) ↔ k = "scores" ∨ k = "concedes")
    ∧ (∀ k col, features !! k = Some col → length col = length acts)
    ∧ (∀ k col, labels !! k = Some col → length col = length acts).
Proof.
  intros Hne Hnames.
  destruct (pipeline_frame acts Hnames)
    as (d1 & d2 & Hd1 & Hd2 & Hsub & Htp & Hcols).
  rewrite (create_features_match_frame sqrt_finite acts delays d1 d2 Hd1 Hd2).
  clear Hd1 Hd2 d1 Hnames.
  assert (∀ c, c ∈ features_to_delay → is_Some (d2 !! c)) as Hpresent.
  { intros c Hc. destruct (Hcols c Hc) as (col & -> & _). done. }
  assert (d2 !! "team_id" = Some (team_column acts)) as Hteam
    by (by apply (lookup_weaken _ _ _ _ (team_frame acts))).
  assert (1 ≤ delays) as HK by (unfold delays; lia).
  destruct (features_of_windows sqrt_finite d2 delays (team_column acts)
              HK Hpresent Hteam) as (w & w2 & out & Hout & _).
  destruct (features_of_windows_schema sqrt_finite d2 delays (team_column acts)
              (length acts) out HK Hpresent Hteam) as [_ Hrows]; [|exact Hout|].
  { intros c col Hc Hcol. destruct (Hcols c Hc) as (col' & Hcol' & Hlen).
    congruence. }
  destruct (label_scores_table acts 10 ltac:(lia) Hne) as (sc & Hsc & Hlen & _).
  destruct (label_concedes_table acts 10 ltac:(lia) Hne)
    as (co & Hco & Hlen' & _).
  exists out, ({[ "scores" := sc ]} ∪ ({[ "concedes" := co ]} ∪ ∅)).
  split; [exact Hout|]. clear Hout. split.
  { unfold df_labels. rewrite Hsc. cbn [mbind option_bind]. rewrite Hco.
    reflexivity. }
  clear Hsc Hco. split; [|split; [exact Hrows|]].
  - intros k. rewrite !lookup_union_is_Some, !lookup_singleton_is_Some.
    rewrite lookup_empty. split.
    + intros [<- | [<- | [? ?]]]; [by left|by right|done].
    + intros [-> | ->]; [by left|right; by left].
  - intros k col Hk.
    apply lookup_union_Some_raw in Hk as [Hk|[_ Hk]].
    { apply lookup_singleton_Some in Hk as [_ <-]. exact Hlen. }
    apply lookup_union_Some_raw in Hk as [Hk|[_ Hk]].
    { apply lookup_singleton_Some in Hk as [_ <-]. exact Hlen'. }
    by rewrite lookup_empty in Hk.
Qed.

Lemma features_and_labels_aligned_witness :
  ∃ features labels,
    create_features_match Num (actions_frame demo) features_to_delay delays
    = Some features
    ∧ df_labels (actions_frame demo) = Some labels
    ∧ (∀ k, is_Some (labels !! k) ↔ k = "scores" ∨ k = "concedes")
    ∧ (∀ k col, features !! k = Some col → length col = length demo)
    ∧ (∀ k col, labels !! k = Some col → length col = length demo).
Proof.
  apply (features_and_labels_aligned Num demo); [done|apply demo_type_names].
Defined.

Lemma plain_attributes_frame acts (d2 : DataFrame) c get :
  actions_frame acts ⊆ d2 →
  d2 !! "time_played" = Some (time_played_column acts) →
  (c, get) ∈ plain_attributes →
  d2 !! c = Some (get <$> acts)
  ∧ c ∈ features_to_delay
  ∧ (∀ p, (c, p) ∉ coordinate_pitch)
  ∧ c ≠ "team".
Proof.
  intros Hsub Htp Hc. unfold plain_attributes in Hc.
  repeat (apply elem_of_cons in Hc as [Hc|Hc];
          [injection Hc as -> ->;
           (split; [first [exact Htp
                          |apply (lookup_weaken (actions_frame acts));
                           [reflexivity|exact Hsub]]|]);
           (split; [by repeat first [left | right]|]);
           (split; [|discriminate]);
           intros p Hp; unfold coordinate_pitch in Hp;
           repeat (apply elem_of_cons in Hp as [Hp|Hp]; [discriminate Hp|]);
           by apply elem_of_nil in Hp|]).
  apply elem_of_nil in Hc. destruct Hc.
Qed.

(** The attributes of a slot that are no coordinates reach the table of
    features as [create_delayed_features] made them: the cell of the action
    [s] rows earlier, or the missing sentinel. *)
Theorem slot_attributes sqrt_finite acts K s i a0 :
  1 ≤ K → (∀ a, a ∈ acts → actions_frame acts !! type_name a = None) →
  s < K → acts !! i = Some a0 →
  ∃ out,
    create_features_match sqrt_finite (actions_frame acts) features_to_delay K
    = Some out
    ∧ ∀ c get, (c, get) ∈ plain_attributes →
        cell_at out (fname c "-" s) i
        = Some (from_option get NaN (slot_action acts i s)).
Proof.
  intros HK Hnames Hs Ha0.
  assert (i < length acts) as Hi by by eapply lookup_lt_Some.
  destruct (pipeline_frame acts Hnames)
    as (d1 & d2 & Hd1 & Hd2 & Hsub & Htp & Hcols).
  rewrite (create_features_match_frame sqrt_finite acts K d1 d2 Hd1 Hd2).
  clear Hd1 Hd2 d1 Hnames.
  assert (∀ c, c ∈ features_to_delay → is_Some (d2 !! c)) as Hpresent.
  { intros c Hc. destruct (Hcols c Hc) as (col & -> & _). done. }
  assert (d2 !! "team_id" = Some (team_column acts)) as Hteam
    by (by apply (lookup_weaken _ _ _ _ (team_frame acts))).
  destruct (features_of_windows sqrt_finite d2 K (team_column acts)
              HK Hpresent Hteam) as (w & w2 & out & Hout & Hw & Hw2 & Hplain & _).
  exists out. split; [exact Hout|]. clear Hout.
  destruct (normalized_windows_frame d2 features_to_delay K (team_column acts))
    as (w' & w1 & w2' & Hw' & _ & _ & Hnw & Hw_look & _ & _ & Hother & _);
    [exact HK|exact Hpresent|by repeat first [left | right]
    |apply features_to_delay_coordinates|exact Hteam|].
  assert (w2' = w2) as -> by congruence.
  assert (w' = w) as -> by congruence.
  intros c get Hc.
  destruct (plain_attributes_frame acts d2 c get Hsub Htp Hc)
    as (Hcol & Hfeature & Hplain_c & Hteam_c).
  unfold cell_at. rewrite Hplain.
  - rewrite Hother.
    + rewrite Hw_look, decide_True, Hcol by (split; assumption). cbn.
      rewrite shift_lookup by by rewrite length_fmap.
      unfold slot_action. case_decide; [|reflexivity].
      rewrite list_lookup_fmap.
      destruct (lookup_lt_is_Some_2 acts (i - s)) as [a ->]; [lia|reflexivity].
    + intros s' _ Heq.
      apply (fname_inj "-" _ _ _ _ minus_not_digit) in Heq as [Heq _].
      exact (Hteam_c Heq).
    + intros s' c' p _ Hc' Heq.
      apply (fname_inj "-" _ _ _ _ minus_not_digit) in Heq as [-> _].
      exact (Hplain_c p Hc').
  - intros s' name _ Hname Heq.
    apply (fname_inj "-" _ _ _ _ minus_not_digit) in Heq as [-> _].
    unfold features_to_delay in Hfeature. unfold location_names in Hname.
    list_cases Hfeature; not_in_literals Hname.
  - intros Hin. by eapply sequence_names_plain.
Qed.

Lemma slot_attributes_witness :
  ∃ out,
    create_features_match Num (actions_frame demo) features_to_delay delays
    = Some out
    ∧ ∀ c get, (c, get) ∈ plain_attributes →
        cell_at out (fname c "-" 1) 1
        = Some (from_option get NaN (slot_action demo 1 1)).
Proof.
  apply (slot_attributes Num demo delays 1 1 (goal_ 2));
    [unfold delays; lia|apply demo_type_names|unfold delays; lia|reflexivity].
Defined.

(** The indicator [team-s] of a row is True exactly when slot [s] holds an
    action and that action is by the team of the row. *)
Theorem same_team_indicator sqrt_finite acts K s i a0 :
  1 ≤ K → (∀ a, a ∈ acts → actions_frame acts !! type_name a = None) →
  1 ≤ s < K → acts !! i = Some a0 →
  ∃ out b,
    create_features_match sqrt_finite (actions_frame acts) features_to_delay K
    = Some out
    ∧ cell_at out (fname "team" "-" s) i = Some (Boolean b)
    ∧ (b = true
       ↔ ∃ a, s ≤ i ∧ acts !! (i - s) = Some a ∧ team_id a = team_id a0).
Proof.
  intros HK Hnames Hs Ha0.
  destruct (pipeline_frame acts Hnames)
    as (d1 & d2 & Hd1 & Hd2 & Hsub & Htp & Hcols).
  rewrite (create_features_match_frame sqrt_finite acts K d1 d2 Hd1 Hd2).
  clear Hd1 Hd2 d1 Hnames.
  assert (∀ c, c ∈ features_to_delay → is_Some (d2 !! c)) as Hpresent.
  { intros c Hc. destruct (Hcols c Hc) as (col & -> & _). done. }
  assert (d2 !! "team_id" = Some (team_column acts)) as Hteam
    by (by apply (lookup_weaken _ _ _ _ (team_frame acts))).
  destruct (features_of_windows sqrt_finite d2 K (team_column acts)
              HK Hpresent Hteam) as (w & w2 & out & Hout & Hw & Hw2 & Hplain & _).
  destruct (normalized_windows_frame d2 features_to_delay K (team_column acts))
    as (w' & w1 & w2' & _ & _ & _ & Hnw & _ & Hsame & _);
    [exact HK|exact Hpresent|by repeat first [left | right]
    |apply features_to_delay_coordinates|exact Hteam|].
  assert (w2' = w2) as -> by congruence.
  assert (i < length acts) as Hi by by eapply lookup_lt_Some.
  assert (cell_at out (fname "team" "-" s) i
          = Some (Boolean
                    (cell_eqb (Int (team_id a0))
                       (from_option (Int ∘ team_id) NaN (slot_action acts i s)))))
    as Hcell.
  { unfold cell_at. rewrite Hplain.
    - rewrite (Hsame s Hs). cbn.
      apply (same_team_lookup _ _ i (Int (team_id a0))
               (from_option (Int ∘ team_id) NaN (slot_action acts i s))).
      + unfold team_column. by rewrite list_lookup_fmap, Ha0.
      + unfold team_column. rewrite shift_lookup by by rewrite length_fmap.
        unfold slot_action. case_decide; [|reflexivity].
        rewrite list_lookup_fmap.
        destruct (lookup_lt_is_Some_2 acts (i - s)) as [a ->];
          [lia|reflexivity].
    - intros s' name _ Hname Heq.
      apply (fname_inj "-" _ _ _ _ minus_not_digit) in Heq as [<- _].
      unfold location_names in Hname. not_in_literals Hname.
    - intros Hin. by eapply sequence_names_plain. }
  exists out. eexists. split; [exact Hout|]. clear Hout.
  split; [exact Hcell|]. unfold slot_action. case_decide as Hsi.
  - destruct (lookup_lt_is_Some_2 acts (i - s)) as [a Ha]; [lia|].
    rewrite Ha. cbn [from_option compose]. rewrite cell_eqb_Int.
    rewrite bool_decide_eq_true. split.
    + intros Heq. exists a.
      split; [exact Hsi|split; [reflexivity|symmetry; exact Heq]].
    + intros (a' & _ & Ha' & Heq). injection Ha' as <-. symmetry. exact Heq.
  - cbn [from_option]. split; [discriminate|].
    intros (a & Hle & _). lia.
Qed.

Lemma same_team_indicator_witness :
  ∃ out b,
    create_features_match Num (actions_frame demo) features_to_delay delays
    = Some out
    ∧ cell_at out (fname "team" "-" 2) 2 = Some (Boolean b)
    ∧ (b = true
       ↔ ∃ a, 2 ≤ 2 ∧ demo !! (2 - 2) = Some a ∧ team_id a = team_id (pass_ 1)).
Proof.
  apply (same_team_indicator Num demo delays 2 2 (pass_ 1));
    [unfold delays; lia|apply demo_type_names|unfold delays; lia|reflexivity].
Defined.

(** ** The order of the steps *)

Lemma invert_column_no_team pitch (df : DataFrame) team col :
  df !! team = None → invert_column pitch df team col = None.
Proof.
  intros Hnone. unfold invert_column.
  destruct (df !! col); cbn [mbind option_bind]; [|reflexivity].
  by rewrite Hnone.
Qed.

(** [invert_coordinates] raises on windows of two slots or more that
    [add_same_team] has not been run on: the column [team-1] is not
    there. *)
Theorem invert_coordinates_needs_same_team (df : DataFrame) features K w :
  2 ≤ K → "team" ∉ features →
  create_delayed_features df features K = Some w →
  invert_coordinates w K = None.
Proof.
  intros HK Hteam Hw.
  assert (w !! fname "team" "-" 1 = None) as Hnone.
  { apply eq_None_not_Some. intros Hsome.
    destruct (create_delayed_features_keys df features K w _ Hw Hsome)
      as (c & s & Heq & Hc & _).
    apply (fname_inj "-" _ _ _ _ minus_not_digit) in Heq as [<- _].
    by apply Hteam. }
  unfold invert_coordinates. rewrite range_cons by lia.
  rewrite for_each_cons. cbn [for_each].
  rewrite (invert_column_no_team _ w) by exact Hnone. reflexivity.
Qed.

Lemma invert_coordinates_needs_same_team_witness :
  ∃ w, create_delayed_features (actions_frame demo) demo_features delays = Some w
       ∧ invert_coordinates w delays = None.
Proof.
  eexists. split; [reflexivity|].
  apply (invert_coordinates_needs_same_team (actions_frame demo)
           demo_features delays); [unfold delays; lia| |reflexivity].
  unfold demo_features. intros Hin.
  repeat (apply elem_of_cons in Hin as [Hin|Hin]; [discriminate Hin|]).
  by apply elem_of_nil in Hin.
Defined.

(** ** Distance and angle to the goal *)




